(** * Dopamint indexer: watched-address registry, discovery parser and
      filtered query adapter

    A shallow embedding of
      - [src/filters/contract_filter.go]  (ContractFilter),
      - [src/filters/event_listener.go]   (EventListener),
      - [src/database/mongodb_client.go]  (GetNFTContractAddresses),
      - the RPC wrapper of package [utils] (DopamintRPCClient, LogFilterStats)
    together with the few go-ethereum / Go library functions those files
    call ([common.HexToAddress], [common.BytesToAddress], [Address.Hex],
    [crypto.Keccak256Hash], [strings.ToLower]).

    Conventions.
      - A Go [string] is a [string]; a Go [[]byte], [common.Address]
        ([20]byte) and [common.Hash] ([32]byte) are [list byte].
      - [int] and [int64] counters are [Z]; [float64] is the primitive
        binary64 [float].
      - A Go [error] is its message.
      - [fmt.Printf]/[fmt.Println] append the formatted line to the
        standard output kept in the program state. *)

From Stdlib Require Import ZArith NArith List.
From Stdlib.Strings Require Import Ascii String Byte.
From Stdlib Require Import PrimFloat Uint63.
From stdpp Require Import base decidable countable list gmap strings pretty.

#[local] Set Warnings "-clear-no-such-hyp".

Local Open Scope string_scope.
Local Open Scope list_scope.
Local Open Scope N_scope.

(* ===================================================================== *)
(** ** Bytes *)
(* ===================================================================== *)

#[global] Instance byte_eq_dec : EqDecision byte := Byte.byte_eq_dec.

#[global] Instance byte_countable : Countable byte :=
  inj_countable' Byte.to_N (fun n => default x00 (Byte.of_N n))
    (fun b => f_equal (default x00) (Byte.of_to_N b)).

(** [byte(n)]: conversion of an integer to [uint8], keeping the low 8 bits. *)
Definition byte_of_N (n : N) : byte := default x00 (Byte.of_N (n mod 256)).

(* ===================================================================== *)
(** ** crypto.Keccak256 (library)

    [crypto.Keccak256Hash] of go-ethereum is the legacy Keccak-256 sponge
    (rate 136 bytes, capacity 512 bits, multi-rate padding 0x01 .. 0x80)
    over the Keccak-f[1600] permutation.  The state is 25 lanes of 64 bits,
    lane (x, y) stored at index [x + 5 * y]. *)
(* ===================================================================== *)

Module Keccak.

Definition mask64 : N := 0xFFFFFFFFFFFFFFFF.

Definition rotl64 (x n : N) : N :=
  N.lor (N.land (N.shiftl x n) mask64) (N.shiftr x (64 - n)).

Definition not64 (x : N) : N := N.lxor x mask64.

Definition lane (st : list N) (i : nat) : N := nth i st 0.

Definition round_constants : list N :=
  [ 0x0000000000000001; 0x0000000000008082; 0x800000000000808A;
    0x8000000080008000; 0x000000000000808B; 0x0000000080000001;
    0x8000000080008081; 0x8000000000008009; 0x000000000000008A;
    0x0000000000000088; 0x0000000080008009; 0x000000008000000A;
    0x000000008000808B; 0x800000000000008B; 0x8000000000008089;
    0x8000000000008003; 0x8000000000008002; 0x8000000000000080;
    0x000000000000800A; 0x800000008000000A; 0x8000000080008081;
    0x8000000000008080; 0x0000000080000001; 0x8000000080008008 ].

(** Rotation offsets, indexed by [x + 5 * y]. *)
Definition rotation_offsets : list N :=
  [  0;  1; 62; 28; 27;
    36; 44;  6; 55; 20;
     3; 10; 43; 25; 39;
    41; 45; 15; 21;  8;
    18;  2; 61; 56; 14 ].

Definition theta (a : list N) : list N :=
  let c := map (fun x => N.lxor (lane a x) (N.lxor (lane a (x + 5))
                 (N.lxor (lane a (x + 10)) (N.lxor (lane a (x + 15))
                 (lane a (x + 20)))))) (seq 0 5) in
  let d := map (fun x => N.lxor (lane c ((x + 4) mod 5)%nat)
                                (rotl64 (lane c ((x + 1) mod 5)%nat) 1))
               (seq 0 5) in
  map (fun i => N.lxor (lane a i) (lane d (i mod 5)%nat)) (seq 0 25).

(** rho and pi: [b[y, 2x+3y] = rotl (a[x, y], r[x, y])]; read backwards,
    the lane at (X, Y) comes from x = (X + 3 Y) mod 5, y = X. *)
Definition rho_pi (a : list N) : list N :=
  map (fun i =>
         let X := (i mod 5)%nat in
         let Y := (i / 5)%nat in
         let x := ((X + 3 * Y) mod 5)%nat in
         let y := X in
         rotl64 (lane a (x + 5 * y)) (nth (x + 5 * y) rotation_offsets 0))
      (seq 0 25).

Definition chi (b : list N) : list N :=
  map (fun i =>
         let x := (i mod 5)%nat in
         let y := (i / 5)%nat in
         N.lxor (lane b i)
                (N.land (not64 (lane b ((x + 1) mod 5 + 5 * y)))
                        (lane b ((x + 2) mod 5 + 5 * y))))
      (seq 0 25).

Definition iota (rc : N) (a : list N) : list N :=
  match a with
  | [] => []
  | a0 :: rest => N.lxor a0 rc :: rest
  end.

Definition round (a : list N) (rc : N) : list N :=
  iota rc (chi (rho_pi (theta a))).

Definition keccak_f (a : list N) : list N :=
  fold_left round round_constants a.

Definition rate : nat := 136.

(** Little-endian lane of (up to) eight bytes, and back. *)
Fixpoint lane_of_bytes (bs : list byte) : N :=
  match bs with
  | [] => 0
  | b :: rest => Byte.to_N b + 256 * lane_of_bytes rest
  end.

Fixpoint bytes_of_lane (n : nat) (w : N) : list byte :=
  match n with
  | O => []
  | S n' => byte_of_N w :: bytes_of_lane n' (w / 256)
  end.

Fixpoint chunks (fuel : nat) (k : nat) (bs : list byte) : list (list byte) :=
  match fuel with
  | O => []
  | S fuel' =>
      match bs with
      | [] => []
      | _ => take k bs :: chunks fuel' k (drop k bs)
      end
  end.

(** Multi-rate padding of the legacy Keccak (domain byte 0x01). *)
Definition pad (msg : list byte) : list byte :=
  let q := (rate - (length msg mod rate))%nat in
  if (q =? 1)%nat then msg ++ [x81]
  else msg ++ [x01] ++ repeat x00 (q - 2) ++ [x80].

Definition absorb (st : list N) (block : list byte) : list N :=
  let lanes := map lane_of_bytes (chunks 17 8 block) in
  keccak_f (map (fun i => N.lxor (lane st i) (lane lanes i)) (seq 0 25)).

Definition Keccak256 (msg : list byte) : list byte :=
  let p := pad msg in
  let st := fold_left absorb (chunks (length p) rate p) (repeat 0 25) in
  concat (map (bytes_of_lane 8) (take 4 st)).

End Keccak.

(* ===================================================================== *)
(** ** Go strings, encoding/hex and strings.ToLower (library) *)
(* ===================================================================== *)

Definition char_code (c : ascii) : N := N_of_ascii c.

(** [hextable = "0123456789abcdef"], indexed by a nibble. *)
Definition hextable (n : N) : ascii :=
  if n <? 10 then ascii_of_N (48 + n) else ascii_of_N (97 + (n - 10)).

(** [hex.Encode]: two characters per byte, high nibble first. *)
Fixpoint hex_Encode (src : list byte) : string :=
  match src with
  | [] => EmptyString
  | v :: rest =>
      String (hextable (N.shiftr (Byte.to_N v) 4))
        (String (hextable (N.land (Byte.to_N v) 0x0f)) (hex_Encode rest))
  end.

(** [reverseHexTable]: the value of a hexadecimal digit of either case;
    [None] stands for the table's 0xff entries. *)
Definition reverseHexTable (c : ascii) : option N :=
  let n := char_code c in
  if (48 <=? n) && (n <=? 57) then Some (n - 48)
  else if (97 <=? n) && (n <=? 102) then Some (n - 97 + 10)
  else if (65 <=? n) && (n <=? 70) then Some (n - 65 + 10)
  else None.

Inductive hex_error : Type :=
| InvalidByteError (c : ascii)
| ErrLength.

(** [hex.DecodeString]: the bytes decoded before the first error, and the
    error if there is one. *)
Fixpoint hex_DecodeString (s : string) : list byte * option hex_error :=
  match s with
  | EmptyString => ([], None)
  | String p EmptyString =>
      match reverseHexTable p with
      | None => ([], Some (InvalidByteError p))
      | Some _ => ([], Some ErrLength)
      end
  | String p (String q rest) =>
      match reverseHexTable p, reverseHexTable q with
      | None, _ => ([], Some (InvalidByteError p))
      | Some _, None => ([], Some (InvalidByteError q))
      | Some a, Some b =>
          let '(bs, err) := hex_DecodeString rest in
          (byte_of_N (N.lor (N.shiftl a 4) b) :: bs, err)
      end
  end.

(** [strings.ToLower] on ASCII text (its only use here is on the output of
    [Address.Hex], which is ASCII): 'A'..'Z' are moved to 'a'..'z'. *)
Definition lower_char (c : ascii) : ascii :=
  let n := char_code c in
  if (65 <=? n) && (n <=? 90) then ascii_of_N (n + 32) else c.

Fixpoint ToLower (s : string) : string :=
  match s with
  | EmptyString => EmptyString
  | String c rest => String (lower_char c) (ToLower rest)
  end.

(** [s[n:]] *)
Fixpoint string_drop (n : nat) (s : string) : string :=
  match n, s with
  | O, _ => s
  | S n', String _ rest => string_drop n' rest
  | S _, EmptyString => EmptyString
  end.

(* ===================================================================== *)
(** ** go-ethereum common: Address, Hash (library) *)
(* ===================================================================== *)

Abbreviation Address := (list byte).
Abbreviation Hash := (list byte).

Definition AddressLength : nat := 20.
Definition HashLength : nat := 32.

(** [func (a *Address) SetBytes(b []byte)] on the zero address: if [b] is
    longer than an address it is cropped from the left, otherwise it is
    copied right-aligned. *)
Definition BytesToAddress (b : list byte) : Address :=
  let b := if (AddressLength <? length b)%nat
           then drop (length b - AddressLength) b else b in
  repeat x00 (AddressLength - length b) ++ b.

(** [func (h Hash) Bytes() []byte { return h[:] }] *)
Definition Hash_Bytes (h : Hash) : list byte := h.

Definition has0xPrefix (str : string) : bool :=
  match str with
  | String c0 (String c1 _) =>
      bool_decide (c0 = "0"%char) &&
      (bool_decide (c1 = "x"%char) || bool_decide (c1 = "X"%char))
  | _ => false
  end.

(** [Hex2Bytes] drops the decoding error. *)
Definition Hex2Bytes (str : string) : list byte := fst (hex_DecodeString str).

Definition FromHex (s : string) : list byte :=
  let s := if has0xPrefix s then string_drop 2 s else s in
  let s := if Nat.odd (String.length s) then String "0"%char s else s in
  Hex2Bytes s.

Definition HexToAddress (s : string) : Address := BytesToAddress (FromHex s).

Definition Keccak256Hash (data : list byte) : Hash := Keccak.Keccak256 data.

(** [func (a Address) hex() []byte]: "0x" followed by the lowercase
    hexadecimal digits. *)
Definition Address_hex (a : Address) : string := "0x" +:+ hex_Encode a.

(** The loop of [checksumHex], from index [i] on: a letter is put in upper
    case when the matching nibble of the hash is above 7. *)
Fixpoint checksumLoop (hash : list byte) (i : nat) (buf : string) : string :=
  match buf with
  | EmptyString => EmptyString
  | String c rest =>
      let hashByte := Byte.to_N (nth ((i - 2) / 2) hash x00) in
      let hashByte := if Nat.even i then N.shiftr hashByte 4
                      else N.land hashByte 0xf in
      let c' := if (57 <? char_code c) && (7 <? hashByte)
                then ascii_of_N (char_code c - 32) else c in
      String c' (checksumLoop hash (S i) rest)
  end.

Definition checksumHex (a : Address) : string :=
  let digits := string_drop 2 (Address_hex a) in
  let hash := Keccak.Keccak256 (list_byte_of_string digits) in
  "0x" +:+ checksumLoop hash 2 digits.

(** [func (a Address) Hex() string]: the EIP-55 mixed-case rendering. *)
Definition Address_Hex (a : Address) : string := checksumHex a.

(* ===================================================================== *)
(** ** Programs: state of the receiver object and a trace of effects *)
(* ===================================================================== *)

Definition error := string.

(** The line feed that ends a printed line. *)
Definition newline : string := String (ascii_of_N 10) EmptyString.

(** A Go pair [(T, error)] of which exactly one side is meaningful. *)
Inductive result (A : Type) : Type :=
| Ok (a : A)
| Err (e : error).
Arguments Ok {A} a.
Arguments Err {A} e.

(** [*big.Int]; [None] is the nil pointer. *)
Definition bigInt := option Z.

Definition bigInt_String (x : bigInt) : string :=
  match x with
  | None => "<nil>"
  | Some z => pretty z
  end.

(** [types.Log] *)
Record Log := {
  log_Address : Address;
  log_Topics : list Hash;
  log_Data : list byte;
  log_BlockNumber : Z;
  log_TxHash : Hash;
  log_Index : Z;
}.

(** [ethereum.FilterQuery]; an empty [Addresses] puts no constraint on the
    emitting address. *)
Record FilterQuery := {
  FromBlock : bigInt;
  ToBlock : bigInt;
  Addresses : list Address;
}.

(** What a run does that the outside can observe: a line printed, a query
    sent to the node, a call of the MongoDB source. *)
Inductive effect : Type :=
| Stdout (line : string)
| FilterLogsCall (query : FilterQuery)
| GetNFTContractAddressesCall.

(** A method with receiver state [S]: the result, the receiver afterwards,
    and the effects in the order they happened.  The mutex of
    [ContractFilter] is not modelled: a method body runs as one step. *)
Definition M (S A : Type) : Type := S → A * S * list effect.

Definition ret {S A} (a : A) : M S A := fun s => (a, s, []).

Definition bind {S A B} (m : M S A) (k : A → M S B) : M S B :=
  fun s => let '(a, s1, t1) := m s in
           let '(b, s2, t2) := k a s1 in
           (b, s2, t1 ++ t2).

Definition get {S} : M S S := fun s => (s, s, []).
Definition put {S} (s : S) : M S unit := fun _ => (tt, s, []).
Definition Printf {S} (line : string) : M S unit := fun s => (tt, s, [Stdout line]).

Declare Scope prog_scope.
Delimit Scope prog_scope with prog.
Notation "x <- m ;; k" := (bind m (fun x => k))
  (at level 100, m at next level, right associativity) : prog_scope.
Notation "m ;;; k" := (bind m (fun _ => k))
  (at level 100, right associativity) : prog_scope.

Definition result_of {S A} (r : A * S * list effect) : A := r.1.1.
Definition state_of {S A} (r : A * S * list effect) : S := r.1.2.
Definition trace_of {S A} (r : A * S * list effect) : list effect := r.2.

(** The lines printed, and the queries sent, in a trace. *)
Definition stdout_of (t : list effect) : list string :=
  omap (fun e => match e with Stdout l => Some l | _ => None end) t.
Definition queries_of (t : list effect) : list FilterQuery :=
  omap (fun e => match e with FilterLogsCall q => Some q | _ => None end) t.

(* ===================================================================== *)
(** ** filters/contract_filter.go *)
(* ===================================================================== *)

Record ContractFilter := {
  factoryAddress : Address;
  paymentAddress : Address;
  nftContracts : gmap Address bool;
  enabled : bool;
  autoDiscovery : bool;
  mongodbSyncEnabled : bool;
  mongodbSyncInterval : Z;
}.

Definition set_nftContracts (m : gmap Address bool) (cf : ContractFilter) :=
  {| factoryAddress := factoryAddress cf;
     paymentAddress := paymentAddress cf;
     nftContracts := m;
     enabled := enabled cf;
     autoDiscovery := autoDiscovery cf;
     mongodbSyncEnabled := mongodbSyncEnabled cf;
     mongodbSyncInterval := mongodbSyncInterval cf |}.

(** [m[k]] on a [map[K]bool]: a missing key reads as [false]. *)
Definition map_index (m : gmap Address bool) (k : Address) : bool :=
  default false (m !! k).

Record ContractInfo := {
  ci_Address : string;
  ci_Name : string;
  ci_Description : string;
  ci_Events : list string;
}.

Record ContractConfig := {
  cfg_Network : string;
  cfg_ChainID : Z;
  cfg_Factory : ContractInfo;
  cfg_Payment : ContractInfo;
  cfg_NFTContracts : list string;
  cfg_EventFilters_Enabled : bool;
  cfg_EventFilters_FilterMode : string;
  cfg_EventFilters_Description : string;
  cfg_MongoDBSync_Enabled : bool;
  cfg_MongoDBSync_IntervalSeconds : Z;
  cfg_MongoDBSync_Description : string;
  cfg_AutoDiscovery_Enabled : bool;
  cfg_AutoDiscovery_Description : string;
}.

(** Two's-complement wrap-around of [int64] arithmetic. *)
Definition wrap_int64 (z : Z) : Z :=
  ((z + 2 ^ 63) mod 2 ^ 64 - 2 ^ 63)%Z.

(** [time.Second], in nanoseconds. *)
Definition time_Second : Z := 1000000000%Z.

(** The loop "Load initial NFT contracts". *)
Definition load_initial (addrs : list string) (m : gmap Address bool)
  : gmap Address bool :=
  fold_left (fun m addr =>
               if bool_decide (addr ≠ EmptyString)
               then <[HexToAddress addr := true]> m
               else m)
            addrs m.

Section Environment.
(** The file system and the JSON decoder are the process's environment:
    [os.ReadFile] gives the file's bytes or an error, [json.Unmarshal]
    the decoded configuration or an error. *)
Variable os_ReadFile : string → result (list byte).
Variable json_Unmarshal : list byte → result ContractConfig.

Definition NewContractFilter (configPath : string) : result ContractFilter :=
  match os_ReadFile configPath with
  | Err err => Err ("failed to read config file: " +:+ err)
  | Ok data =>
      match json_Unmarshal data with
      | Err err => Err ("failed to parse config: " +:+ err)
      | Ok config =>
          let filter :=
            {| factoryAddress := HexToAddress (ci_Address (cfg_Factory config));
               paymentAddress := HexToAddress (ci_Address (cfg_Payment config));
               nftContracts := ∅;
               enabled := cfg_EventFilters_Enabled config;
               autoDiscovery := cfg_AutoDiscovery_Enabled config;
               mongodbSyncEnabled := cfg_MongoDBSync_Enabled config;
               mongodbSyncInterval :=
                 wrap_int64 (cfg_MongoDBSync_IntervalSeconds config * time_Second) |} in
          Ok (set_nftContracts
                (load_initial (cfg_NFTContracts config) (nftContracts filter))
                filter)
      end
  end.
End Environment.

Definition IsEnabled (cf : ContractFilter) : bool := enabled cf.

Definition ShouldIndexLog (address : Address) (cf : ContractFilter) : bool :=
  if negb (enabled cf) then true
  else if bool_decide (address = factoryAddress cf) then true
  else if bool_decide (address = paymentAddress cf) then true
  else if map_index (nftContracts cf) address then true
  else false.

Local Open Scope prog_scope.

Definition AddNFTContract (address : Address) : M ContractFilter unit :=
  cf <- get ;;
  if negb (map_index (nftContracts cf) address) then
    let m := <[address := true]> (nftContracts cf) in
    put (set_nftContracts m cf) ;;;
    Printf ("[ContractFilter] Added NFT contract: " +:+ Address_Hex address
            +:+ " (total: " +:+ pretty (size m) +:+ ")" +:+ newline)
  else ret tt.

(** The loop of [AddNFTContracts]: the map and [newCount] after it. *)
Definition AddNFTContracts_loop (addresses : list Address)
    (acc : gmap Address bool * Z) : gmap Address bool * Z :=
  fold_left (fun '(m, newCount) addr =>
               if negb (map_index m addr)
               then (<[addr := true]> m, (newCount + 1)%Z)
               else (m, newCount))
            addresses acc.

Definition AddNFTContracts (addresses : list Address) : M ContractFilter unit :=
  cf <- get ;;
  let '(m, newCount) := AddNFTContracts_loop addresses (nftContracts cf, 0%Z) in
  put (set_nftContracts m cf) ;;;
  if (0 <? newCount)%Z then
    Printf ("[ContractFilter] Added " +:+ pretty newCount
            +:+ " new NFT contracts (total: " +:+ pretty (size m) +:+ ")" +:+ newline)
  else ret tt.

(** [for addr := range cf.nftContracts] visits each key once, in an order
    Go leaves unspecified and that may differ from one call to the next;
    this is the enumeration in the map's own order.  What is stated about
    the order of the result is stated for every order, over [snapshot]. *)
Definition map_keys (m : gmap Address bool) : list Address := (map_to_list m).*1.

Definition GetWatchedAddresses (cf : ContractFilter) : list Address :=
  let addresses := [] in
  let addresses := addresses ++ [factoryAddress cf] in
  let addresses := addresses ++ [paymentAddress cf] in
  fold_left (fun addresses addr => addresses ++ [addr])
            (map_keys (nftContracts cf)) addresses.

Definition GetAddressFilter (cf : ContractFilter) : list string :=
  let addresses := GetWatchedAddresses cf in
  map (fun addr => ToLower (Address_Hex addr)) addresses.

(** [Stats]: the string-keyed map, as a record of its entries. *)
Record FilterStats := {
  stat_enabled : bool;
  stat_factory_address : string;
  stat_payment_address : string;
  stat_nft_contracts_count : Z;
  stat_total_watched : Z;
  stat_auto_discovery : bool;
  stat_mongodb_sync : bool;
}.

Definition Stats (cf : ContractFilter) : FilterStats :=
  {| stat_enabled := enabled cf;
     stat_factory_address := Address_Hex (factoryAddress cf);
     stat_payment_address := Address_Hex (paymentAddress cf);
     stat_nft_contracts_count := Z.of_nat (size (nftContracts cf));
     stat_total_watched := (Z.of_nat (size (nftContracts cf)) + 2)%Z;
     stat_auto_discovery := autoDiscovery cf;
     stat_mongodb_sync := mongodbSyncEnabled cf |}.

(** [MongoDBClient]: anything that can list the known contract addresses.
    A call gives the answer together with the lines the implementation
    prints while it works.  A value of [C] is the source as it stands at
    the time of the call; the call does not change it. *)
Class MongoDBClient (C : Type) := {
  GetNFTContractAddresses : C → result (list Address) * list string;
}.

(** [mongoClient.GetNFTContractAddresses(ctx)] inside a method of the
    registry: the call goes out, the client's output and its answer come
    back. *)
Definition call_GetNFTContractAddresses `{MongoDBClient C} (mongoClient : C)
  : M ContractFilter (result (list Address)) :=
  fun cf => ((GetNFTContractAddresses mongoClient).1, cf,
             GetNFTContractAddressesCall
               :: (Stdout <$> (GetNFTContractAddresses mongoClient).2)).

Definition syncFromMongoDB `{MongoDBClient C} (mongoClient : C)
  : M ContractFilter (option error) :=
  r <- call_GetNFTContractAddresses mongoClient ;;
  match r with
  | Err err => ret (Some ("failed to fetch NFT contracts from MongoDB: " +:+ err))
  | Ok addresses =>
      (if (0 <? length addresses)%nat then
         AddNFTContracts addresses ;;;
         Printf ("[ContractFilter] Synced " +:+ pretty (length addresses)
                 +:+ " NFT contracts from MongoDB" +:+ newline)
       else ret tt) ;;;
      ret None
  end.

(* ===================================================================== *)
(** ** filters/event_listener.go *)
(* ===================================================================== *)

(** [contractFilter] points to the filter the listener was built with: the
    receiver state of the listener's methods is that filter. *)
Record EventListener := {
  el_factoryAddress : Address;
}.

Definition NFTContractCreatedSignature : Hash :=
  Keccak256Hash
    (list_byte_of_string
       "NFTContractCreated(uint256,address,address,string,string,string)").

Definition NewEventListener (factoryAddress : Address) : EventListener :=
  {| el_factoryAddress := factoryAddress |}.

(** [log.Topics[i]]; the callers check the length first. *)
Definition topic (log : Log) (i : nat) : Hash := nth i (log_Topics log) [].

Definition ProcessLog (el : EventListener) (log : Log) : M ContractFilter unit :=
  if bool_decide (log_Address log ≠ el_factoryAddress el) then ret tt
  else if (length (log_Topics log) =? 0)%nat
          || bool_decide (topic log 0 ≠ NFTContractCreatedSignature) then ret tt
  else if (length (log_Topics log) <? 3)%nat then
    Printf ("[EventListener] Invalid NFTContractCreated event: not enough topics"
            +:+ newline)
  else
    let contractAddress := BytesToAddress (Hash_Bytes (topic log 1)) in
    AddNFTContract contractAddress ;;;
    Printf ("[EventListener] Discovered new NFT contract: "
            +:+ Address_Hex contractAddress +:+ newline).

(** The loop of [ProcessLogs], from a given [discoveredCount]. *)
Fixpoint ProcessLogs_loop (el : EventListener) (logs : list Log)
    (discoveredCount : Z) : M ContractFilter Z :=
  match logs with
  | [] => ret discoveredCount
  | log :: rest =>
      ProcessLog el log ;;;
      if (0 <? length (log_Topics log))%nat
         && bool_decide (topic log 0 = NFTContractCreatedSignature)
      then ProcessLogs_loop el rest (discoveredCount + 1)%Z
      else ProcessLogs_loop el rest discoveredCount
  end.

Definition ProcessLogs (el : EventListener) (logs : list Log)
  : M ContractFilter Z :=
  ProcessLogs_loop el logs 0%Z.

Record NFTContractCreatedEvent := {
  CollectionID : bigInt;
  ContractAddress : Address;
  Creator : Address;
  Name : string;
  Symbol : string;
  BaseURI : string;
  BlockNumber : Z;
  TxHash : Hash;
  LogIndex : Z;
}.

Definition ParseNFTContractCreatedEvent (log : Log)
  : result NFTContractCreatedEvent :=
  if (length (log_Topics log) <? 3)%nat then
    Err "invalid NFTContractCreated event: not enough topics"
  else if bool_decide (topic log 0 ≠ NFTContractCreatedSignature) then
    Err "not an NFTContractCreated event"
  else
    Ok {| CollectionID := None;
          ContractAddress := BytesToAddress (Hash_Bytes (topic log 1));
          Creator := BytesToAddress (Hash_Bytes (topic log 2));
          Name := EmptyString;
          Symbol := EmptyString;
          BaseURI := EmptyString;
          BlockNumber := log_BlockNumber log;
          TxHash := log_TxHash log;
          LogIndex := log_Index log |}.

Definition GetEventSignatures : list Hash := [NFTContractCreatedSignature].

Definition BackfillNFTContracts (el : EventListener) (logs : list Log)
  : M ContractFilter (option error) :=
  Printf ("[EventListener] Starting backfill of NFT contracts from "
          +:+ pretty (length logs) +:+ " logs" +:+ newline) ;;;
  discoveredCount <- ProcessLogs el logs ;;
  Printf ("[EventListener] Backfill complete: discovered "
          +:+ pretty discoveredCount +:+ " NFT contracts" +:+ newline) ;;;
  ret None.

(* ===================================================================== *)
(** ** utils: DopamintRPCClient and LogFilterStats *)
(* ===================================================================== *)

(** [client] stands for the connected node: what [FilterLogs] answers to a
    query. *)
Record DopamintRPCClient := {
  client : FilterQuery → result (list Log);
  addressFilter : list Address;
  filterEnabled : bool;
}.

(** [d.client.FilterLogs(ctx, query)]: the query goes out, the node's
    answer comes back. *)
Definition FilterLogs (query : FilterQuery)
  : M DopamintRPCClient (result (list Log)) :=
  fun d => (client d query, d, [FilterLogsCall query]).

Definition GetFilteredLogs (fromBlock toBlock : bigInt)
  : M DopamintRPCClient (result (list Log)) :=
  d <- get ;;
  if negb (filterEnabled d) || (length (addressFilter d) =? 0)%nat then
    let query := {| FromBlock := fromBlock; ToBlock := toBlock; Addresses := [] |} in
    FilterLogs query
  else
    let query := {| FromBlock := fromBlock; ToBlock := toBlock;
                    Addresses := addressFilter d |} in
    r <- FilterLogs query ;;
    match r with
    | Err err => ret (Err ("failed to fetch filtered logs: " +:+ err))
    | Ok logs =>
        Printf ("[DopamintRPC] Fetched " +:+ pretty (length logs)
                +:+ " logs from " +:+ pretty (length (addressFilter d))
                +:+ " contracts (blocks " +:+ bigInt_String fromBlock
                +:+ "-" +:+ bigInt_String toBlock +:+ ")" +:+ newline) ;;;
        ret (Ok logs)
    end.

Definition UpdateAddressFilter (addresses : list Address)
  : M DopamintRPCClient unit :=
  d <- get ;;
  put {| client := client d; addressFilter := addresses;
         filterEnabled := filterEnabled d |} ;;;
  Printf ("[DopamintRPC] Updated address filter: "
          +:+ pretty (length addresses) +:+ " addresses" +:+ newline).

Record LogFilterStats := {
  TotalLogsReceived : Z;
  LogsAfterFilter : Z;
  BlocksProcessed : Z;
  ContractsWatched : Z;
  FilterEnabled : bool;
}.

(** [float64(x)] for an [int64] [x]: the nearest binary64, ties to even. *)
Definition float64_of_int64 (x : Z) : float :=
  let magnitude (n : Z) : float :=
    if (n <? 2 ^ 63)%Z then PrimFloat.of_uint63 (Uint63.of_Z n)
    else 0x1p63%float in
  if (x <? 0)%Z then PrimFloat.opp (magnitude (- x)%Z) else magnitude x.

Definition CalculateFilterEfficiency (stats : LogFilterStats) : float :=
  if (TotalLogsReceived stats =? 0)%Z then 0%float
  else
    PrimFloat.mul
      (PrimFloat.sub 1%float
         (PrimFloat.div (float64_of_int64 (LogsAfterFilter stats))
                        (float64_of_int64 (TotalLogsReceived stats))))
      100%float.

(* ===================================================================== *)
(** ** Reachable registry states *)
(* ===================================================================== *)

(** One mutation of the registry by any of its writers. *)
Inductive step : ContractFilter → ContractFilter → Prop :=
| step_AddNFTContract a cf :
    step cf (state_of (AddNFTContract a cf))
| step_AddNFTContracts l cf :
    step cf (state_of (AddNFTContracts l cf))
| step_sync {C} `{MongoDBClient C} (c : C) cf :
    step cf (state_of (syncFromMongoDB c cf))
| step_ProcessLog el log cf :
    step cf (state_of (ProcessLog el log cf))
| step_ProcessLogs el logs cf :
    step cf (state_of (ProcessLogs el logs cf))
| step_Backfill el logs cf :
    step cf (state_of (BackfillNFTContracts el logs cf)).

(** The states a process can be in: built by [NewContractFilter] from some
    configuration, then mutated any number of times. *)
Inductive reachable : ContractFilter → Prop :=
| reachable_new os_ReadFile json_Unmarshal configPath cf :
    NewContractFilter os_ReadFile json_Unmarshal configPath = Ok cf →
    reachable cf
| reachable_step cf cf' :
    reachable cf → step cf cf' → reachable cf'.

(* ===================================================================== *)
(** ** Definitions used by the statements *)
(* ===================================================================== *)

(** *** Registry *)

(** Every entry of the dynamic-member map holds [true]. *)
Definition all_true (m : gmap Address bool) : Prop :=
  ∀ k v, m !! k = Some v → v = true.

(** What [AddNFTContract] leaves in the map. *)
Definition add_member (a : Address) (m : gmap Address bool) : gmap Address bool :=
  if map_index m a then m else <[a := true]> m.

(** [cf'] is [cf] with the addresses of [l] inserted one after the other:
    the writers of the registry only ever insert. *)
Definition extends_by (l : list Address) (cf cf' : ContractFilter) : Prop :=
  cf' = set_nftContracts (foldl (fun m a => add_member a m) (nftContracts cf) l) cf.

(** The lists [GetWatchedAddresses] may return: the two fixed addresses,
    then the keys of the map in whatever order the iteration visits
    them. *)
Definition snapshot (cf : ContractFilter) (l : list Address) : Prop :=
  ∃ keys, keys ≡ₚ map_keys (nftContracts cf)
          ∧ l = factoryAddress cf :: paymentAddress cf :: keys.

Definition zero_address : Address := repeat x00 AddressLength.

(** *** Discovery parser *)

(** The first topic is the discovery signature. *)
Definition signature_matches (log : Log) : bool :=
  bool_decide (head (log_Topics log) = Some NFTContractCreatedSignature).

(** The applicability test of the discovery parser, as the specification
    words it: emitted by the factory, first topic equal to the discovery
    signature, at least three topics. *)
Definition applicable (el : EventListener) (log : Log) : bool :=
  bool_decide (log_Address log = el_factoryAddress el)
  && bool_decide (head (log_Topics log) = Some NFTContractCreatedSignature)
  && (3 <=? length (log_Topics log))%nat.

Definition invalid_event_line : string :=
  "[EventListener] Invalid NFTContractCreated event: not enough topics" +:+ newline.

(** The number of logs of a batch that satisfy a test. *)
Definition count_logs (p : Log → bool) (logs : list Log) : Z :=
  Z.of_nat (length (filter (fun log => p log = true) logs)).

(** The addresses a batch inserts, in order: the second topic of each
    applicable log. *)
Definition discovered (el : EventListener) (logs : list Log) : list Address :=
  map (fun log => BytesToAddress (Hash_Bytes (topic log 1)))
      (filter (fun log => applicable el log = true) logs).

(** [log] with another emitting address. *)
Definition with_Address (a : Address) (log : Log) : Log :=
  {| log_Address := a; log_Topics := log_Topics log; log_Data := log_Data log;
     log_BlockNumber := log_BlockNumber log; log_TxHash := log_TxHash log;
     log_Index := log_Index log |}.

(** C2 as the specification states it, for one log: nothing is inserted,
    the log is not dropped silently (something is reported), and the batch
    processor does not count it as a discovered event. *)
Definition rejected_as_error (el : EventListener) (cf : ContractFilter)
    (log : Log) : Prop :=
  state_of (ProcessLog el log cf) = cf
  ∧ trace_of (ProcessLog el log cf) ≠ []
  ∧ result_of (ProcessLogs el [log] cf) = 0%Z.

(** *** Hexadecimal text *)

(** Big-endian value of a byte string. *)
Definition N_of_bytes_be (bs : list byte) : N :=
  fold_left (fun acc b => 256 * acc + Byte.to_N b) bs 0.

Definition hi_nibble (v : byte) : N := N.shiftr (Byte.to_N v) 4.
Definition lo_nibble (v : byte) : N := N.land (Byte.to_N v) 0x0f.

(** A character that [checksumHex] may put in upper case and that
    [ToLower] brings back. *)
Definition survives_checksum (c : ascii) : bool :=
  bool_decide (lower_char c = c)
  && bool_decide (lower_char (ascii_of_N (char_code c - 32)) = c
                  ∨ (57 <? char_code c) = false).

Fixpoint all_chars (p : ascii → bool) (s : string) : bool :=
  match s with
  | EmptyString => true
  | String c rest => p c && all_chars p rest
  end.

(** [s1] and [s2] differ at most in the case of their ASCII letters. *)
Definition same_up_to_case (s1 s2 : string) : Prop := ToLower s1 = ToLower s2.

(** [common.IsHexAddress] (library): forty hexadecimal digits, with or
    without the 0x prefix.  It is the test the MongoDB client applies to
    the addresses it reads; [NewContractFilter] applies none. *)
Fixpoint isHex_chars (s : string) : bool :=
  match s with
  | EmptyString => true
  | String c rest => bool_decide (is_Some (reverseHexTable c)) && isHex_chars rest
  end.

Definition IsHexAddress (s : string) : bool :=
  let s := if has0xPrefix s then string_drop 2 s else s in
  (String.length s =? 2 * AddressLength)%nat && isHex_chars s.

(** *** A sample deployment *)

Module Sample.

Definition factory : Address :=
  HexToAddress "0x1111111111111111111111111111111111111111".
Definition payment : Address :=
  HexToAddress "0x2222222222222222222222222222222222222222".
Definition contractX : Address :=
  HexToAddress "0xAAAAaaaaAAAAaaaaAAAAaaaaAAAAaaaaAAAAaaaa".
Definition contractY : Address :=
  HexToAddress "0xbbbbbbbbbbbbbbbbbbbbbbbbbbbbbbbbbbbbbbbb".
Definition creator : Address :=
  HexToAddress "0xcccccccccccccccccccccccccccccccccccccccc".
Definition stranger : Address :=
  HexToAddress "0xdddddddddddddddddddddddddddddddddddddddd".

(** The configuration of the deployment, with filtering switched on or
    off. *)
Definition config_of (filtering : bool) : ContractConfig :=
  {| cfg_Network := "base";
     cfg_ChainID := 8453;
     cfg_Factory :=
       {| ci_Address := "0x1111111111111111111111111111111111111111";
          ci_Name := "Factory"; ci_Description := EmptyString;
          ci_Events := ["NFTContractCreated"] |};
     cfg_Payment :=
       {| ci_Address := "0x2222222222222222222222222222222222222222";
          ci_Name := "Payment"; ci_Description := EmptyString;
          ci_Events := [] |};
     cfg_NFTContracts := [];
     cfg_EventFilters_Enabled := filtering;
     cfg_EventFilters_FilterMode := "whitelist";
     cfg_EventFilters_Description := EmptyString;
     cfg_MongoDBSync_Enabled := true;
     cfg_MongoDBSync_IntervalSeconds := 300;
     cfg_MongoDBSync_Description := EmptyString;
     cfg_AutoDiscovery_Enabled := true;
     cfg_AutoDiscovery_Description := EmptyString |}.

Definition config : ContractConfig := config_of true.

(** A file system with the one configuration file, and decoders that read
    [config], or the same with filtering off, from it. *)
Definition readFile (path : string) : result (list byte) :=
  if bool_decide (path = "contracts.json")
  then Ok (list_byte_of_string "{ ... }")
  else Err ("open " +:+ path +:+ ": no such file or directory").

Definition unmarshal (data : list byte) : result ContractConfig := Ok config.

Definition unmarshal_disabled (data : list byte) : result ContractConfig :=
  Ok (config_of false).

Definition filter_of (filtering : bool) : ContractFilter :=
  {| factoryAddress := factory;
     paymentAddress := payment;
     nftContracts := ∅;
     enabled := filtering;
     autoDiscovery := true;
     mongodbSyncEnabled := true;
     mongodbSyncInterval := 300000000000 |}.

Definition filter : ContractFilter := filter_of true.
Definition filter_disabled : ContractFilter := filter_of false.

(** The registry after the factory address itself was inserted as a
    dynamic member. *)
Definition filter_factory_added : ContractFilter :=
  state_of (AddNFTContract factory filter).

Definition listener : EventListener := NewEventListener factory.

(** An indexed address parameter: the address left-padded to 32 bytes. *)
Definition pad32 (a : Address) : Hash := repeat x00 12 ++ a.

Definition log_of (emitter : Address) (topics : list Hash) : Log :=
  {| log_Address := emitter; log_Topics := topics; log_Data := [];
     log_BlockNumber := 100; log_TxHash := repeat x00 32; log_Index := 0 |}.

(** A well-formed discovery event of the factory. *)
Definition created : Log :=
  log_of factory [NFTContractCreatedSignature; pad32 contractX; pad32 creator].

(** The same event, emitted by another contract. *)
Definition foreign : Log :=
  log_of stranger [NFTContractCreatedSignature; pad32 contractX; pad32 creator].

(** The signature alone, from the factory. *)
Definition short : Log := log_of factory [NFTContractCreatedSignature].

End Sample.

Module BrokenConfig.
(** The sample configuration with the factory address left out and a
    payment address that is no address. *)
Definition config : ContractConfig :=
  {| cfg_Network := "base";
     cfg_ChainID := 8453;
     cfg_Factory :=
       {| ci_Address := EmptyString; ci_Name := "Factory"; ci_Description := EmptyString;
          ci_Events := [] |};
     cfg_Payment :=
       {| ci_Address := "payment"; ci_Name := "Payment";
          ci_Description := EmptyString; ci_Events := [] |};
     cfg_NFTContracts := [];
     cfg_EventFilters_Enabled := true;
     cfg_EventFilters_FilterMode := "whitelist";
     cfg_EventFilters_Description := EmptyString;
     cfg_MongoDBSync_Enabled := false;
     cfg_MongoDBSync_IntervalSeconds := 0;
     cfg_MongoDBSync_Description := EmptyString;
     cfg_AutoDiscovery_Enabled := true;
     cfg_AutoDiscovery_Description := EmptyString |}.

Definition unmarshal (data : list byte) : result ContractConfig := Ok config.

(** A decoder that rejects the file. *)
Definition unmarshal_error (data : list byte) : result ContractConfig :=
  Err "unexpected end of JSON input".
End BrokenConfig.

Module SampleNode.
(** A node holding two logs, one of the factory and one of a stranger;
    it honours the address constraint of a query. *)
Definition logs : list Log := [Sample.created; Sample.foreign].

Definition node (query : FilterQuery) : result (list Log) :=
  match Addresses query with
  | [] => Ok logs
  | allowed => Ok (filter (fun log => log_Address log ∈ allowed) logs)
  end.

Definition watching : DopamintRPCClient :=
  {| client := node;
     addressFilter := [Sample.factory; Sample.payment];
     filterEnabled := true |}.

Definition emptied : DopamintRPCClient :=
  {| client := node; addressFilter := []; filterEnabled := true |}.

Definition stats : LogFilterStats :=
  {| TotalLogsReceived := 1000; LogsAfterFilter := 100; BlocksProcessed := 10;
     ContractsWatched := 2; FilterEnabled := true |}.

Definition idle_stats : LogFilterStats :=
  {| TotalLogsReceived := 0; LogsAfterFilter := 0; BlocksProcessed := 0;
     ContractsWatched := 2; FilterEnabled := true |}.
End SampleNode.

(* ===================================================================== *)
(** ** filters/contract_filter.go: the periodic synchronisation *)
(* ===================================================================== *)

(** What the [select] of the loop receives, one entry per iteration: the
    cancellation of the context, or a tick of the ticker together with the
    source as it answers at that moment. *)
Inductive select_case (C : Type) : Type :=
| ctx_Done
| ticker_C (mongoClient : C).
Arguments ctx_Done {C}.
Arguments ticker_C {C} mongoClient.

(** How a run of [StartMongoDBSync] over a finite schedule ends: it
    returned, it panicked, or it is still blocked in [select] when the
    schedule is used up. *)
Inductive loop_exit : Type :=
| returned
| panicked (msg : string)
| blocked.

(** The [for { select { ... } }] of [StartMongoDBSync]. *)
Fixpoint sync_loop `{MongoDBClient C} (schedule : list (select_case C))
  : M ContractFilter loop_exit :=
  match schedule with
  | [] => ret blocked
  | ctx_Done :: _ =>
      Printf ("[ContractFilter] MongoDB sync stopped" +:+ newline) ;;;
      ret returned
  | ticker_C mongoClient :: rest =>
      err <- syncFromMongoDB mongoClient ;;
      match err with
      | Some e => Printf ("[ContractFilter] MongoDB sync error: " +:+ e +:+ newline)
      | None => ret tt
      end ;;;
      sync_loop rest
  end.

Section Clock.
(** [time.Duration.String] (library), used only to print the interval. *)
Variable Duration_String : Z → string.

(** [time.NewTicker] panics when the interval is not positive. *)
Definition StartMongoDBSync `{MongoDBClient C} (mongoClient : C)
    (schedule : list (select_case C)) : M ContractFilter loop_exit :=
  cf <- get ;;
  if negb (mongodbSyncEnabled cf) then
    Printf ("[ContractFilter] MongoDB sync is disabled" +:+ newline) ;;;
    ret returned
  else
    Printf ("[ContractFilter] Starting MongoDB sync (interval: "
            +:+ Duration_String (mongodbSyncInterval cf) +:+ ")" +:+ newline) ;;;
    if (mongodbSyncInterval cf <=? 0)%Z then
      ret (panicked "non-positive interval for NewTicker")
    else
      err <- syncFromMongoDB mongoClient ;;
      match err with
      | Some e =>
          Printf ("[ContractFilter] Initial MongoDB sync error: " +:+ e +:+ newline)
      | None => ret tt
      end ;;;
      sync_loop schedule.
End Clock.

(** A source that is its own answer, and prints nothing. *)
#[global] Instance answer_MongoDBClient : MongoDBClient (result (list Address)) :=
  {| GetNFTContractAddresses := fun answer => (answer, []) |}.

(** The syncs a schedule triggers: the ticks before the first
    cancellation. *)
Fixpoint ticks_before_Done {C} (schedule : list (select_case C)) : list C :=
  match schedule with
  | [] => []
  | ctx_Done :: _ => []
  | ticker_C c :: rest => c :: ticks_before_Done rest
  end.

(* ===================================================================== *)
(** ** database/mongodb_client.go *)
(* ===================================================================== *)

Module Database.

Record NFTContractDocument := {
  doc_ID : list byte;
  doc_ContractAddress : string;
  doc_CollectionID : Z;
  doc_Creator : string;
  doc_Name : string;
  doc_Symbol : string;
  doc_BaseURI : string;
  doc_ModelID : Z;
  doc_CreatedAt : Z;
  doc_UpdatedAt : Z;
  doc_ChainID : Z;
  doc_Network : string;
  doc_Status : string;
}.

(** The query documents the client sends: [{"status": {"$ne": s}}] and
    [{"status": s}]. *)
Inductive bson_filter : Type :=
| status_ne (s : string)
| status_eq (s : string).

(** A [*mongo.Cursor]: the documents [Next] yields, each with the outcome
    of [Decode], and the error [Err] reports once [Next] has answered
    false. *)
Record Cursor := {
  cursor_docs : list (result NFTContractDocument);
  cursor_Err : option error;
}.

(** [collection.Find] stands for the database. *)
Record DopamintMongoClient := {
  collection_Find : bson_filter → result Cursor;
}.

(** The loop [for cursor.Next(ctx)] of [GetNFTContractAddresses]. *)
Fixpoint collect_addresses (docs : list (result NFTContractDocument))
    (addresses : list Address) : M DopamintMongoClient (list Address) :=
  match docs with
  | [] => ret addresses
  | Err err :: rest =>
      Printf ("[MongoDB] Failed to decode document: " +:+ err +:+ newline) ;;;
      collect_addresses rest addresses
  | Ok doc :: rest =>
      if bool_decide (doc_ContractAddress doc ≠ EmptyString)
         && IsHexAddress (doc_ContractAddress doc)
      then collect_addresses rest
             (addresses ++ [HexToAddress (doc_ContractAddress doc)])
      else collect_addresses rest addresses
  end.

Definition GetNFTContractAddresses
  : M DopamintMongoClient (result (list Address)) :=
  m <- get ;;
  match collection_Find m (status_ne "deleted") with
  | Err err => ret (Err ("failed to query MongoDB: " +:+ err))
  | Ok cursor =>
      addresses <- collect_addresses (cursor_docs cursor) [] ;;
      match cursor_Err cursor with
      | Some err => ret (Err ("cursor error: " +:+ err))
      | None => ret (Ok addresses)
      end
  end.

End Database.

(* ===================================================================== *)
(** ** Definitions used by the further statements *)
(* ===================================================================== *)

(** Every address the registry holds has the width of an address. *)
Definition well_formed (cf : ContractFilter) : Prop :=
  length (factoryAddress cf) = AddressLength
  ∧ length (paymentAddress cf) = AddressLength
  ∧ ∀ a, a ∈ dom (nftContracts cf) → length a = AddressLength.

(** The documents of a cursor that pass the test of
    [GetNFTContractAddresses]: decoded, with a well-formed address. *)
Definition valid_document (d : result Database.NFTContractDocument)
  : option string :=
  match d with
  | Ok doc =>
      if IsHexAddress (Database.doc_ContractAddress doc)
      then Some (Database.doc_ContractAddress doc) else None
  | Err _ => None
  end.

(** The decode failures of a cursor. *)
Definition decode_failure (d : result Database.NFTContractDocument)
  : option error :=
  match d with
  | Ok _ => None
  | Err e => Some e
  end.

(** The rendering [GetAddressFilter] applies to the list it gets from
    [GetWatchedAddresses]. *)
Definition lowercase_hex (addresses : list Address) : list string :=
  map (fun addr => ToLower (Address_Hex addr)) addresses.

(** The lists [GetAddressFilter] may return: the rendering of the
    snapshot its call of [GetWatchedAddresses] obtained, in whatever order
    that iteration visited the map. *)
Definition address_filter (cf : ContractFilter) (fs : list string) : Prop :=
  ∃ l, snapshot cf l ∧ fs = lowercase_hex l.

(** [s] without its 0x prefix, if it has one. *)
Definition strip_0x (s : string) : string :=
  if has0xPrefix s then string_drop 2 s else s.

(** The repository's client as a source: its answer, and the lines it
    prints. *)
#[global] Instance DopamintMongoClient_MongoDBClient
  : MongoDBClient Database.DopamintMongoClient :=
  {| GetNFTContractAddresses := fun m =>
       (result_of (Database.GetNFTContractAddresses m),
        stdout_of (trace_of (Database.GetNFTContractAddresses m))) |}.

(** The number of calls of the source in a trace. *)
Fixpoint source_calls (t : list effect) : nat :=
  match t with
  | [] => 0
  | GetNFTContractAddressesCall :: rest => S (source_calls rest)
  | _ :: rest => source_calls rest
  end.

(** What one round of the synchronisation leaves in the trace: the
    synchronisation with [c] from the registry [cf] and, if it failed, the
    line that reports the failure under [label]. *)
Definition round_trace `{MongoDBClient C} (label : string) (c : C)
    (cf : ContractFilter) : list effect :=
  trace_of (syncFromMongoDB c cf)
  ++ match result_of (syncFromMongoDB c cf) with
     | Some e => [Stdout (label +:+ e +:+ newline)]
     | None => []
     end.

(** The rounds of the ticks of a schedule, each from the registry the round
    before left. *)
Fixpoint rounds_trace `{MongoDBClient C} (ticks : list C) (cf : ContractFilter)
  : list effect :=
  match ticks with
  | [] => []
  | c :: rest =>
      round_trace "[ContractFilter] MongoDB sync error: " c cf
      ++ rounds_trace rest (state_of (syncFromMongoDB c cf))
  end.

(** The schedule holds a cancellation. *)
Fixpoint cancelled {C} (schedule : list (select_case C)) : bool :=
  match schedule with
  | [] => false
  | ctx_Done :: _ => true
  | ticker_C _ :: rest => cancelled rest
  end.

(** *** A second sample deployment *)

Module Preload.

(** A configuration that preloads contracts: an empty entry, one address
    in two spellings and an entry that is no address; the synchronisation
    is switched on without an interval. *)
Definition config : ContractConfig :=
  {| cfg_Network := "base";
     cfg_ChainID := 8453;
     cfg_Factory := cfg_Factory Sample.config;
     cfg_Payment := cfg_Payment Sample.config;
     cfg_NFTContracts :=
       [EmptyString;
        "0xAAAAaaaaAAAAaaaaAAAAaaaaAAAAaaaaAAAAaaaa";
        "0xaaaaaaaaaaaaaaaaaaaaaaaaaaaaaaaaaaaaaaaa";
        "not-an-address"];
     cfg_EventFilters_Enabled := true;
     cfg_EventFilters_FilterMode := "whitelist";
     cfg_EventFilters_Description := EmptyString;
     cfg_MongoDBSync_Enabled := true;
     cfg_MongoDBSync_IntervalSeconds := 0;
     cfg_MongoDBSync_Description := EmptyString;
     cfg_AutoDiscovery_Enabled := true;
     cfg_AutoDiscovery_Description := EmptyString |}.

Definition unmarshal (data : list byte) : result ContractConfig := Ok config.

(** A registry with the synchronisation switched off. *)
Definition filter_without_sync : ContractFilter :=
  {| factoryAddress := Sample.factory;
     paymentAddress := Sample.payment;
     nftContracts := ∅;
     enabled := true;
     autoDiscovery := true;
     mongodbSyncEnabled := false;
     mongodbSyncInterval := 0 |}.

(** A stand-in for the rendering of a duration. *)
Definition duration_in_ns (d : Z) : string := pretty d +:+ "ns".

(** A run of the loop: a tick at which the source fails, a tick at which
    it lists [contractY], the cancellation, and a tick that comes too
    late. *)
Definition schedule : list (select_case (result (list Address))) :=
  [ticker_C (Err "timeout"); ticker_C (Ok [Sample.contractY]); ctx_Done;
   ticker_C (Ok [Sample.stranger])].

Definition document (address : string) : Database.NFTContractDocument :=
  {| Database.doc_ID := [];
     Database.doc_ContractAddress := address;
     Database.doc_CollectionID := 1;
     Database.doc_Creator := EmptyString;
     Database.doc_Name := "Collection";
     Database.doc_Symbol := "COL";
     Database.doc_BaseURI := EmptyString;
     Database.doc_ModelID := 0;
     Database.doc_CreatedAt := 0;
     Database.doc_UpdatedAt := 0;
     Database.doc_ChainID := 8453;
     Database.doc_Network := "base";
     Database.doc_Status := "active" |}.

(** A collection with a good document, one that does not decode, one
    without address, one with a short address and a second good one. *)
Definition cursor : Database.Cursor :=
  {| Database.cursor_docs :=
       [Ok (document "0xAAAAaaaaAAAAaaaaAAAAaaaaAAAAaaaaAAAAaaaa");
        Err "cannot decode string into an integer type";
        Ok (document EmptyString);
        Ok (document "0x123");
        Ok (document "bbbbbbbbbbbbbbbbbbbbbbbbbbbbbbbbbbbbbbbb")];
     Database.cursor_Err := None |}.

Definition database : Database.DopamintMongoClient :=
  {| Database.collection_Find := fun _ => Ok cursor |}.

(** The line the client prints for the second document of [cursor]. *)
Definition decode_failure_line : string :=
  "[MongoDB] Failed to decode document: cannot decode string into an integer type"
  +:+ newline.

(** The registry with two dynamic members. *)
Definition filter_two_members : ContractFilter :=
  state_of (AddNFTContracts [Sample.contractX; Sample.contractY] Sample.filter).

(** [config] with an interval of -9223372037 seconds, whose product with
    [time.Second] does not fit 64 bits. *)
Definition config_wrapping : ContractConfig :=
  {| cfg_Network := cfg_Network config;
     cfg_ChainID := cfg_ChainID config;
     cfg_Factory := cfg_Factory config;
     cfg_Payment := cfg_Payment config;
     cfg_NFTContracts := cfg_NFTContracts config;
     cfg_EventFilters_Enabled := cfg_EventFilters_Enabled config;
     cfg_EventFilters_FilterMode := cfg_EventFilters_FilterMode config;
     cfg_EventFilters_Description := cfg_EventFilters_Description config;
     cfg_MongoDBSync_Enabled := true;
     cfg_MongoDBSync_IntervalSeconds := -9223372037;
     cfg_MongoDBSync_Description := cfg_MongoDBSync_Description config;
     cfg_AutoDiscovery_Enabled := cfg_AutoDiscovery_Enabled config;
     cfg_AutoDiscovery_Description := cfg_AutoDiscovery_Description config |}.

Definition unmarshal_wrapping (data : list byte) : result ContractConfig :=
  Ok config_wrapping.

Definition unreachable_database : Database.DopamintMongoClient :=
  {| Database.collection_Find := fun _ => Err "server selection timeout" |}.

End Preload.

(* ===================================================================== *)
(** ** Test vectors for the library layer *)
(* ===================================================================== *)

Example Keccak256_empty :
  N_of_bytes_be (Keccak.Keccak256 []) =
  0xc5d2460186f7233c927e7db2dcc703c0e500b653ca82273b7bfad8045d85a470.
Proof. vm_compute. reflexivity. Qed.

Example Keccak256_abc :
  N_of_bytes_be (Keccak.Keccak256 (list_byte_of_string "abc")) =
  0x4e03657aea45a94fc7d47ba826c8d667c0d1e6e33a64a036ec44f58fa12d6c45.
Proof. vm_compute. reflexivity. Qed.

Example Keccak256_Transfer :
  N_of_bytes_be
    (Keccak.Keccak256 (list_byte_of_string "Transfer(address,address,uint256)")) =
  0xddf252ad1be2c89b69c2b068fc378daa952ba7f163c4a11628f55a4df523b3ef.
Proof. vm_compute. reflexivity. Qed.

Example Address_Hex_eip55 :
  Address_Hex (HexToAddress "0x5aaeb6053f3e94c9b9a09f33669435e7ef1beaed") =
  "0x5aAeb6053F3E94C9b9A09f33669435E7Ef1BeAed".
Proof. vm_compute. reflexivity. Qed.

Example HexToAddress_odd_length :
  HexToAddress "0x123" = repeat x00 18 ++ [x01; x23].
Proof. vm_compute. reflexivity. Qed.

Example float64_of_int64_rounds :
  float64_of_int64 (2 ^ 53 + 1)%Z = 9007199254740992%float ∧
  float64_of_int64 (2 ^ 53 + 3)%Z = 9007199254740996%float ∧
  float64_of_int64 (- 2 ^ 63)%Z = (-0x1p63)%float.
Proof. vm_compute. repeat split. Qed.

(* ===================================================================== *)
(** ** The registry: runs of its methods *)
(* ===================================================================== *)

Lemma set_nftContracts_id cf : set_nftContracts (nftContracts cf) cf = cf.
Proof. by destruct cf. Qed.

Lemma map_index_true_lookup (m : gmap Address bool) a :
  map_index m a = true ↔ m !! a = Some true.
Proof.
  unfold map_index. destruct (m !! a) as [[]|]; simpl; split; congruence.
Qed.

Lemma map_index_dom (m : gmap Address bool) a :
  all_true m → (map_index m a = true ↔ a ∈ dom m).
Proof.
  intros Hm. rewrite map_index_true_lookup, elem_of_dom. split.
  - intros ->. by eexists.
  - intros [v Hv]. by rewrite Hv, (Hm _ _ Hv).
Qed.

Lemma all_true_insert (m : gmap Address bool) a :
  all_true m → all_true (<[a := true]> m).
Proof.
  intros Hm k v. rewrite lookup_insert. case_decide; [congruence | apply Hm].
Qed.

Lemma AddNFTContract_state a cf :
  state_of (AddNFTContract a cf)
  = set_nftContracts (add_member a (nftContracts cf)) cf.
Proof.
  unfold AddNFTContract, add_member, bind, get, state_of. simpl.
  destruct (map_index (nftContracts cf) a); simpl; [|done].
  by rewrite set_nftContracts_id.
Qed.

Lemma add_member_index a m : map_index (add_member a m) a = true.
Proof.
  unfold add_member. destruct (map_index m a) eqn:E; [done|].
  unfold map_index. by rewrite lookup_insert_eq.
Qed.

Lemma add_member_all_true a m : all_true m → all_true (add_member a m).
Proof. unfold add_member. destruct (map_index m a); auto using all_true_insert. Qed.

Lemma add_member_dom a m : all_true m → dom (add_member a m) = {[a]} ∪ dom m.
Proof.
  intros Hm. unfold add_member. destruct (map_index m a) eqn:E.
  - apply map_index_dom in E; [set_solver | done].
  - by rewrite dom_insert_L.
Qed.

(** [AddNFTContracts_loop] is [add_member] over the batch, and [newCount]
    grows by one for each address that was not yet indexed. *)
Lemma AddNFTContracts_loop_cons a l m n :
  AddNFTContracts_loop (a :: l) (m, n) =
  AddNFTContracts_loop l (add_member a m,
                          if map_index m a then n else (n + 1)%Z).
Proof. unfold AddNFTContracts_loop, add_member. simpl. by destruct (map_index m a). Qed.

Lemma AddNFTContracts_loop_map l m n :
  (AddNFTContracts_loop l (m, n)).1 = foldl (fun m a => add_member a m) m l.
Proof.
  revert m n. induction l as [|a l IH]; intros m n; [done|].
  rewrite AddNFTContracts_loop_cons. apply IH.
Qed.

Lemma AddNFTContracts_state l cf :
  state_of (AddNFTContracts l cf) =
  set_nftContracts (foldl (fun m a => add_member a m) (nftContracts cf) l) cf.
Proof.
  unfold AddNFTContracts, bind, get, state_of. simpl.
  rewrite <- (AddNFTContracts_loop_map l (nftContracts cf) 0%Z).
  destruct (AddNFTContracts_loop l (nftContracts cf, 0%Z)) as [m n]. simpl.
  by destruct (0 <? n)%Z.
Qed.

Lemma foldl_add_member_all_true l m :
  all_true m → all_true (foldl (fun m a => add_member a m) m l).
Proof.
  revert m. induction l as [|a l IH]; intros m Hm; [done|].
  simpl. apply IH. by apply add_member_all_true.
Qed.

Lemma foldl_add_member_dom l m :
  all_true m →
  dom (foldl (fun m a => add_member a m) m l) = list_to_set l ∪ dom m.
Proof.
  revert m. induction l as [|a l IH]; intros m Hm; simpl.
  - set_solver.
  - rewrite IH by by apply add_member_all_true.
    rewrite add_member_dom by done. set_solver.
Qed.

(* ===================================================================== *)
(** ** Sequencing *)
(* ===================================================================== *)

Section Bind.
Context {S A B : Type} (m : M S A) (k : A → M S B) (s : S).

Lemma result_of_bind :
  result_of (bind m k s) = result_of (k (result_of (m s)) (state_of (m s))).
Proof.
  unfold bind, result_of, state_of. destruct (m s) as [[a s1] t1]. simpl.
  by destruct (k a s1) as [[b s2] t2].
Qed.

Lemma state_of_bind :
  state_of (bind m k s) = state_of (k (result_of (m s)) (state_of (m s))).
Proof.
  unfold bind, result_of, state_of. destruct (m s) as [[a s1] t1]. simpl.
  by destruct (k a s1) as [[b s2] t2].
Qed.

Lemma trace_of_bind :
  trace_of (bind m k s) =
  trace_of (m s) ++ trace_of (k (result_of (m s)) (state_of (m s))).
Proof.
  unfold bind, result_of, state_of, trace_of. destruct (m s) as [[a s1] t1].
  simpl. by destruct (k a s1) as [[b s2] t2].
Qed.
End Bind.

(* ===================================================================== *)
(** ** The discovery parser: runs of [ProcessLog] and [ProcessLogs] *)
(* ===================================================================== *)

Lemma signature_matches_topic log :
  signature_matches log =
  (0 <? length (log_Topics log))%nat
  && bool_decide (topic log 0 = NFTContractCreatedSignature).
Proof.
  unfold signature_matches, topic. destruct (log_Topics log) as [|t ts]; simpl.
  - done.
  - apply bool_decide_ext. split; congruence.
Qed.

Lemma signature_mismatch_topic log :
  negb (signature_matches log) =
  (length (log_Topics log) =? 0)%nat
  || bool_decide (topic log 0 ≠ NFTContractCreatedSignature).
Proof.
  rewrite signature_matches_topic, negb_andb.
  destruct (log_Topics log); simpl; [done|].
  by rewrite bool_decide_not.
Qed.

Lemma applicable_spec el log :
  applicable el log = true ↔
  log_Address log = el_factoryAddress el
  ∧ signature_matches log = true
  ∧ (3 ≤ length (log_Topics log))%nat.
Proof.
  unfold applicable, signature_matches.
  rewrite !andb_true_iff, !bool_decide_eq_true, Nat.leb_le. tauto.
Qed.

(** The emitter check comes first: a log of another emitter changes
    nothing and prints nothing, whatever its topics. *)
Lemma ProcessLog_other_emitter el log cf :
  log_Address log ≠ el_factoryAddress el →
  ProcessLog el log cf = (tt, cf, []).
Proof. intros H. unfold ProcessLog. by rewrite bool_decide_eq_true_2. Qed.

Lemma ProcessLog_other_signature el log cf :
  signature_matches log = false →
  ProcessLog el log cf = (tt, cf, []).
Proof.
  intros H. unfold ProcessLog. case_bool_decide; [done|].
  rewrite <- signature_mismatch_topic, H. done.
Qed.

Lemma ProcessLog_not_enough_topics el log cf :
  log_Address log = el_factoryAddress el →
  signature_matches log = true →
  (length (log_Topics log) < 3)%nat →
  ProcessLog el log cf = (tt, cf, [Stdout invalid_event_line]).
Proof.
  intros Ha Hs Hn. unfold ProcessLog.
  rewrite bool_decide_eq_false_2 by (intros ?; contradiction).
  rewrite <- signature_mismatch_topic, Hs. simpl.
  apply Nat.ltb_lt in Hn. by rewrite Hn.
Qed.

Lemma ProcessLog_applicable el log cf :
  applicable el log = true →
  ProcessLog el log cf =
  (AddNFTContract (BytesToAddress (Hash_Bytes (topic log 1))) ;;;
   Printf ("[EventListener] Discovered new NFT contract: "
           +:+ Address_Hex (BytesToAddress (Hash_Bytes (topic log 1)))
           +:+ newline))%prog cf.
Proof.
  unfold applicable. rewrite !andb_true_iff, !bool_decide_eq_true.
  intros [[Ha Hs] Hn]. unfold ProcessLog.
  rewrite bool_decide_eq_false_2 by (intros ?; contradiction).
  rewrite <- signature_mismatch_topic. unfold signature_matches.
  rewrite bool_decide_eq_true_2 by done. simpl.
  apply Nat.leb_le in Hn.
  destruct (length (log_Topics log) <? 3)%nat eqn:E; [|done].
  apply Nat.ltb_lt in E. lia.
Qed.

(** The registry after [ProcessLog]: one insertion when the log passes the
    three checks, no change otherwise. *)
Lemma ProcessLog_state el log cf :
  state_of (ProcessLog el log cf) =
  if applicable el log
  then state_of (AddNFTContract (BytesToAddress (Hash_Bytes (topic log 1))) cf)
  else cf.
Proof.
  destruct (applicable el log) eqn:E.
  - rewrite ProcessLog_applicable by done. by rewrite state_of_bind.
  - unfold applicable in E. rewrite !andb_false_iff in E.
    destruct (decide (log_Address log = el_factoryAddress el)) as [Ha|Ha];
      [|by rewrite ProcessLog_other_emitter].
    destruct (signature_matches log) eqn:Hs;
      [|by rewrite ProcessLog_other_signature].
    rewrite ProcessLog_not_enough_topics; [done..|].
    destruct E as [[E|E]|E].
    + by apply bool_decide_eq_false in E.
    + unfold signature_matches in Hs. congruence.
    + by apply Nat.leb_gt in E.
Qed.

Lemma ProcessLogs_loop_cons el log rest n cf :
  ProcessLogs_loop el (log :: rest) n cf =
  (ProcessLog el log ;;;
   ProcessLogs_loop el rest (if signature_matches log then n + 1 else n)%Z)%prog cf.
Proof.
  simpl. rewrite <- signature_matches_topic. unfold bind.
  destruct (ProcessLog el log cf) as [[[] s1] t1].
  by destruct (signature_matches log).
Qed.

Lemma count_logs_cons p log logs :
  count_logs p (log :: logs) =
  ((if p log then 1 else 0) + count_logs p logs)%Z.
Proof.
  unfold count_logs. rewrite filter_cons.
  destruct (p log) eqn:E; case_decide; simpl; try congruence; lia.
Qed.

(** [discoveredCount] goes up by one for every log whose first topic is the
    discovery signature, and for no other. *)
Lemma ProcessLogs_loop_result el logs n cf :
  result_of (ProcessLogs_loop el logs n cf) =
  (n + count_logs signature_matches logs)%Z.
Proof.
  revert n cf. induction logs as [|log rest IH]; intros n cf.
  - unfold count_logs. simpl. unfold result_of. simpl. lia.
  - rewrite ProcessLogs_loop_cons, result_of_bind, IH, count_logs_cons.
    destruct (signature_matches log); lia.
Qed.

Lemma ProcessLogs_loop_state el logs n cf :
  state_of (ProcessLogs_loop el logs n cf) =
  set_nftContracts
    (foldl (fun m a => add_member a m) (nftContracts cf) (discovered el logs)) cf.
Proof.
  revert n cf. induction logs as [|log rest IH]; intros n cf.
  - unfold state_of. simpl. by rewrite set_nftContracts_id.
  - rewrite ProcessLogs_loop_cons, state_of_bind, IH, ProcessLog_state.
    unfold discovered. rewrite filter_cons.
    destruct (applicable el log) eqn:E; case_decide; try congruence; simpl;
      try done.
    by rewrite AddNFTContract_state.
Qed.

(* ===================================================================== *)
(** ** Invariant of the reachable states *)
(* ===================================================================== *)

Lemma syncFromMongoDB_state `{MongoDBClient C} (c : C) cf :
  state_of (syncFromMongoDB c cf) =
  match (GetNFTContractAddresses c).1 with
  | Ok addresses => state_of (AddNFTContracts addresses cf)
  | Err _ => cf
  end.
Proof.
  unfold syncFromMongoDB. rewrite state_of_bind.
  unfold call_GetNFTContractAddresses at 1 2. unfold result_of at 1. cbn [fst snd].
  unfold state_of at 2. cbn [fst snd].
  destruct (GetNFTContractAddresses c).1 as [l|e]; [|done].
  rewrite state_of_bind. unfold ret at 1. unfold state_of at 1. simpl.
  destruct l as [|a l]; simpl.
  - rewrite AddNFTContracts_state. simpl. by rewrite set_nftContracts_id.
  - by rewrite state_of_bind.
Qed.

Lemma BackfillNFTContracts_state el logs cf :
  state_of (BackfillNFTContracts el logs cf) = state_of (ProcessLogs el logs cf).
Proof.
  unfold BackfillNFTContracts. by rewrite !state_of_bind.
Qed.

Lemma step_extends cf cf' : step cf cf' → ∃ l, extends_by l cf cf'.
Proof.
  unfold extends_by. destruct 1.
  - exists [a]. by rewrite AddNFTContract_state.
  - exists l. by rewrite AddNFTContracts_state.
  - rewrite syncFromMongoDB_state. destruct (GetNFTContractAddresses c).1 as [l|e].
    + exists l. by rewrite AddNFTContracts_state.
    + exists []. simpl. by rewrite set_nftContracts_id.
  - rewrite ProcessLog_state. destruct (applicable el log).
    + eexists [_]. by rewrite AddNFTContract_state.
    + exists []. simpl. by rewrite set_nftContracts_id.
  - exists (discovered el logs). apply ProcessLogs_loop_state.
  - exists (discovered el logs). rewrite BackfillNFTContracts_state.
    apply ProcessLogs_loop_state.
Qed.

Lemma load_initial_all_true addrs m : all_true m → all_true (load_initial addrs m).
Proof.
  unfold load_initial. revert m.
  induction addrs as [|a addrs IH]; intros m Hm; [done|].
  simpl. apply IH. case_bool_decide; auto using all_true_insert.
Qed.

Lemma NewContractFilter_all_true os_ReadFile json_Unmarshal configPath cf :
  NewContractFilter os_ReadFile json_Unmarshal configPath = Ok cf →
  all_true (nftContracts cf).
Proof.
  unfold NewContractFilter.
  destruct (os_ReadFile configPath) as [data|]; [|done].
  destruct (json_Unmarshal data) as [config|]; [|done].
  intros [= <-]. simpl. apply load_initial_all_true. intros k v.
  by rewrite lookup_empty.
Qed.

Lemma reachable_all_true cf : reachable cf → all_true (nftContracts cf).
Proof.
  induction 1 as [os js path cf Hnew | cf cf' _ IH Hstep].
  - by eapply NewContractFilter_all_true.
  - destruct (step_extends _ _ Hstep) as [l ->]. simpl.
    by apply foldl_add_member_all_true.
Qed.

(** The fixed roles and the switches never change. *)
Lemma step_fixed cf cf' :
  step cf cf' →
  factoryAddress cf' = factoryAddress cf ∧ paymentAddress cf' = paymentAddress cf
  ∧ enabled cf' = enabled cf.
Proof. intros [l ->]%step_extends. done. Qed.

(* ===================================================================== *)
(** ** Claims about the registry *)
(* ===================================================================== *)

(** C4: in every reachable registry state, [ShouldIndexLog] answers [true]
    for every address (inserted or not) when filtering is disabled; when
    filtering is enabled it answers [true] exactly for the factory
    address, the payment address and the dynamic members. *)
Theorem ShouldIndexLog_membership cf (a : Address) :
  reachable cf →
  (enabled cf = false → ShouldIndexLog a cf = true) ∧
  (enabled cf = true →
   (ShouldIndexLog a cf = true ↔
    a = factoryAddress cf ∨ a = paymentAddress cf ∨ a ∈ dom (nftContracts cf))).
Proof.
  intros Hr. pose proof (reachable_all_true cf Hr) as Hm.
  unfold ShouldIndexLog. split; intros ->; simpl; [done|].
  repeat case_bool_decide; try (split; [auto | done]).
  destruct (map_index (nftContracts cf) a) eqn:E.
  - apply map_index_dom in E; [|done]. split; auto.
  - split; [done|]. intros [?|[?|Hd]]; try contradiction.
    apply map_index_dom in Hd; [congruence | done].
Qed.

(** *** Insertion *)

Lemma add_member_index_mono a b m :
  map_index m a = true → map_index (add_member b m) a = true.
Proof.
  intros Ha. unfold add_member. destruct (map_index m b) eqn:Hb; [done|].
  unfold map_index. rewrite lookup_insert. case_decide; [done|]. exact Ha.
Qed.

Lemma foldl_add_member_index_mono l m a :
  map_index m a = true →
  map_index (foldl (fun m a => add_member a m) m l) a = true.
Proof.
  revert m. induction l as [|b l IH]; intros m Ha; [done|].
  simpl. by apply IH, add_member_index_mono.
Qed.

Lemma foldl_add_member_index l m a :
  a ∈ l → map_index (foldl (fun m a => add_member a m) m l) a = true.
Proof.
  revert m. induction l as [|b l IH]; intros m; [by intros ?%elem_of_nil|].
  intros [->|Ha]%elem_of_cons; simpl.
  - apply foldl_add_member_index_mono, add_member_index.
  - by apply IH.
Qed.

(** A batch whose addresses are all indexed already changes nothing and
    counts nothing. *)
Lemma AddNFTContracts_loop_present l m n :
  (∀ a, a ∈ l → map_index m a = true) →
  AddNFTContracts_loop l (m, n) = (m, n).
Proof.
  induction l as [|a l IH]; intros Hl; [done|].
  rewrite AddNFTContracts_loop_cons. unfold add_member.
  rewrite (Hl a) by (apply elem_of_cons; by left).
  apply IH. intros b Hb. apply Hl. apply elem_of_cons. by right.
Qed.

Lemma AddNFTContracts_present l cf :
  (∀ a, a ∈ l → map_index (nftContracts cf) a = true) →
  AddNFTContracts l cf = (tt, cf, []).
Proof.
  intros Hl. unfold AddNFTContracts, bind, get. simpl.
  rewrite AddNFTContracts_loop_present by done. simpl.
  by rewrite set_nftContracts_id.
Qed.

Lemma AddNFTContracts_indexed l cf a :
  a ∈ l → map_index (nftContracts (state_of (AddNFTContracts l cf))) a = true.
Proof.
  intros Ha. rewrite AddNFTContracts_state. simpl.
  by apply foldl_add_member_index.
Qed.

(** [newCount] is the number of distinct addresses of the batch that were
    not members before. *)
Lemma AddNFTContracts_loop_newCount l m n :
  all_true m →
  (AddNFTContracts_loop l (m, n)).2 =
  (n + Z.of_nat (size (list_to_set (C := gset Address) l ∖ dom m)))%Z.
Proof.
  revert m n. induction l as [|a l IH]; intros m n Hm.
  - simpl. replace (∅ ∖ dom m) with (∅ : gset Address) by set_solver.
    rewrite size_empty. lia.
  - rewrite AddNFTContracts_loop_cons.
    rewrite IH by by apply add_member_all_true.
    rewrite add_member_dom by done. simpl.
    destruct (map_index m a) eqn:E.
    + apply map_index_dom in E; [|done]. do 3 f_equal. set_solver.
    + assert (a ∉ dom m) as Hna.
      { intros Hd. apply map_index_dom in Hd; [congruence | done]. }
      replace (({[a]} ∪ list_to_set l) ∖ dom m)
        with ({[a]} ∪ list_to_set l ∖ ({[a]} ∪ dom m) : gset Address).
      * rewrite (size_union {[a]}) by set_solver. rewrite size_singleton. lia.
      * apply set_eq. intros x. destruct (decide (x = a)); set_solver.
Qed.

Lemma size_foldl_add_member (l : list Address) (m : gmap Address bool) :
  all_true m →
  size (foldl (fun m a => add_member a m) m l) =
  (size m + size (list_to_set (C := gset Address) l ∖ dom m))%nat.
Proof.
  intros Hm. rewrite <- !size_dom, foldl_add_member_dom by done.
  replace (list_to_set l ∪ dom m) with (list_to_set l ∖ dom m ∪ dom m).
  - rewrite (size_union (list_to_set l ∖ dom m)) by set_solver. lia.
  - apply set_eq. intros x. destruct (decide (x ∈ dom m)); set_solver.
Qed.

(** C6: insertion is idempotent.  (1) [AddNFTContract a] twice leaves the
    registry exactly as once: same answer of the membership test for every
    address, same dynamic-member count.  (2) In a reachable state,
    [AddNFTContracts] of any batch makes exactly the batch's addresses
    members, counts as new its distinct addresses that were not members,
    and a second [AddNFTContracts] of the same batch changes nothing,
    counts nothing and prints nothing.  (3) In particular, for a batch
    [X; Y; X] of two new addresses, exactly [X] and [Y] are added and the
    count of new members is 2, then 0. *)
Theorem insertion_idempotent :
  (∀ cf a,
     let once := state_of (AddNFTContract a cf) in
     let twice := state_of (AddNFTContract a once) in
     twice = once
     ∧ (∀ b, ShouldIndexLog b twice = ShouldIndexLog b once)
     ∧ size (nftContracts twice) = size (nftContracts once))
  ∧ (∀ cf l,
       reachable cf →
       let first := AddNFTContracts_loop l (nftContracts cf, 0%Z) in
       let after := state_of (AddNFTContracts l cf) in
       dom (nftContracts after) = list_to_set l ∪ dom (nftContracts cf)
       ∧ first.2 = Z.of_nat (size (list_to_set (C := gset Address) l
                                     ∖ dom (nftContracts cf)))
       ∧ Z.of_nat (size (nftContracts after))
         = (Z.of_nat (size (nftContracts cf)) + first.2)%Z
       ∧ (AddNFTContracts_loop l (nftContracts after, 0%Z)).2 = 0%Z
       ∧ AddNFTContracts l after = (tt, after, []))
  ∧ (∀ cf X Y,
       reachable cf →
       X ≠ Y → X ∉ dom (nftContracts cf) → Y ∉ dom (nftContracts cf) →
       let after := state_of (AddNFTContracts [X; Y; X] cf) in
       dom (nftContracts after) = {[X; Y]} ∪ dom (nftContracts cf)
       ∧ size (nftContracts after) = (size (nftContracts cf) + 2)%nat
       ∧ (AddNFTContracts_loop [X; Y; X] (nftContracts cf, 0%Z)).2 = 2%Z
       ∧ (AddNFTContracts_loop [X; Y; X] (nftContracts after, 0%Z)).2 = 0%Z
       ∧ state_of (AddNFTContracts [X; Y; X] after) = after).
Proof.
  split; [|split].
  - intros cf a once twice.
    assert (twice = once) as Heq.
    { unfold twice. rewrite AddNFTContract_state. unfold once.
      rewrite AddNFTContract_state. simpl. unfold add_member at 1.
      by rewrite add_member_index. }
    by rewrite Heq.
  - intros cf l Hr first after.
    pose proof (reachable_all_true cf Hr) as Hm.
    split; [|split; [|split; [|split]]].
    + unfold after. rewrite AddNFTContracts_state. simpl.
      by apply foldl_add_member_dom.
    + unfold first. rewrite AddNFTContracts_loop_newCount by done. lia.
    + unfold first, after. rewrite AddNFTContracts_loop_newCount by done.
      rewrite AddNFTContracts_state. simpl.
      rewrite size_foldl_add_member by done. lia.
    + rewrite AddNFTContracts_loop_present; [done|].
      intros a Ha. by apply AddNFTContracts_indexed.
    + apply AddNFTContracts_present.
      intros a Ha. by apply AddNFTContracts_indexed.
  - intros cf X Y Hr Hne HX HY after.
    pose proof (reachable_all_true cf Hr) as Hm.
    assert (size (list_to_set (C := gset Address) [X; Y; X]
                    ∖ dom (nftContracts cf)) = 2%nat) as Hsz.
    { replace (list_to_set [X; Y; X] ∖ dom (nftContracts cf))
        with ({[X]} ∪ {[Y]} : gset Address) by set_solver.
      rewrite (size_union {[X]}) by set_solver. by rewrite !size_singleton. }
    split; [|split; [|split; [|split]]].
    + unfold after. rewrite AddNFTContracts_state. simpl.
      fold (add_member X (nftContracts cf)).
      change (dom (foldl (fun m a => add_member a m) (nftContracts cf) [X; Y; X])
              = {[X; Y]} ∪ dom (nftContracts cf)).
      rewrite foldl_add_member_dom by done. set_solver.
    + unfold after. rewrite AddNFTContracts_state. simpl.
      change (size (foldl (fun m a => add_member a m) (nftContracts cf) [X; Y; X])
              = (size (nftContracts cf) + 2)%nat).
      rewrite size_foldl_add_member by done. lia.
    + rewrite AddNFTContracts_loop_newCount by done. lia.
    + rewrite AddNFTContracts_loop_present; [done|].
      intros a Ha. by apply AddNFTContracts_indexed.
    + rewrite AddNFTContracts_present; [done|].
      intros a Ha. by apply AddNFTContracts_indexed.
Qed.

(* ===================================================================== *)
(** ** The sample deployment *)
(* ===================================================================== *)

Lemma Sample_filter_new :
  NewContractFilter Sample.readFile Sample.unmarshal "contracts.json"
  = Ok Sample.filter.
Proof. reflexivity. Qed.

Lemma Sample_filter_reachable : reachable Sample.filter.
Proof. exact (reachable_new _ _ _ _ Sample_filter_new). Qed.

Lemma Sample_filter_disabled_reachable : reachable Sample.filter_disabled.
Proof.
  apply (reachable_new Sample.readFile Sample.unmarshal_disabled "contracts.json").
  reflexivity.
Qed.

Lemma ShouldIndexLog_membership_witness :
  (reachable Sample.filter_disabled
   ∧ enabled Sample.filter_disabled = false
   ∧ (Sample.stranger ∉ dom (nftContracts Sample.filter_disabled))
   ∧ ShouldIndexLog Sample.stranger Sample.filter_disabled = true)
  ∧ (reachable Sample.filter
     ∧ enabled Sample.filter = true
     ∧ (ShouldIndexLog Sample.contractX Sample.filter = true ↔
        (Sample.contractX = factoryAddress Sample.filter)
        ∨ (Sample.contractX = paymentAddress Sample.filter)
        ∨ (Sample.contractX ∈ dom (nftContracts Sample.filter)))).
Proof.
  split.
  - split; [exact Sample_filter_disabled_reachable|]. split; [reflexivity|].
    split; [apply not_elem_of_dom; reflexivity|].
    destruct (ShouldIndexLog_membership Sample.filter_disabled Sample.stranger
                Sample_filter_disabled_reachable) as [Hoff _].
    apply Hoff. reflexivity.
  - split; [exact Sample_filter_reachable|]. split; [reflexivity|].
    destruct (ShouldIndexLog_membership Sample.filter Sample.contractX
                Sample_filter_reachable) as [_ Hon].
    apply Hon. reflexivity.
Defined.

Lemma insertion_idempotent_witness :
  reachable Sample.filter
  ∧ Sample.contractX ≠ Sample.contractY
  ∧ (Sample.contractX ∉ dom (nftContracts Sample.filter))
  ∧ (Sample.contractY ∉ dom (nftContracts Sample.filter))
  ∧ size (nftContracts
            (state_of (AddNFTContracts
                         [Sample.contractX; Sample.contractY; Sample.contractX]
                         Sample.filter)))
    = (size (nftContracts Sample.filter) + 2)%nat.
Proof.
  assert (Sample.contractX ≠ Sample.contractY) as Hne by (vm_compute; congruence).
  assert (Sample.contractX ∉ dom (nftContracts Sample.filter)) as HX
    by (apply not_elem_of_dom; reflexivity).
  assert (Sample.contractY ∉ dom (nftContracts Sample.filter)) as HY
    by (apply not_elem_of_dom; reflexivity).
  repeat (split; [assumption || exact Sample_filter_reachable|]).
  destruct insertion_idempotent as (_ & _ & Hbatch).
  apply (Hbatch Sample.filter Sample.contractX Sample.contractY
           Sample_filter_reachable Hne HX HY).
Defined.

(* ===================================================================== *)
(** ** Claims about the discovery parser *)
(* ===================================================================== *)

(** C7: a log whose emitting address is not the listener's factory address
    is ignored by [ProcessLog] outright: the registry is left as it was
    and nothing is printed, whatever the topics are - also when the first
    topic is the discovery signature and all three topics are there.  The
    emitter is checked first: the outcome is the same for every list of
    topics. *)
Theorem ProcessLog_ignores_other_emitters el log cf :
  log_Address log ≠ el_factoryAddress el →
  ProcessLog el log cf = (tt, cf, [])
  ∧ (∀ a, ShouldIndexLog a (state_of (ProcessLog el log cf)) = ShouldIndexLog a cf)
  ∧ (∀ topics,
       ProcessLog el {| log_Address := log_Address log; log_Topics := topics;
                        log_Data := log_Data log;
                        log_BlockNumber := log_BlockNumber log;
                        log_TxHash := log_TxHash log;
                        log_Index := log_Index log |} cf = (tt, cf, [])).
Proof.
  intros Ha. split; [|split].
  - by apply ProcessLog_other_emitter.
  - intros a. by rewrite ProcessLog_other_emitter.
  - intros topics. by apply ProcessLog_other_emitter.
Qed.

Lemma ProcessLog_ignores_other_emitters_witness :
  log_Address Sample.foreign ≠ el_factoryAddress Sample.listener
  ∧ signature_matches Sample.foreign = true
  ∧ ProcessLog Sample.listener Sample.foreign Sample.filter
    = (tt, Sample.filter, []).
Proof.
  assert (log_Address Sample.foreign ≠ el_factoryAddress Sample.listener) as Ha
    by (vm_compute; congruence).
  split; [exact Ha|]. split; [reflexivity|].
  apply (ProcessLog_ignores_other_emitters
           Sample.listener Sample.foreign Sample.filter Ha).
Defined.

(** A 32-byte topic is cropped to its last 20 bytes. *)
Lemma BytesToAddress_length b : length (BytesToAddress b) = AddressLength.
Proof.
  unfold BytesToAddress, AddressLength.
  destruct (20 <? length b)%nat eqn:E.
  - apply Nat.ltb_lt in E. rewrite length_app, repeat_length, length_drop. lia.
  - apply Nat.ltb_ge in E. rewrite length_app, repeat_length. lia.
Qed.

Lemma BytesToAddress_Hash (h : Hash) :
  length h = HashLength → BytesToAddress (Hash_Bytes h) = drop 12 h.
Proof.
  unfold BytesToAddress, Hash_Bytes, HashLength, AddressLength. intros Hl.
  rewrite Hl. simpl. by rewrite length_drop, Hl.
Qed.

Lemma signature_matches_topic0 log :
  signature_matches log = true → topic log 0 = NFTContractCreatedSignature.
Proof.
  rewrite signature_matches_topic, andb_true_iff, bool_decide_eq_true.
  by intros [_ ?].
Qed.

Lemma ParseNFTContractCreatedEvent_ok log :
  (3 ≤ length (log_Topics log))%nat →
  signature_matches log = true →
  ParseNFTContractCreatedEvent log =
  Ok {| CollectionID := None;
        ContractAddress := BytesToAddress (Hash_Bytes (topic log 1));
        Creator := BytesToAddress (Hash_Bytes (topic log 2));
        Name := EmptyString; Symbol := EmptyString; BaseURI := EmptyString;
        BlockNumber := log_BlockNumber log;
        TxHash := log_TxHash log;
        LogIndex := log_Index log |}.
Proof.
  intros Hn Hs%signature_matches_topic0. unfold ParseNFTContractCreatedEvent.
  destruct (length (log_Topics log) <? 3)%nat eqn:E;
    [apply Nat.ltb_lt in E; lia|].
  by rewrite bool_decide_eq_false_2 by (intros ?; contradiction).
Qed.

(** C10: [ParseNFTContractCreatedEvent] does not look at the emitting
    address.  For every log with at least three topics whose first topic
    is the discovery signature it returns an event whose contract address
    is read from the second topic and whose creator from the third (the
    last 20 bytes of a 32-byte topic), and it returns the same event when
    the emitting address is replaced by any other.  The restriction to
    logs of the factory is made by [ProcessLog] alone: on such a log it
    does nothing for another emitter, and inserts the contract address for
    the factory. *)
Theorem ParseNFTContractCreatedEvent_any_emitter log :
  (3 ≤ length (log_Topics log))%nat →
  signature_matches log = true →
  (∃ event,
     ParseNFTContractCreatedEvent log = Ok event
     ∧ ContractAddress event = BytesToAddress (Hash_Bytes (topic log 1))
     ∧ Creator event = BytesToAddress (Hash_Bytes (topic log 2))
     ∧ (length (topic log 1) = HashLength →
        ContractAddress event = drop 12 (topic log 1))
     ∧ (length (topic log 2) = HashLength →
        Creator event = drop 12 (topic log 2))
     ∧ (∀ a, ParseNFTContractCreatedEvent (with_Address a log) = Ok event))
  ∧ (∀ el cf, log_Address log ≠ el_factoryAddress el →
              ProcessLog el log cf = (tt, cf, []))
  ∧ (∀ el cf, log_Address log = el_factoryAddress el →
              state_of (ProcessLog el log cf)
              = state_of (AddNFTContract
                            (BytesToAddress (Hash_Bytes (topic log 1))) cf)).
Proof.
  intros Hn Hs.
  assert (Hparse : ∀ a, ParseNFTContractCreatedEvent (with_Address a log) =
                        ParseNFTContractCreatedEvent log).
  { intros a. by rewrite !ParseNFTContractCreatedEvent_ok. }
  split; [|split].
  - eexists. split; [|repeat split].
    + by apply ParseNFTContractCreatedEvent_ok.
    + done.
    + done.
    + intros Hl. by apply BytesToAddress_Hash.
    + intros Hl. by apply BytesToAddress_Hash.
    + intros a. rewrite Hparse. by apply ParseNFTContractCreatedEvent_ok.
  - intros el cf Ha. by apply ProcessLog_other_emitter.
  - intros el cf Ha. rewrite ProcessLog_state.
    replace (applicable el log) with true; [done|].
    symmetry. by apply applicable_spec.
Qed.

Lemma ParseNFTContractCreatedEvent_any_emitter_witness :
  (3 ≤ length (log_Topics Sample.foreign))%nat
  ∧ signature_matches Sample.foreign = true
  ∧ log_Address Sample.foreign ≠ el_factoryAddress Sample.listener
  ∧ (∃ event,
       ParseNFTContractCreatedEvent Sample.foreign = Ok event
       ∧ ContractAddress event = Sample.contractX
       ∧ Creator event = Sample.creator)
  ∧ ProcessLog Sample.listener Sample.foreign Sample.filter
    = (tt, Sample.filter, []).
Proof.
  assert (3 ≤ length (log_Topics Sample.foreign))%nat as Hn by (simpl; lia).
  assert (signature_matches Sample.foreign = true) as Hs by reflexivity.
  assert (log_Address Sample.foreign ≠ el_factoryAddress Sample.listener) as Ha
    by (vm_compute; congruence).
  destruct (ParseNFTContractCreatedEvent_any_emitter Sample.foreign Hn Hs)
    as ((event & Hev & HC & HR & _) & Hother & _).
  repeat (split; [assumption|]). split.
  - exists event. split; [exact Hev|]. split.
    + rewrite HC. reflexivity.
    + rewrite HR. reflexivity.
  - apply Hother. exact Ha.
Defined.

(** On a batch in which every log carrying the signature is a well-formed
    event of the factory, the count is the number of applicable logs. *)
Lemma ProcessLogs_result_clean_batch el logs cf :
  Forall (fun log => signature_matches log = true → applicable el log = true)
         logs →
  result_of (ProcessLogs el logs cf) = count_logs (applicable el) logs.
Proof.
  intros Hclean. unfold ProcessLogs. rewrite ProcessLogs_loop_result.
  rewrite Z.add_0_l. induction Hclean as [|log logs Hlog _ IH]; [done|].
  rewrite !count_logs_cons, IH. f_equal.
  destruct (signature_matches log) eqn:Hs.
  - by rewrite Hlog.
  - destruct (applicable el log) eqn:Ha; [|done].
    apply applicable_spec in Ha as (_ & Hs' & _). congruence.
Qed.

(** C1, at the inputs where the code departs from it: [ProcessLogs] adds
    one to [discoveredCount] for every log whose first topic is the
    discovery signature, whoever emitted it and however many topics it
    has.  A batch of one such log from another emitter, or of one such
    log with a single topic, is counted as one discovery although it
    fails the applicability test and leaves the registry unchanged, and
    [BackfillNFTContracts] then prints "discovered 1 NFT contracts" and
    returns the nil error. *)
Theorem ProcessLogs_counts_unapplicable_logs :
  (∀ el logs cf,
     result_of (ProcessLogs el logs cf) = count_logs signature_matches logs)
  ∧ applicable Sample.listener Sample.foreign = false
  ∧ count_logs (applicable Sample.listener) [Sample.foreign] = 0%Z
  ∧ ProcessLogs Sample.listener [Sample.foreign] Sample.filter
    = (1%Z, Sample.filter, [])
  ∧ applicable Sample.listener Sample.short = false
  ∧ ProcessLogs Sample.listener [Sample.short] Sample.filter
    = (1%Z, Sample.filter, [Stdout invalid_event_line])
  ∧ BackfillNFTContracts Sample.listener [Sample.foreign] Sample.filter
    = (None, Sample.filter,
       [Stdout ("[EventListener] Starting backfill of NFT contracts from 1 logs"
                +:+ newline);
        Stdout ("[EventListener] Backfill complete: discovered 1 NFT contracts"
                +:+ newline)]).
Proof.
  split.
  - intros el logs cf. unfold ProcessLogs. rewrite ProcessLogs_loop_result. lia.
  - repeat split; vm_compute; reflexivity.
Qed.

(** C2, where the code departs from it.  A log of the factory whose first
    topic is the discovery signature but which has fewer than three
    topics inserts nothing and is reported with the line "Invalid
    NFTContractCreated event: not enough topics", as the claim asks; but
    [ProcessLogs] adds one to [discoveredCount] for it, so that the batch
    of that one log returns 1 and [BackfillNFTContracts] prints
    "discovered 1 NFT contracts": the malformed log is counted as a
    discovered event.  The standalone parser
    [ParseNFTContractCreatedEvent] returns an error for the same log. *)
Theorem malformed_factory_log_counted_as_discovery el log cf :
  log_Address log = el_factoryAddress el →
  signature_matches log = true →
  (length (log_Topics log) < 3)%nat →
  applicable el log = false
  ∧ ProcessLog el log cf = (tt, cf, [Stdout invalid_event_line])
  ∧ ProcessLogs el [log] cf = (1%Z, cf, [Stdout invalid_event_line])
  ∧ count_logs (applicable el) [log] = 0%Z
  ∧ BackfillNFTContracts el [log] cf
    = (None, cf,
       [Stdout ("[EventListener] Starting backfill of NFT contracts from 1 logs"
                +:+ newline);
        Stdout invalid_event_line;
        Stdout ("[EventListener] Backfill complete: discovered 1 NFT contracts"
                +:+ newline)])
  ∧ ¬ rejected_as_error el cf log
  ∧ ParseNFTContractCreatedEvent log
    = Err "invalid NFTContractCreated event: not enough topics".
Proof.
  intros Ha Hs Hn.
  assert (applicable el log = false) as Hna.
  { destruct (applicable el log) eqn:E; [|done].
    apply applicable_spec in E. lia. }
  assert (ProcessLog el log cf = (tt, cf, [Stdout invalid_event_line])) as Hlog
    by by apply ProcessLog_not_enough_topics.
  assert (ProcessLogs el [log] cf = (1%Z, cf, [Stdout invalid_event_line]))
    as Hlogs.
  { unfold ProcessLogs. rewrite ProcessLogs_loop_cons, Hs.
    unfold bind. by rewrite Hlog. }
  split; [exact Hna|]. split; [exact Hlog|]. split; [exact Hlogs|].
  split; [by rewrite count_logs_cons, Hna|]. split; [|split].
  - unfold BackfillNFTContracts, bind, Printf. by rewrite Hlogs.
  - intros (_ & _ & Hcount). rewrite Hlogs in Hcount. discriminate Hcount.
  - unfold ParseNFTContractCreatedEvent.
    apply Nat.ltb_lt in Hn. by rewrite Hn.
Qed.

Lemma malformed_factory_log_counted_as_discovery_witness :
  log_Address Sample.short = el_factoryAddress Sample.listener
  ∧ signature_matches Sample.short = true
  ∧ (length (log_Topics Sample.short) < 3)%nat
  ∧ ProcessLog Sample.listener Sample.short Sample.filter
    = (tt, Sample.filter, [Stdout invalid_event_line])
  ∧ result_of (ProcessLogs Sample.listener [Sample.short] Sample.filter) = 1%Z
  ∧ ¬ rejected_as_error Sample.listener Sample.filter Sample.short.
Proof.
  assert (log_Address Sample.short = el_factoryAddress Sample.listener) as Ha
    by reflexivity.
  assert (signature_matches Sample.short = true) as Hs by reflexivity.
  assert (length (log_Topics Sample.short) < 3)%nat as Hn by (simpl; lia).
  destruct (malformed_factory_log_counted_as_discovery
              Sample.listener Sample.short Sample.filter Ha Hs Hn)
    as (_ & Hlog & Hlogs & _ & _ & Hrej & _).
  repeat (split; [assumption|]).
  split; [by rewrite Hlogs|exact Hrej].
Defined.

(* ===================================================================== *)
(** ** Claims about construction *)
(* ===================================================================== *)

(** C3, amended: [NewContractFilter] returns an error, and no filter, when
    the configuration file cannot be read and when its content cannot be
    decoded.  Once the file is decoded it always returns a filter: the
    factory and payment addresses are what [HexToAddress] makes of the
    configured strings, without validation, so that a missing address
    string yields the zero address. *)
Theorem NewContractFilter_failures os_ReadFile json_Unmarshal configPath :
  (∀ e, os_ReadFile configPath = Err e →
        NewContractFilter os_ReadFile json_Unmarshal configPath
        = Err ("failed to read config file: " +:+ e))
  ∧ (∀ data e,
       os_ReadFile configPath = Ok data → json_Unmarshal data = Err e →
       NewContractFilter os_ReadFile json_Unmarshal configPath
       = Err ("failed to parse config: " +:+ e))
  ∧ (∀ data config,
       os_ReadFile configPath = Ok data → json_Unmarshal data = Ok config →
       ∃ cf, NewContractFilter os_ReadFile json_Unmarshal configPath = Ok cf
             ∧ factoryAddress cf = HexToAddress (ci_Address (cfg_Factory config))
             ∧ paymentAddress cf = HexToAddress (ci_Address (cfg_Payment config))
             ∧ (ci_Address (cfg_Factory config) = EmptyString →
                factoryAddress cf = zero_address)
             ∧ (ci_Address (cfg_Payment config) = EmptyString →
                paymentAddress cf = zero_address)).
Proof.
  unfold NewContractFilter. split; [|split].
  - by intros e ->.
  - by intros data e -> ->.
  - intros data config -> ->. eexists. split; [reflexivity|]. simpl.
    split; [done|]. split; [done|]. by split; intros ->.
Qed.

(** C3 fails for a configuration without factory address and with a
    malformed payment address: construction succeeds, with the zero
    address in both fixed roles. *)
Lemma NewContractFilter_accepts_missing_addresses :
  IsHexAddress (ci_Address (cfg_Factory BrokenConfig.config)) = false
  ∧ IsHexAddress (ci_Address (cfg_Payment BrokenConfig.config)) = false
  ∧ NewContractFilter Sample.readFile BrokenConfig.unmarshal "contracts.json"
    = Ok {| factoryAddress := zero_address;
            paymentAddress := zero_address;
            nftContracts := ∅;
            enabled := true;
            autoDiscovery := true;
            mongodbSyncEnabled := false;
            mongodbSyncInterval := 0 |}.
Proof. repeat split. Qed.

Lemma NewContractFilter_failures_witness :
  (Sample.readFile "missing.json"
   = Err "open missing.json: no such file or directory"
   ∧ NewContractFilter Sample.readFile Sample.unmarshal "missing.json"
     = Err "failed to read config file: open missing.json: no such file or directory")
  ∧ (BrokenConfig.unmarshal_error (list_byte_of_string "{ ... }")
     = Err "unexpected end of JSON input"
     ∧ NewContractFilter Sample.readFile BrokenConfig.unmarshal_error
         "contracts.json"
       = Err "failed to parse config: unexpected end of JSON input")
  ∧ (BrokenConfig.unmarshal (list_byte_of_string "{ ... }")
     = Ok BrokenConfig.config
     ∧ ci_Address (cfg_Factory BrokenConfig.config) = EmptyString
     ∧ ∃ cf, NewContractFilter Sample.readFile BrokenConfig.unmarshal
               "contracts.json" = Ok cf
             ∧ factoryAddress cf = zero_address).
Proof.
  split; [|split].
  - split; [reflexivity|].
    destruct (NewContractFilter_failures
                Sample.readFile Sample.unmarshal "missing.json") as (Hread & _).
    apply (Hread "open missing.json: no such file or directory"). reflexivity.
  - split; [reflexivity|].
    destruct (NewContractFilter_failures
                Sample.readFile BrokenConfig.unmarshal_error "contracts.json")
      as (_ & Hparse & _).
    apply (Hparse (list_byte_of_string "{ ... }")); reflexivity.
  - split; [reflexivity|]. split; [reflexivity|].
    destruct (NewContractFilter_failures
                Sample.readFile BrokenConfig.unmarshal "contracts.json")
      as (_ & _ & Hok).
    destruct (Hok (list_byte_of_string "{ ... }") BrokenConfig.config
                eq_refl eq_refl) as (cf & Hcf & _ & _ & Hzero & _).
    exists cf. split; [exact Hcf|]. apply Hzero. reflexivity.
Defined.

(* ===================================================================== *)
(** ** Hexadecimal rendering and parsing of addresses *)
(* ===================================================================== *)

Lemma reverseHexTable_hi v :
  reverseHexTable (hextable (hi_nibble v)) = Some (hi_nibble v).
Proof. by destruct v. Qed.

Lemma reverseHexTable_lo v :
  reverseHexTable (hextable (lo_nibble v)) = Some (lo_nibble v).
Proof. by destruct v. Qed.

Lemma byte_of_nibbles v :
  byte_of_N (N.lor (N.shiftl (hi_nibble v) 4) (lo_nibble v)) = v.
Proof. by destruct v. Qed.

(** Decoding what [hex.Encode] wrote gives the bytes back. *)
Lemma hex_DecodeString_Encode l : hex_DecodeString (hex_Encode l) = (l, None).
Proof.
  induction l as [|v l IH]; [done|].
  cbn [hex_Encode hex_DecodeString].
  fold (hi_nibble v). fold (lo_nibble v).
  by rewrite reverseHexTable_hi, reverseHexTable_lo, IH, byte_of_nibbles.
Qed.

#[global] Instance hex_Encode_inj : Inj (=) (=) hex_Encode.
Proof.
  intros l1 l2 H. apply (f_equal hex_DecodeString) in H.
  rewrite !hex_DecodeString_Encode in H. congruence.
Qed.

Lemma hex_Encode_survives l : all_chars survives_checksum (hex_Encode l) = true.
Proof.
  induction l as [|v l IH]; [done|].
  cbn [hex_Encode all_chars]. rewrite IH. by destruct v.
Qed.

Lemma ToLower_checksumLoop hash i buf :
  all_chars survives_checksum buf = true →
  ToLower (checksumLoop hash i buf) = buf.
Proof.
  revert i. induction buf as [|c buf IH]; intros i; [done|].
  cbn [all_chars checksumLoop ToLower].
  rewrite andb_true_iff. unfold survives_checksum at 1.
  rewrite andb_true_iff, !bool_decide_eq_true.
  intros [[Hc Hup] Hrest]. rewrite IH by done. f_equal.
  destruct (57 <? char_code c) eqn:E; simpl; [|done].
  destruct Hup as [Hup|?]; [|done].
  match goal with |- context [7 <? ?x] => destruct (7 <? x) end; done.
Qed.

(** [strings.ToLower(addr.Hex())] is "0x" and the forty lowercase digits:
    lowering undoes the checksum casing. *)
Lemma ToLower_0x t : ToLower ("0x" +:+ t) = "0x" +:+ ToLower t.
Proof. done. Qed.

Lemma string_drop_0x t : string_drop 2 ("0x" +:+ t) = t.
Proof. done. Qed.

Lemma ToLower_Address_Hex a : ToLower (Address_Hex a) = "0x" +:+ hex_Encode a.
Proof.
  unfold Address_Hex, checksumHex, Address_hex.
  rewrite string_drop_0x, ToLower_0x.
  by rewrite ToLower_checksumLoop by apply hex_Encode_survives.
Qed.

#[global] Instance ToLower_Address_Hex_inj :
  Inj (=) (=) (fun a : Address => ToLower (Address_Hex a)).
Proof.
  intros a1 a2. rewrite !ToLower_Address_Hex.
  intros [= H]. by apply hex_Encode_inj.
Qed.

(** The rendering parses back to the address. *)
Lemma HexToAddress_ToLower_Hex (a : Address) :
  length a = AddressLength → HexToAddress (ToLower (Address_Hex a)) = a.
Proof.
  intros Hl. rewrite ToLower_Address_Hex. unfold HexToAddress, FromHex.
  change (has0xPrefix ("0x" +:+ hex_Encode a)) with true.
  cbv iota. rewrite string_drop_0x.
  assert (Nat.odd (String.length (hex_Encode a)) = false) as ->.
  { clear Hl. induction a as [|v a IH]; [done|].
    cbn [hex_Encode String.length]. by rewrite Nat.odd_succ, Nat.even_succ. }
  unfold Hex2Bytes. rewrite hex_DecodeString_Encode. simpl.
  unfold BytesToAddress. rewrite Hl. simpl. by rewrite Hl.
Qed.

(** *** Case of the input *)

Lemma reverseHexTable_lower c : reverseHexTable (lower_char c) = reverseHexTable c.
Proof. by destruct c as [[] [] [] [] [] [] [] []]. Qed.

Lemma lower_char_zero c :
  bool_decide (lower_char c = "0"%char) = bool_decide (c = "0"%char).
Proof. by destruct c as [[] [] [] [] [] [] [] []]. Qed.

Lemma lower_char_x c :
  bool_decide (lower_char c = "x"%char) || bool_decide (lower_char c = "X"%char)
  = bool_decide (c = "x"%char) || bool_decide (c = "X"%char).
Proof. by destruct c as [[] [] [] [] [] [] [] []]. Qed.

Lemma string_pair_ind (P : string → Prop) :
  P EmptyString →
  (∀ c, P (String c EmptyString)) →
  (∀ c1 c2 s, P s → P (String c1 (String c2 s))) →
  ∀ s, P s.
Proof.
  intros H0 H1 H2 s. cut (P s ∧ ∀ c, P (String c s)); [tauto|].
  induction s as [|c s [IH1 IH2]]; [auto|]. split; [apply IH2|].
  intros c'. by apply H2.
Qed.

Lemma Hex2Bytes_ToLower s : Hex2Bytes (ToLower s) = Hex2Bytes s.
Proof.
  unfold Hex2Bytes. induction s as [|c|c1 c2 s IH] using string_pair_ind.
  - done.
  - cbn [ToLower hex_DecodeString]. rewrite reverseHexTable_lower.
    by destruct (reverseHexTable c).
  - cbn [ToLower hex_DecodeString]. rewrite !reverseHexTable_lower.
    destruct (reverseHexTable c1), (reverseHexTable c2); try done.
    destruct (hex_DecodeString (ToLower s)), (hex_DecodeString s).
    simpl in *. by rewrite IH.
Qed.

Lemma length_ToLower s : String.length (ToLower s) = String.length s.
Proof. induction s as [|c s IH]; [done|]. simpl. by rewrite IH. Qed.

Lemma string_drop_ToLower n s : string_drop n (ToLower s) = ToLower (string_drop n s).
Proof.
  revert s. induction n as [|n IH]; intros [|c s]; try done. simpl. apply IH.
Qed.

Lemma has0xPrefix_ToLower s : has0xPrefix (ToLower s) = has0xPrefix s.
Proof.
  destruct s as [|c0 [|c1 s]]; try done.
  unfold has0xPrefix. cbn [ToLower]. by rewrite lower_char_zero, lower_char_x.
Qed.

Lemma FromHex_ToLower s : FromHex (ToLower s) = FromHex s.
Proof.
  unfold FromHex. rewrite has0xPrefix_ToLower.
  destruct (has0xPrefix s).
  - rewrite string_drop_ToLower, length_ToLower.
    destruct (Nat.odd (String.length (string_drop 2 s)));
      [|apply Hex2Bytes_ToLower].
    by rewrite <- (Hex2Bytes_ToLower (String "0" (string_drop 2 s))).
  - rewrite length_ToLower.
    destruct (Nat.odd (String.length s)); [|apply Hex2Bytes_ToLower].
    by rewrite <- (Hex2Bytes_ToLower (String "0" s)).
Qed.

(** [HexToAddress] does not see the case of its input. *)
Lemma HexToAddress_case s1 s2 :
  same_up_to_case s1 s2 → HexToAddress s1 = HexToAddress s2.
Proof.
  unfold same_up_to_case, HexToAddress. intros H.
  by rewrite <- (FromHex_ToLower s1), <- (FromHex_ToLower s2), H.
Qed.

(* ===================================================================== *)
(** ** Claims about the snapshot *)
(* ===================================================================== *)

Lemma fold_left_append {A} (keys acc : list A) :
  fold_left (fun addresses addr => addresses ++ [addr]) keys acc = acc ++ keys.
Proof.
  revert acc. induction keys as [|k keys IH]; intros acc; simpl.
  - by rewrite app_nil_r.
  - rewrite IH. by rewrite <- app_assoc.
Qed.

Lemma GetWatchedAddresses_eq cf :
  GetWatchedAddresses cf
  = factoryAddress cf :: paymentAddress cf :: map_keys (nftContracts cf).
Proof. unfold GetWatchedAddresses. by rewrite fold_left_append. Qed.

Lemma GetWatchedAddresses_snapshot cf : snapshot cf (GetWatchedAddresses cf).
Proof. exists (map_keys (nftContracts cf)). by rewrite GetWatchedAddresses_eq. Qed.

Lemma elem_of_map_keys (m : gmap Address bool) a : a ∈ map_keys m ↔ a ∈ dom m.
Proof.
  unfold map_keys. rewrite elem_of_dom, list_elem_of_fmap. split.
  - intros [[k v] [-> Hkv]]. apply elem_of_map_to_list in Hkv. by eexists.
  - intros [v Hv]. exists (a, v). split; [done|]. by apply elem_of_map_to_list.
Qed.

(** C5 fails when a fixed address is also inserted as a dynamic member:
    after [AddNFTContract] of the factory address, the snapshot and the
    query list hold the factory address twice. *)
Lemma GetWatchedAddresses_repeats_fixed_address :
  GetWatchedAddresses Sample.filter_factory_added
  = [Sample.factory; Sample.payment; Sample.factory]
  ∧ ¬ NoDup (GetWatchedAddresses Sample.filter_factory_added)
  ∧ GetAddressFilter Sample.filter_factory_added
    = ["0x1111111111111111111111111111111111111111";
       "0x2222222222222222222222222222222222222222";
       "0x1111111111111111111111111111111111111111"]
  ∧ ¬ NoDup (GetAddressFilter Sample.filter_factory_added).
Proof.
  assert (GetWatchedAddresses Sample.filter_factory_added
          = [Sample.factory; Sample.payment; Sample.factory]) as Hw
    by (vm_compute; reflexivity).
  assert (GetAddressFilter Sample.filter_factory_added
          = ["0x1111111111111111111111111111111111111111";
             "0x2222222222222222222222222222222222222222";
             "0x1111111111111111111111111111111111111111"]) as Hf
    by (vm_compute; reflexivity).
  rewrite Hw, Hf. repeat split.
  - rewrite NoDup_cons. intros [Hin _]. apply Hin.
    rewrite !elem_of_cons. auto.
  - rewrite NoDup_cons. intros [Hin _]. apply Hin.
    rewrite !elem_of_cons. auto.
Qed.

(** C5, amended: the dynamic members are listed once each, in
    [GetWatchedAddresses] and, rendered in lowercase, in
    [GetAddressFilter]; the rendering never merges or splits entries, and
    addresses configured in different letter case are the same address, so
    that case differences create no second entry.  The fixed addresses are
    prepended as they are: the whole list is free of duplicates exactly
    when the factory and payment addresses differ and neither of them is
    a dynamic member.  This holds for every order in which the map's keys
    may be visited. *)
Theorem watched_addresses_duplicates cf :
  snapshot cf (GetWatchedAddresses cf)
  ∧ GetAddressFilter cf
    = map (fun a => ToLower (Address_Hex a)) (GetWatchedAddresses cf)
  ∧ (∀ l, snapshot cf l →
       NoDup (drop 2 l)
       ∧ (∀ a, a ∈ drop 2 l ↔ a ∈ dom (nftContracts cf))
       ∧ (NoDup l ↔
          factoryAddress cf ≠ paymentAddress cf
          ∧ (factoryAddress cf ∉ dom (nftContracts cf))
          ∧ (paymentAddress cf ∉ dom (nftContracts cf)))
       ∧ (NoDup (map (fun a => ToLower (Address_Hex a)) l) ↔ NoDup l))
  ∧ (∀ s1 s2, same_up_to_case s1 s2 → HexToAddress s1 = HexToAddress s2).
Proof.
  split; [apply GetWatchedAddresses_snapshot|]. split; [done|].
  split; [|apply HexToAddress_case].
  intros l (keys & Hperm & ->).
  assert (NoDup keys) as Hnd.
  { rewrite Hperm. apply NoDup_fst_map_to_list. }
  assert (∀ a, a ∈ keys ↔ a ∈ dom (nftContracts cf)) as Hin.
  { intros a. rewrite Hperm. apply elem_of_map_keys. }
  split; [exact Hnd|]. split; [exact Hin|]. split.
  - rewrite !NoDup_cons, not_elem_of_cons, <- !Hin. tauto.
  - apply (NoDup_fmap (fun a : Address => ToLower (Address_Hex a))).
Qed.

Lemma watched_addresses_duplicates_witness :
  snapshot Sample.filter [Sample.factory; Sample.payment]
  ∧ same_up_to_case "0xAAAAaaaaAAAAaaaaAAAAaaaaAAAAaaaaAAAAaaaa"
                    "0xaaaaaaaaaaaaaaaaaaaaaaaaaaaaaaaaaaaaaaaa"
  ∧ NoDup [Sample.factory; Sample.payment]
  ∧ HexToAddress "0xAAAAaaaaAAAAaaaaAAAAaaaaAAAAaaaaAAAAaaaa"
    = HexToAddress "0xaaaaaaaaaaaaaaaaaaaaaaaaaaaaaaaaaaaaaaaa".
Proof.
  assert (snapshot Sample.filter [Sample.factory; Sample.payment]) as Hs.
  { exists []. split; reflexivity. }
  assert (same_up_to_case "0xAAAAaaaaAAAAaaaaAAAAaaaaAAAAaaaaAAAAaaaa"
                          "0xaaaaaaaaaaaaaaaaaaaaaaaaaaaaaaaaaaaaaaaa") as Hc
    by reflexivity.
  destruct (watched_addresses_duplicates Sample.filter)
    as (_ & _ & Hsnap & Hcase).
  destruct (Hsnap _ Hs) as (_ & _ & Hnodup & _).
  split; [exact Hs|]. split; [exact Hc|]. split.
  - apply Hnodup. split; [vm_compute; congruence|].
    split; apply not_elem_of_dom; reflexivity.
  - apply Hcase. exact Hc.
Defined.

(* ===================================================================== *)
(** ** Claims about the filtered query adapter *)
(* ===================================================================== *)

(** C8: for every block range, [GetFilteredLogs] sends exactly one query
    over that range.  When filtering is enabled and the cached allow-list
    is not empty, the query carries the allow-list as its address
    constraint, and the node's logs (or its error, wrapped) are returned.
    When filtering is disabled or the allow-list is empty, the query
    carries no address constraint and the node's answer to it is returned
    as it is: the adapter does not answer with an empty result of its
    own.  The client is left unchanged. *)
Theorem GetFilteredLogs_query d fromBlock toBlock :
  let constrained :=
    {| FromBlock := fromBlock; ToBlock := toBlock; Addresses := addressFilter d |} in
  let unconstrained :=
    {| FromBlock := fromBlock; ToBlock := toBlock; Addresses := [] |} in
  let run := GetFilteredLogs fromBlock toBlock d in
  state_of run = d
  ∧ (filterEnabled d = true → addressFilter d ≠ [] →
     queries_of (trace_of run) = [constrained]
     ∧ result_of run
       = match client d constrained with
         | Ok logs => Ok logs
         | Err err => Err ("failed to fetch filtered logs: " +:+ err)
         end)
  ∧ (filterEnabled d = false ∨ addressFilter d = [] →
     queries_of (trace_of run) = [unconstrained]
     ∧ run = (client d unconstrained, d, [FilterLogsCall unconstrained])).
Proof.
  intros constrained unconstrained run. subst run.
  unfold GetFilteredLogs, bind, get, FilterLogs. cbn beta iota zeta.
  destruct (filterEnabled d) eqn:Hen; destruct (addressFilter d) as [|a l] eqn:Hl;
    cbn [negb orb length Nat.eqb].
  - split; [done|]. split; [done|]. by intros _.
  - fold constrained. split; [|split].
    + by destruct (client d constrained).
    + intros _ _. by destruct (client d constrained).
    + intros [?|?]; done.
  - split; [done|]. split; [done|]. by intros _.
  - split; [done|]. split; [done|]. by intros _.
Qed.

Lemma GetFilteredLogs_query_witness :
  (filterEnabled SampleNode.watching = true
   ∧ addressFilter SampleNode.watching ≠ []
   ∧ queries_of (trace_of (GetFilteredLogs (Some 1%Z) (Some 9%Z)
                             SampleNode.watching))
     = [ {| FromBlock := Some 1%Z; ToBlock := Some 9%Z;
            Addresses := [Sample.factory; Sample.payment] |} ])
  ∧ (addressFilter SampleNode.emptied = []
     ∧ GetFilteredLogs (Some 1%Z) (Some 9%Z) SampleNode.emptied
       = (Ok SampleNode.logs, SampleNode.emptied,
          [FilterLogsCall {| FromBlock := Some 1%Z; ToBlock := Some 9%Z;
                             Addresses := [] |}])).
Proof.
  split.
  - destruct (GetFilteredLogs_query SampleNode.watching (Some 1%Z) (Some 9%Z))
      as (_ & Hon & _).
    assert (filterEnabled SampleNode.watching = true) as Hen by reflexivity.
    assert (addressFilter SampleNode.watching ≠ []) as Hne by (simpl; congruence).
    split; [exact Hen|]. split; [exact Hne|].
    exact (proj1 (Hon Hen Hne)).
  - destruct (GetFilteredLogs_query SampleNode.emptied (Some 1%Z) (Some 9%Z))
      as (_ & _ & Hoff).
    split; [reflexivity|].
    exact (proj2 (Hoff (or_intror eq_refl))).
Defined.

(** C9: [CalculateFilterEfficiency] depends on the two counters only; it
    is 0 when [TotalLogsReceived] is 0, and otherwise the binary64 value
    of [(1.0 - float64(LogsAfterFilter) / float64(TotalLogsReceived)) * 100];
    for 1000 logs received and 100 retained it is exactly 90. *)
Theorem CalculateFilterEfficiency_value stats :
  (∀ stats',
     TotalLogsReceived stats' = TotalLogsReceived stats →
     LogsAfterFilter stats' = LogsAfterFilter stats →
     CalculateFilterEfficiency stats' = CalculateFilterEfficiency stats)
  ∧ (TotalLogsReceived stats = 0%Z → CalculateFilterEfficiency stats = 0%float)
  ∧ (TotalLogsReceived stats ≠ 0%Z →
     CalculateFilterEfficiency stats
     = ((1 - float64_of_int64 (LogsAfterFilter stats)
             / float64_of_int64 (TotalLogsReceived stats)) * 100)%float)
  ∧ (TotalLogsReceived stats = 1000%Z → LogsAfterFilter stats = 100%Z →
     CalculateFilterEfficiency stats = 90%float).
Proof.
  unfold CalculateFilterEfficiency. repeat split.
  - by intros stats' -> ->.
  - by intros ->.
  - intros Hne. by rewrite (proj2 (Z.eqb_neq _ _) Hne).
  - intros -> ->. vm_compute. reflexivity.
Qed.

Lemma CalculateFilterEfficiency_value_witness :
  TotalLogsReceived SampleNode.stats = 1000%Z
  ∧ LogsAfterFilter SampleNode.stats = 100%Z
  ∧ CalculateFilterEfficiency SampleNode.stats = 90%float
  ∧ TotalLogsReceived SampleNode.stats ≠ 0%Z
  ∧ CalculateFilterEfficiency SampleNode.stats
    = ((1 - float64_of_int64 100 / float64_of_int64 1000) * 100)%float
  ∧ TotalLogsReceived SampleNode.idle_stats = 0%Z
  ∧ CalculateFilterEfficiency SampleNode.idle_stats = 0%float.
Proof.
  split; [reflexivity|]. split; [reflexivity|].
  split; [|split; [simpl; lia|split; [|split; [reflexivity|]]]].
  - destruct (CalculateFilterEfficiency_value SampleNode.stats)
      as (_ & _ & _ & H).
    apply H; reflexivity.
  - destruct (CalculateFilterEfficiency_value SampleNode.stats)
      as (_ & _ & H & _).
    apply H. simpl. lia.
  - destruct (CalculateFilterEfficiency_value SampleNode.idle_stats)
      as (_ & H & _).
    apply H. reflexivity.
Defined.

(* ===================================================================== *)
(** ** Further properties of the registry *)
(* ===================================================================== *)

Lemma extends_by_trans l1 l2 cf1 cf2 cf3 :
  extends_by l1 cf1 cf2 → extends_by l2 cf2 cf3 → extends_by (l1 ++ l2) cf1 cf3.
Proof. unfold extends_by. intros -> ->. simpl. by rewrite foldl_app. Qed.

Lemma rtc_step_extends cf cf' : rtc step cf cf' → ∃ l, extends_by l cf cf'.
Proof.
  induction 1 as [cf | cf cf1 cf2 Hstep _ [l2 H2]].
  - exists []. unfold extends_by. simpl. by rewrite set_nftContracts_id.
  - destruct (step_extends _ _ Hstep) as [l1 H1].
    exists (l1 ++ l2). by eapply extends_by_trans.
Qed.

Lemma ShouldIndexLog_fixed cf :
  ShouldIndexLog (factoryAddress cf) cf = true
  ∧ ShouldIndexLog (paymentAddress cf) cf = true.
Proof.
  unfold ShouldIndexLog. destruct (enabled cf); simpl; [|done].
  rewrite (bool_decide_eq_true_2 (factoryAddress cf = _)) by done.
  split; [done|]. case_bool_decide; [done|].
  by rewrite bool_decide_eq_true_2.
Qed.

(** X1: no sequence of writes (insertions, synchronisations, processed
    logs, backfills) touches the fixed roles or the switches of the
    registry, and the factory and payment addresses are indexed in every
    state, with filtering on or off and before anything is inserted. *)
Theorem fixed_roles_invariant cf cf' :
  rtc step cf cf' →
  factoryAddress cf' = factoryAddress cf
  ∧ paymentAddress cf' = paymentAddress cf
  ∧ enabled cf' = enabled cf
  ∧ autoDiscovery cf' = autoDiscovery cf
  ∧ mongodbSyncEnabled cf' = mongodbSyncEnabled cf
  ∧ mongodbSyncInterval cf' = mongodbSyncInterval cf
  ∧ ShouldIndexLog (factoryAddress cf) cf' = true
  ∧ ShouldIndexLog (paymentAddress cf) cf' = true.
Proof.
  intros [l ->]%rtc_step_extends. repeat (split; [done|]).
  apply (ShouldIndexLog_fixed (set_nftContracts _ cf)).
Qed.

Lemma fixed_roles_invariant_witness :
  rtc step Sample.filter
      (state_of (ProcessLog Sample.listener Sample.created Sample.filter))
  ∧ ShouldIndexLog Sample.factory
      (state_of (ProcessLog Sample.listener Sample.created Sample.filter)) = true.
Proof.
  assert (rtc step Sample.filter
            (state_of (ProcessLog Sample.listener Sample.created Sample.filter)))
    as Hrun by (apply rtc_once, step_ProcessLog).
  split; [exact Hrun|].
  destruct (fixed_roles_invariant _ _ Hrun) as (_ & _ & _ & _ & _ & _ & H & _).
  exact H.
Defined.

Lemma add_member_dom_subseteq (a : Address) (m : gmap Address bool) :
  dom m ⊆ dom (add_member a m).
Proof.
  unfold add_member. destruct (map_index m a); [done|].
  rewrite dom_insert_L. set_solver.
Qed.

Lemma foldl_add_member_dom_subseteq (l : list Address) (m : gmap Address bool) :
  dom m ⊆ dom (foldl (fun m a => add_member a m) m l).
Proof.
  revert m. induction l as [|a l IH]; intros m; [done|]. simpl.
  etrans; [apply (add_member_dom_subseteq a)|apply IH].
Qed.

(** X2: the registry only grows.  Along every sequence of writes no
    dynamic member is lost, the dynamic-member count does not decrease,
    and an address that was indexed stays indexed. *)
Theorem registry_only_grows cf cf' :
  rtc step cf cf' →
  dom (nftContracts cf) ⊆ dom (nftContracts cf')
  ∧ (size (nftContracts cf) ≤ size (nftContracts cf'))%nat
  ∧ (∀ a, ShouldIndexLog a cf = true → ShouldIndexLog a cf' = true).
Proof.
  intros [l ->]%rtc_step_extends. simpl.
  pose proof (foldl_add_member_dom_subseteq l (nftContracts cf)) as Hsub.
  split; [exact Hsub|]. split.
  - rewrite <- !size_dom. by apply subseteq_size.
  - intros a. unfold ShouldIndexLog. simpl.
    destruct (enabled cf); simpl; [|done].
    repeat case_bool_decide; try done.
    destruct (map_index (nftContracts cf) a) eqn:E; [|done]. intros _.
    by rewrite foldl_add_member_index_mono.
Qed.

Lemma registry_only_grows_witness :
  rtc step Sample.filter Sample.filter_factory_added
  ∧ (size (nftContracts Sample.filter)
     ≤ size (nftContracts Sample.filter_factory_added))%nat.
Proof.
  assert (rtc step Sample.filter Sample.filter_factory_added) as Hrun
    by (apply rtc_once, step_AddNFTContract).
  split; [exact Hrun|].
  destruct (registry_only_grows _ _ Hrun) as (_ & H & _). exact H.
Defined.

(** X3: the snapshot lists what the membership test accepts.  In a
    reachable state with filtering enabled, an address is indexed exactly
    when it occurs in the list [GetWatchedAddresses] returns, whatever the
    order of the map's keys; the list has two entries more than there are
    dynamic members, which is the [total_watched] of [Stats]. *)
Theorem snapshot_lists_indexed cf l (a : Address) :
  reachable cf → snapshot cf l →
  (enabled cf = true → (ShouldIndexLog a cf = true ↔ a ∈ l))
  ∧ length l = (size (nftContracts cf) + 2)%nat
  ∧ stat_total_watched (Stats cf) = Z.of_nat (length l)
  ∧ stat_nft_contracts_count (Stats cf) = Z.of_nat (length (drop 2 l)).
Proof.
  intros Hm%reachable_all_true (keys & Hperm & ->).
  assert (length keys = size (nftContracts cf)) as Hlen.
  { rewrite Hperm. unfold map_keys. rewrite length_fmap.
    by rewrite length_map_to_list. }
  split; [|split; [|split]].
  - intros Hen. unfold ShouldIndexLog. rewrite Hen. simpl.
    rewrite !elem_of_cons, Hperm, elem_of_map_keys.
    repeat case_bool_decide; try (split; [auto | done]).
    destruct (map_index (nftContracts cf) a) eqn:E.
    + apply map_index_dom in E; [|done]. split; auto.
    + split; [done|]. intros [?|[?|Hd]]; try contradiction.
      apply map_index_dom in Hd; [congruence | done].
  - simpl. lia.
  - simpl. lia.
  - simpl. rewrite drop_0. lia.
Qed.

Lemma snapshot_lists_indexed_witness :
  reachable Sample.filter
  ∧ snapshot Sample.filter (GetWatchedAddresses Sample.filter)
  ∧ enabled Sample.filter = true
  ∧ (ShouldIndexLog Sample.payment Sample.filter = true
     ↔ Sample.payment ∈ GetWatchedAddresses Sample.filter).
Proof.
  split; [exact Sample_filter_reachable|].
  split; [apply GetWatchedAddresses_snapshot|]. split; [reflexivity|].
  destruct (snapshot_lists_indexed Sample.filter
              (GetWatchedAddresses Sample.filter) Sample.payment
              Sample_filter_reachable (GetWatchedAddresses_snapshot _))
    as (H & _).
  apply H. reflexivity.
Defined.

(** *** Order of insertions *)

Lemma map_index_insert_ne (m : gmap Address bool) (a b : Address) :
  a ≠ b → map_index (<[b := true]> m) a = map_index m a.
Proof. intros Hne. unfold map_index. by rewrite lookup_insert_ne. Qed.

Lemma add_member_comm (a b : Address) (m : gmap Address bool) :
  add_member a (add_member b m) = add_member b (add_member a m).
Proof.
  destruct (decide (a = b)) as [->|Hne]; [done|].
  unfold add_member.
  destruct (map_index m a) eqn:Ea, (map_index m b) eqn:Eb;
    rewrite ?map_index_insert_ne, ?Ea, ?Eb by done; try done.
  by apply insert_insert_ne.
Qed.

Lemma foldl_add_member_perm (l1 l2 : list Address) (m : gmap Address bool) :
  l1 ≡ₚ l2 →
  foldl (fun m a => add_member a m) m l1 = foldl (fun m a => add_member a m) m l2.
Proof.
  intros Hperm. revert m.
  induction Hperm as [|x l1 l2 _ IH|x y l|l1 l2 l3 _ IH1 _ IH2]; intros m; simpl.
  - done.
  - apply IH.
  - by rewrite add_member_comm.
  - by rewrite IH1.
Qed.

(** X4: [AddNFTContracts] leaves the registry as [AddNFTContract] does
    when called on the addresses of the batch one after the other, and
    the order of the batch does not matter: two batches that are
    permutations of each other leave the same registry. *)
Theorem AddNFTContracts_as_single_insertions cf (l : list Address) :
  state_of (AddNFTContracts l cf)
  = foldl (fun cf a => state_of (AddNFTContract a cf)) cf l
  ∧ (∀ l', l ≡ₚ l' →
       state_of (AddNFTContracts l' cf) = state_of (AddNFTContracts l cf)).
Proof.
  split.
  - rewrite AddNFTContracts_state. revert cf.
    induction l as [|a l IH]; intros cf; simpl.
    + by rewrite set_nftContracts_id.
    + rewrite <- IH, AddNFTContract_state. done.
  - intros l' Hperm. rewrite !AddNFTContracts_state.
    by rewrite (foldl_add_member_perm l l').
Qed.

(** X5: insertions from the synchronisation and from the discovery parser
    commute: a batch added by [AddNFTContracts] before or after a batch of
    logs is processed by [ProcessLogs] leaves the same registry. *)
Theorem sync_and_discovery_commute el logs (l : list Address) cf :
  state_of (ProcessLogs el logs (state_of (AddNFTContracts l cf)))
  = state_of (AddNFTContracts l (state_of (ProcessLogs el logs cf))).
Proof.
  unfold ProcessLogs.
  rewrite !ProcessLogs_loop_state, !AddNFTContracts_state. simpl.
  rewrite <- !foldl_app. unfold set_nftContracts. simpl. f_equal.
  apply foldl_add_member_perm, Permutation_app_comm.
Qed.

(** *** What the insertions print *)

Lemma AddNFTContracts_run l cf :
  AddNFTContracts l cf
  = (tt, state_of (AddNFTContracts l cf),
     if (0 <? (AddNFTContracts_loop l (nftContracts cf, 0%Z)).2)%Z
     then [Stdout ("[ContractFilter] Added "
                   +:+ pretty (AddNFTContracts_loop l (nftContracts cf, 0%Z)).2
                   +:+ " new NFT contracts (total: "
                   +:+ pretty (size (nftContracts (state_of (AddNFTContracts l cf))))
                   +:+ ")" +:+ newline)]
     else []).
Proof.
  unfold AddNFTContracts, bind, get, state_of. simpl.
  destruct (AddNFTContracts_loop l (nftContracts cf, 0%Z)) as [m n]. simpl.
  by destruct (0 <? n)%Z.
Qed.

(** X6: what the insertions report.  In a reachable state
    [AddNFTContracts] prints one line, with the number of distinct
    addresses of the batch that were not members and the new number of
    dynamic members, when there is such an address, and prints nothing
    (and changes nothing) when every address of the batch is a member
    already.  [AddNFTContract] prints its line, with the new total,
    exactly when the address was not a member. *)
Theorem insertions_report_new_members cf (l : list Address) (a : Address) :
  reachable cf →
  let new := size (list_to_set (C := gset Address) l ∖ dom (nftContracts cf)) in
  (new = 0%nat → AddNFTContracts l cf = (tt, cf, []))
  ∧ (new ≠ 0%nat →
     trace_of (AddNFTContracts l cf)
     = [Stdout ("[ContractFilter] Added " +:+ pretty (Z.of_nat new)
                +:+ " new NFT contracts (total: "
                +:+ pretty (size (nftContracts cf) + new)%nat
                +:+ ")" +:+ newline)])
  ∧ (a ∈ dom (nftContracts cf) → AddNFTContract a cf = (tt, cf, []))
  ∧ (a ∉ dom (nftContracts cf) →
     trace_of (AddNFTContract a cf)
     = [Stdout ("[ContractFilter] Added NFT contract: " +:+ Address_Hex a
                +:+ " (total: " +:+ pretty (S (size (nftContracts cf)))
                +:+ ")" +:+ newline)]).
Proof.
  intros Hm%reachable_all_true new.
  assert ((AddNFTContracts_loop l (nftContracts cf, 0%Z)).2 = Z.of_nat new)
    as Hn by (rewrite AddNFTContracts_loop_newCount by done; lia).
  split; [|split; [|split]].
  - intros H0. apply AddNFTContracts_present. intros b Hb.
    apply map_index_dom; [done|].
    apply size_empty_iff in H0.
    apply (elem_of_list_to_set (C := gset Address)) in Hb.
    destruct (decide (b ∈ dom (nftContracts cf))) as [|Hnb]; [done|].
    exfalso. apply (not_elem_of_empty (C := gset Address) b).
    rewrite <- H0. set_solver.
  - intros Hne. rewrite AddNFTContracts_run. unfold trace_of. simpl.
    rewrite Hn. destruct (0 <? Z.of_nat new)%Z eqn:E;
      [|apply Z.ltb_ge in E; lia].
    rewrite AddNFTContracts_state. simpl.
    by rewrite size_foldl_add_member.
  - intros Ha. apply map_index_dom in Ha; [|done].
    unfold AddNFTContract, bind, get. simpl. by rewrite Ha.
  - intros Ha. assert (map_index (nftContracts cf) a = false) as Hidx.
    { destruct (map_index (nftContracts cf) a) eqn:E; [|done].
      apply map_index_dom in E; done. }
    unfold AddNFTContract, bind, get, trace_of. simpl. rewrite Hidx. simpl.
    rewrite map_size_insert_None; [done|]. by apply not_elem_of_dom.
Qed.

Lemma insertions_report_new_members_witness :
  reachable Sample.filter
  ∧ size (list_to_set (C := gset Address) [Sample.contractX; Sample.contractX]
            ∖ dom (nftContracts Sample.filter)) ≠ 0%nat
  ∧ trace_of (AddNFTContracts [Sample.contractX; Sample.contractX] Sample.filter)
    = [Stdout ("[ContractFilter] Added 1 new NFT contracts (total: 1)"
               +:+ newline)].
Proof.
  assert (size (list_to_set (C := gset Address)
                  [Sample.contractX; Sample.contractX]
                  ∖ dom (nftContracts Sample.filter)) = 1%nat) as Hsz
    by (vm_compute; reflexivity).
  split; [exact Sample_filter_reachable|]. split; [rewrite Hsz; lia|].
  destruct (insertions_report_new_members Sample.filter
              [Sample.contractX; Sample.contractX] Sample.contractX
              Sample_filter_reachable) as (_ & H & _).
  rewrite H by (rewrite Hsz; lia). rewrite Hsz. reflexivity.
Defined.

(* ===================================================================== *)
(** ** Further properties of construction *)
(* ===================================================================== *)

Lemma HexToAddress_length s : length (HexToAddress s) = AddressLength.
Proof. apply BytesToAddress_length. Qed.

Lemma load_initial_dom (addrs : list string) (m : gmap Address bool) :
  dom (load_initial addrs m)
  = list_to_set (HexToAddress <$> filter (fun s => s ≠ EmptyString) addrs)
    ∪ dom m.
Proof.
  unfold load_initial. revert m.
  induction addrs as [|s addrs IH]; intros m; simpl; [set_solver|].
  rewrite IH, filter_cons. case_bool_decide; case_decide; try done.
  rewrite dom_insert_L, fmap_cons, list_to_set_cons. set_solver.
Qed.

Lemma load_initial_size (addrs : list string) (m : gmap Address bool) :
  (size (load_initial addrs m) ≤ size m + length addrs)%nat.
Proof.
  unfold load_initial. revert m.
  induction addrs as [|s addrs IH]; intros m; simpl; [lia|].
  etrans; [apply IH|]. case_bool_decide; [|lia].
  pose proof (map_size_insert (HexToAddress s) true m) as Hs.
  destruct (m !! HexToAddress s); simpl in Hs; lia.
Qed.

(** X7: the preloaded members.  When the configuration is read and
    decoded, the dynamic members of the new registry are exactly the
    addresses [HexToAddress] makes of the non-empty strings of
    [nftContracts]: empty strings are skipped, repeated strings and
    strings that differ in letter case give one member, and a non-empty
    string that is no address is not skipped (it gives the address
    [HexToAddress] makes of it).  All addresses of the new registry are 20
    bytes wide. *)
Theorem NewContractFilter_preload os_ReadFile json_Unmarshal configPath
    data config :
  os_ReadFile configPath = Ok data →
  json_Unmarshal data = Ok config →
  ∃ cf,
    NewContractFilter os_ReadFile json_Unmarshal configPath = Ok cf
    ∧ dom (nftContracts cf)
      = list_to_set (HexToAddress <$>
                       filter (fun s => s ≠ EmptyString) (cfg_NFTContracts config))
    ∧ (size (nftContracts cf) ≤ length (cfg_NFTContracts config))%nat
    ∧ well_formed cf.
Proof.
  intros Hread Hjson. unfold NewContractFilter. rewrite Hread, Hjson.
  eexists. split; [reflexivity|]. simpl. split; [|split].
  - rewrite load_initial_dom, dom_empty_L. set_solver.
  - etrans; [apply load_initial_size|]. by rewrite map_size_empty.
  - split; [apply HexToAddress_length|]. split; [apply HexToAddress_length|].
    simpl. intros a. rewrite load_initial_dom, dom_empty_L, union_empty_r_L.
    rewrite elem_of_list_to_set, list_elem_of_fmap.
    intros (s & -> & _). apply HexToAddress_length.
Qed.

(* ===================================================================== *)
(** ** Properties of the synchronisation *)
(* ===================================================================== *)

Lemma syncFromMongoDB_run `{MongoDBClient C} (c : C) cf :
  syncFromMongoDB c cf
  = match (GetNFTContractAddresses c).1 with
    | Err e =>
        (Some ("failed to fetch NFT contracts from MongoDB: " +:+ e), cf,
         GetNFTContractAddressesCall
           :: (Stdout <$> (GetNFTContractAddresses c).2))
    | Ok [] =>
        (None, cf,
         GetNFTContractAddressesCall
           :: (Stdout <$> (GetNFTContractAddresses c).2))
    | Ok l =>
        (None, state_of (AddNFTContracts l cf),
         GetNFTContractAddressesCall
           :: (Stdout <$> (GetNFTContractAddresses c).2)
           ++ trace_of (AddNFTContracts l cf)
           ++ [Stdout ("[ContractFilter] Synced " +:+ pretty (length l)
                       +:+ " NFT contracts from MongoDB" +:+ newline)])
    end.
Proof.
  unfold syncFromMongoDB, call_GetNFTContractAddresses.
  destruct (GetNFTContractAddresses c) as [[[|a l]|e] out]; cbn [fst snd].
  - unfold bind, ret. simpl. by rewrite app_nil_r.
  - unfold bind, ret, Printf, state_of, trace_of. simpl.
    destruct (AddNFTContracts (a :: l) cf) as [[[] s1] t1]. simpl.
    by rewrite app_nil_r.
  - unfold bind, ret. simpl. by rewrite app_nil_r.
Qed.

Lemma foldl_add_member_present (l : list Address) (m : gmap Address bool) :
  (∀ a, a ∈ l → map_index m a = true) →
  foldl (fun m a => add_member a m) m l = m.
Proof.
  intros Hl. rewrite <- (AddNFTContracts_loop_map l m 0%Z).
  by rewrite AddNFTContracts_loop_present.
Qed.

Lemma foldl_add_member_twice (l : list Address) (m : gmap Address bool) :
  foldl (fun m a => add_member a m) (foldl (fun m a => add_member a m) m l) l
  = foldl (fun m a => add_member a m) m l.
Proof. apply foldl_add_member_present. intros a. apply foldl_add_member_index. Qed.

Lemma source_calls_app t1 t2 :
  source_calls (t1 ++ t2) = (source_calls t1 + source_calls t2)%nat.
Proof.
  induction t1 as [|[| |] t1 IH]; cbn [app source_calls]; [done..|].
  by rewrite IH.
Qed.

Lemma source_calls_Stdout (lines : list string) :
  source_calls (Stdout <$> lines) = 0%nat.
Proof. by induction lines. Qed.

Lemma source_calls_AddNFTContracts l cf :
  source_calls (trace_of (AddNFTContracts l cf)) = 0%nat.
Proof.
  rewrite AddNFTContracts_run. unfold trace_of. cbn [snd].
  by destruct (0 <? _)%Z.
Qed.

Lemma source_calls_syncFromMongoDB `{MongoDBClient C} (c : C) cf :
  source_calls (trace_of (syncFromMongoDB c cf)) = 1%nat.
Proof.
  rewrite syncFromMongoDB_run.
  destruct (GetNFTContractAddresses c) as [[[|a l]|e] out];
    unfold trace_of; cbn [fst snd source_calls];
    rewrite ?source_calls_app, ?source_calls_Stdout; [done| |done].
  fold (trace_of (AddNFTContracts (a :: l) cf)).
  by rewrite source_calls_AddNFTContracts.
Qed.

(** X8: one synchronisation.  [syncFromMongoDB] asks the source exactly
    once, first of all, and what the source prints comes next.  When the
    source fails, the error is returned, wrapped, the registry is as it
    was and nothing more is printed.  When the source answers, no error is
    returned and the registry is the one [AddNFTContracts] of the answer
    leaves: members that the source does not list stay.  After an empty
    answer nothing more happens.  After a non-empty answer, from any
    registry, the output of [AddNFTContracts] follows and then the line
    "Synced n", where n is the length of the answer: the line is printed
    also when nothing was new, as in a second synchronisation with the
    same answer, which changes nothing. *)
Theorem syncFromMongoDB_outcomes `{MongoDBClient C} (c : C) cf :
  (∀ e out, GetNFTContractAddresses c = (Err e, out) →
     syncFromMongoDB c cf
     = (Some ("failed to fetch NFT contracts from MongoDB: " +:+ e), cf,
        GetNFTContractAddressesCall :: (Stdout <$> out)))
  ∧ (∀ l out, GetNFTContractAddresses c = (Ok l, out) →
       result_of (syncFromMongoDB c cf) = None
       ∧ state_of (syncFromMongoDB c cf) = state_of (AddNFTContracts l cf)
       ∧ dom (nftContracts cf)
         ⊆ dom (nftContracts (state_of (syncFromMongoDB c cf)))
       ∧ (l = [] →
          syncFromMongoDB c cf
          = (None, cf, GetNFTContractAddressesCall :: (Stdout <$> out)))
       ∧ (l ≠ [] →
          trace_of (syncFromMongoDB c cf)
          = GetNFTContractAddressesCall :: (Stdout <$> out)
            ++ trace_of (AddNFTContracts l cf)
            ++ [Stdout ("[ContractFilter] Synced " +:+ pretty (length l)
                        +:+ " NFT contracts from MongoDB" +:+ newline)])
       ∧ (l ≠ [] →
          (∀ a, a ∈ l → map_index (nftContracts cf) a = true) →
          syncFromMongoDB c cf
          = (None, cf,
             GetNFTContractAddressesCall :: (Stdout <$> out)
             ++ [Stdout ("[ContractFilter] Synced " +:+ pretty (length l)
                         +:+ " NFT contracts from MongoDB" +:+ newline)]))
       ∧ (l ≠ [] →
          syncFromMongoDB c (state_of (syncFromMongoDB c cf))
          = (None, state_of (syncFromMongoDB c cf),
             GetNFTContractAddressesCall :: (Stdout <$> out)
             ++ [Stdout ("[ContractFilter] Synced " +:+ pretty (length l)
                         +:+ " NFT contracts from MongoDB" +:+ newline)])))
  ∧ state_of (syncFromMongoDB c (state_of (syncFromMongoDB c cf)))
    = state_of (syncFromMongoDB c cf)
  ∧ source_calls (trace_of (syncFromMongoDB c cf)) = 1%nat.
Proof.
  split; [|split; [|split; [|apply source_calls_syncFromMongoDB]]].
  - intros e out He. by rewrite syncFromMongoDB_run, He.
  - intros l out Hl.
    assert (∀ cf', (∀ a, a ∈ l → map_index (nftContracts cf') a = true) →
              l ≠ [] →
              syncFromMongoDB c cf'
              = (None, cf',
                 GetNFTContractAddressesCall :: (Stdout <$> out)
                 ++ [Stdout ("[ContractFilter] Synced " +:+ pretty (length l)
                             +:+ " NFT contracts from MongoDB" +:+ newline)]))
      as Hknown.
    { intros cf' Hin Hne. rewrite syncFromMongoDB_run, Hl. cbn [fst snd].
      destruct l as [|a l]; [done|].
      by rewrite (AddNFTContracts_present _ _ Hin). }
    rewrite syncFromMongoDB_state, Hl. cbn [fst].
    split; [by rewrite syncFromMongoDB_run, Hl; destruct l|]. split; [done|].
    split; [|split; [|split; [|split]]].
    + rewrite AddNFTContracts_state. apply foldl_add_member_dom_subseteq.
    + intros ->. by rewrite syncFromMongoDB_run, Hl.
    + intros Hne. rewrite syncFromMongoDB_run, Hl. cbn [fst snd].
      by destruct l.
    + intros Hne Hin. by apply Hknown.
    + intros Hne. apply Hknown; [|done].
      intros b Hb. by apply AddNFTContracts_indexed.
  - rewrite !syncFromMongoDB_state.
    destruct (GetNFTContractAddresses c).1 as [l|e]; [|done].
    rewrite !AddNFTContracts_state. simpl.
    by rewrite foldl_add_member_twice.
Qed.

(** *** The loop *)

Lemma sync_loop_state `{MongoDBClient C} (schedule : list (select_case C)) cf :
  state_of (sync_loop schedule cf)
  = foldl (fun cf c => state_of (syncFromMongoDB c cf)) cf
          (ticks_before_Done schedule).
Proof.
  revert cf. induction schedule as [|[|c] rest IH]; intros cf; [done..|].
  cbn [sync_loop ticks_before_Done foldl].
  rewrite state_of_bind, state_of_bind, IH. f_equal.
  by destruct (result_of (syncFromMongoDB c cf)).
Qed.

Lemma sync_loop_result `{MongoDBClient C} (schedule : list (select_case C)) cf :
  result_of (sync_loop schedule cf)
  = if cancelled schedule then returned else blocked.
Proof.
  revert cf. induction schedule as [|[|c] rest IH]; intros cf; [done..|].
  cbn [sync_loop cancelled]. by rewrite result_of_bind, result_of_bind, IH.
Qed.

Lemma bind_ext {S A B} (m : M S A) (k1 k2 : A → M S B) (s : S) :
  (∀ a s', k1 a s' = k2 a s') → bind m k1 s = bind m k2 s.
Proof.
  intros Hk. unfold bind. destruct (m s) as [[a s1] t1]. by rewrite Hk.
Qed.

Lemma bind_get {S B} (k : S → M S B) (s : S) : bind get k s = k s s.
Proof. unfold bind, get. by destruct (k s s) as [[b s2] t2]. Qed.

Lemma sync_loop_after_Done `{MongoDBClient C}
    (before after : list (select_case C)) cf :
  sync_loop (before ++ ctx_Done :: after) cf
  = sync_loop (before ++ [ctx_Done]) cf.
Proof.
  revert cf. induction before as [|[|c] before IH]; intros cf; [done..|].
  cbn [app sync_loop]. apply bind_ext. intros err s1.
  apply bind_ext. intros _ s2. apply IH.
Qed.

(** One round: the synchronisation, then the report of its failure. *)
Lemma round_run `{MongoDBClient C} {A} (label : string) (c : C)
    (k : M ContractFilter A) cf :
  (err <- syncFromMongoDB c ;;
   match err with
   | Some e => Printf (label +:+ e +:+ newline)
   | None => ret tt
   end ;;;
   k)%prog cf
  = (result_of (k (state_of (syncFromMongoDB c cf))),
     state_of (k (state_of (syncFromMongoDB c cf))),
     round_trace label c cf ++ trace_of (k (state_of (syncFromMongoDB c cf)))).
Proof.
  unfold round_trace, bind, result_of, state_of, trace_of.
  destruct (syncFromMongoDB c cf) as [[[e|] s1] t1]; cbn [fst snd];
    unfold Printf, ret; destruct (k s1) as [[a s2] t2]; cbn [fst snd app].
  - by rewrite <- app_assoc.
  - by rewrite app_nil_r.
Qed.

Lemma sync_loop_trace `{MongoDBClient C} (schedule : list (select_case C)) cf :
  trace_of (sync_loop schedule cf)
  = rounds_trace (ticks_before_Done schedule) cf
    ++ (if cancelled schedule
        then [Stdout ("[ContractFilter] MongoDB sync stopped" +:+ newline)]
        else []).
Proof.
  revert cf. induction schedule as [|[|c] rest IH]; intros cf; [done..|].
  cbn [sync_loop ticks_before_Done cancelled rounds_trace].
  rewrite (round_run "[ContractFilter] MongoDB sync error: ").
  unfold trace_of at 1. cbn [snd]. by rewrite IH, <- app_assoc.
Qed.

Lemma source_calls_round `{MongoDBClient C} (label : string) (c : C) cf :
  source_calls (round_trace label c cf) = 1%nat.
Proof.
  unfold round_trace. rewrite source_calls_app, source_calls_syncFromMongoDB.
  by destruct (result_of (syncFromMongoDB c cf)).
Qed.

Lemma source_calls_rounds `{MongoDBClient C} (ticks : list C) cf :
  source_calls (rounds_trace ticks cf) = length ticks.
Proof.
  revert cf. induction ticks as [|c ticks IH]; intros cf; [done|].
  cbn [rounds_trace length].
  by rewrite source_calls_app, source_calls_round, IH.
Qed.

Section Loop.
Variable Duration_String : Z → string.
Context `{MongoDBClient C}.

Lemma StartMongoDBSync_enabled (c : C) (schedule : list (select_case C)) cf :
  mongodbSyncEnabled cf = true → (0 < mongodbSyncInterval cf)%Z →
  StartMongoDBSync Duration_String c schedule cf
  = (if cancelled schedule then returned else blocked,
     foldl (fun cf c => state_of (syncFromMongoDB c cf)) cf
           (c :: ticks_before_Done schedule),
     Stdout ("[ContractFilter] Starting MongoDB sync (interval: "
             +:+ Duration_String (mongodbSyncInterval cf) +:+ ")" +:+ newline)
     :: round_trace "[ContractFilter] Initial MongoDB sync error: " c cf
     ++ rounds_trace (ticks_before_Done schedule)
                     (state_of (syncFromMongoDB c cf))
     ++ (if cancelled schedule
         then [Stdout ("[ContractFilter] MongoDB sync stopped" +:+ newline)]
         else [])).
Proof.
  intros Hon Hpos. unfold StartMongoDBSync. rewrite bind_get, Hon. cbn [negb].
  destruct (mongodbSyncInterval cf <=? 0)%Z eqn:E;
    [apply Z.leb_le in E; lia|].
  unfold bind at 1. unfold Printf at 1.
  rewrite (round_run "[ContractFilter] Initial MongoDB sync error: ").
  rewrite sync_loop_result, sync_loop_state, sync_loop_trace. done.
Qed.

Lemma StartMongoDBSync_panic (c : C) (schedule : list (select_case C)) cf :
  mongodbSyncEnabled cf = true → (mongodbSyncInterval cf ≤ 0)%Z →
  StartMongoDBSync Duration_String c schedule cf
  = (panicked "non-positive interval for NewTicker", cf,
     [Stdout ("[ContractFilter] Starting MongoDB sync (interval: "
              +:+ Duration_String (mongodbSyncInterval cf) +:+ ")"
              +:+ newline)]).
Proof.
  intros Hon Hneg. unfold StartMongoDBSync. rewrite bind_get, Hon. cbn [negb].
  destruct (mongodbSyncInterval cf <=? 0)%Z eqn:E;
    [done|apply Z.leb_gt in E; lia].
Qed.

(** X9: [StartMongoDBSync] when the synchronisation is disabled, and when
    it runs.  Disabled, it returns at once: one line is printed, the
    source is not asked and the registry is unchanged, whatever the
    schedule.  Enabled with a positive interval, it prints the start
    line, runs one round (a synchronisation, and a line if it failed)
    before it waits, then one round for every tick that comes before the
    cancellation, each from the registry the round before left, and none
    for a tick after it: the source is asked once more than there are
    such ticks.  It prints the stop line and returns when the schedule
    holds a cancellation and is still waiting otherwise.  A failing
    synchronisation is reported and does not end the loop. *)
Theorem StartMongoDBSync_runs (c : C) (schedule : list (select_case C)) cf :
  (mongodbSyncEnabled cf = false →
   StartMongoDBSync Duration_String c schedule cf
   = (returned, cf,
      [Stdout ("[ContractFilter] MongoDB sync is disabled" +:+ newline)])
   ∧ source_calls (trace_of (StartMongoDBSync Duration_String c schedule cf))
     = 0%nat)
  ∧ (mongodbSyncEnabled cf = true → (0 < mongodbSyncInterval cf)%Z →
     state_of (StartMongoDBSync Duration_String c schedule cf)
     = foldl (fun cf c => state_of (syncFromMongoDB c cf)) cf
             (c :: ticks_before_Done schedule)
     ∧ result_of (StartMongoDBSync Duration_String c schedule cf)
       = (if cancelled schedule then returned else blocked)
     ∧ trace_of (StartMongoDBSync Duration_String c schedule cf)
       = Stdout ("[ContractFilter] Starting MongoDB sync (interval: "
                 +:+ Duration_String (mongodbSyncInterval cf) +:+ ")"
                 +:+ newline)
         :: round_trace "[ContractFilter] Initial MongoDB sync error: " c cf
         ++ rounds_trace (ticks_before_Done schedule)
                         (state_of (syncFromMongoDB c cf))
         ++ (if cancelled schedule
             then [Stdout ("[ContractFilter] MongoDB sync stopped" +:+ newline)]
             else [])
     ∧ source_calls (trace_of (StartMongoDBSync Duration_String c schedule cf))
       = S (length (ticks_before_Done schedule))
     ∧ (∀ label c' cf' e,
          result_of (syncFromMongoDB c' cf') = Some e →
          round_trace label c' cf'
          = GetNFTContractAddressesCall
              :: (Stdout <$> (GetNFTContractAddresses c').2)
              ++ [Stdout (label +:+ e +:+ newline)]
          ∧ state_of (syncFromMongoDB c' cf') = cf')
     ∧ (∀ before after,
          schedule = before ++ ctx_Done :: after →
          StartMongoDBSync Duration_String c schedule cf
          = StartMongoDBSync Duration_String c (before ++ [ctx_Done]) cf)).
Proof.
  split.
  - intros Hoff.
    assert (StartMongoDBSync Duration_String c schedule cf
            = (returned, cf,
               [Stdout ("[ContractFilter] MongoDB sync is disabled" +:+ newline)]))
      as Hrun.
    { unfold StartMongoDBSync, bind, get. simpl. by rewrite Hoff. }
    split; [exact Hrun|]. by rewrite Hrun.
  - intros Hon Hpos.
    rewrite !StartMongoDBSync_enabled by done.
    split; [done|]. split; [done|]. split; [done|]. split; [|split].
    + unfold trace_of. cbn [snd source_calls].
      rewrite !source_calls_app, source_calls_round, source_calls_rounds.
      destruct (cancelled schedule); cbn [source_calls]; lia.
    + intros label c' cf' e. unfold round_trace.
      rewrite syncFromMongoDB_run.
      destruct (GetNFTContractAddresses c') as [[[|a l]|e'] out];
        unfold result_of, state_of, trace_of; cbn [fst snd]; [done..|].
      by intros [= <-].
    + intros before after ->.
      assert (∀ rest, ticks_before_Done (before ++ ctx_Done :: rest)
                      = ticks_before_Done (before ++ [ctx_Done])
                      ∧ cancelled (before ++ ctx_Done :: rest) = true)
        as Hcut.
      { intros rest. induction before as [|[|c0] before [IH1 IH2]];
          [done..|]. cbn [app ticks_before_Done cancelled].
        by rewrite IH1, IH2. }
      rewrite (StartMongoDBSync_enabled c (before ++ [ctx_Done])) by done.
      destruct (Hcut after) as [-> ->]. destruct (Hcut []) as [_ ->]. done.
Qed.

(** X10: a registry built from a configuration that switches the
    synchronisation on makes [StartMongoDBSync] panic in [time.NewTicker]
    exactly when the interval, the 64-bit product of the configured
    seconds and [time.Second], is zero or negative.  For a number of
    seconds from -9223372036 to 0 the product is exact and the run
    panics: the start line is printed, the source is never asked and the
    registry is unchanged.  Below that the product wraps around: for
    -9223372037 seconds the interval is positive and the loop runs. *)
Theorem StartMongoDBSync_panics_without_interval
    os_ReadFile json_Unmarshal configPath data config
    (c : C) (schedule : list (select_case C)) :
  os_ReadFile configPath = Ok data →
  json_Unmarshal data = Ok config →
  cfg_MongoDBSync_Enabled config = true →
  ∃ cf,
    NewContractFilter os_ReadFile json_Unmarshal configPath = Ok cf
    ∧ mongodbSyncInterval cf
      = wrap_int64 (cfg_MongoDBSync_IntervalSeconds config * 1000000000)
    ∧ ((-9223372036 ≤ cfg_MongoDBSync_IntervalSeconds config ≤ 0)%Z →
       mongodbSyncInterval cf
       = (cfg_MongoDBSync_IntervalSeconds config * 1000000000)%Z
       ∧ StartMongoDBSync Duration_String c schedule cf
         = (panicked "non-positive interval for NewTicker", cf,
            [Stdout ("[ContractFilter] Starting MongoDB sync (interval: "
                     +:+ Duration_String (mongodbSyncInterval cf) +:+ ")"
                     +:+ newline)])
       ∧ source_calls
           (trace_of (StartMongoDBSync Duration_String c schedule cf))
         = 0%nat)
    ∧ ((mongodbSyncInterval cf ≤ 0)%Z
       ↔ result_of (StartMongoDBSync Duration_String c schedule cf)
         = panicked "non-positive interval for NewTicker")
    ∧ (cfg_MongoDBSync_IntervalSeconds config = (-9223372037)%Z →
       mongodbSyncInterval cf = 9223372036709551616%Z
       ∧ result_of (StartMongoDBSync Duration_String c schedule cf)
         = (if cancelled schedule then returned else blocked)
       ∧ source_calls
           (trace_of (StartMongoDBSync Duration_String c schedule cf))
         = S (length (ticks_before_Done schedule))).
Proof.
  intros Hread Hjson Hon. unfold NewContractFilter.
  rewrite Hread, Hjson. eexists. split; [reflexivity|].
  set (cf := set_nftContracts _ _).
  assert (mongodbSyncEnabled cf = true) as Hon' by exact Hon.
  assert (mongodbSyncInterval cf
          = wrap_int64 (cfg_MongoDBSync_IntervalSeconds config * 1000000000))
    as Hint by reflexivity.
  assert (∀ sch, (0 < mongodbSyncInterval cf)%Z →
            result_of (StartMongoDBSync Duration_String c sch cf)
            = (if cancelled sch then returned else blocked)
            ∧ source_calls (trace_of (StartMongoDBSync Duration_String c sch cf))
              = S (length (ticks_before_Done sch))) as Hruns.
  { intros sch Hpos. rewrite StartMongoDBSync_enabled by done.
    split; [done|]. unfold trace_of. cbn [snd source_calls].
    rewrite !source_calls_app, source_calls_round, source_calls_rounds.
    destruct (cancelled sch); cbn [source_calls]; lia. }
  split; [exact Hint|]. split; [|split].
  - intros Hsec.
    assert (mongodbSyncInterval cf
            = (cfg_MongoDBSync_IntervalSeconds config * 1000000000)%Z) as Hw.
    { rewrite Hint. unfold wrap_int64. rewrite Z.mod_small by lia. lia. }
    split; [exact Hw|].
    rewrite StartMongoDBSync_panic by (done || lia). done.
  - split.
    + intros Hneg. by rewrite StartMongoDBSync_panic.
    + intros Hpanic.
      destruct (Z.le_gt_cases (mongodbSyncInterval cf) 0) as [|Hpos]; [done|].
      apply Z.gt_lt in Hpos || idtac.
      destruct (Hruns schedule ltac:(lia)) as [Hres _].
      rewrite Hres in Hpanic. by destruct (cancelled schedule).
  - intros Hsec.
    assert (mongodbSyncInterval cf = 9223372036709551616%Z) as Hw.
    { rewrite Hint, Hsec. reflexivity. }
    split; [exact Hw|]. apply Hruns. lia.
Qed.

End Loop.

(* ===================================================================== *)
(** ** Properties of the MongoDB client *)
(* ===================================================================== *)

Lemma valid_document_test doc :
  bool_decide (Database.doc_ContractAddress doc ≠ EmptyString)
  && IsHexAddress (Database.doc_ContractAddress doc)
  = IsHexAddress (Database.doc_ContractAddress doc).
Proof.
  case_bool_decide as Hne; [done|].
  by rewrite Hne.
Qed.

Lemma collect_addresses_run docs addresses m :
  Database.collect_addresses docs addresses m
  = (addresses ++ (HexToAddress <$> omap valid_document docs), m,
     (fun e => Stdout ("[MongoDB] Failed to decode document: " +:+ e +:+ newline))
       <$> omap decode_failure docs).
Proof.
  revert addresses. induction docs as [|[doc|e] docs IH]; intros addresses.
  - simpl. by rewrite app_nil_r.
  - cbn [Database.collect_addresses omap list_omap valid_document decode_failure].
    rewrite valid_document_test.
    destruct (IsHexAddress (Database.doc_ContractAddress doc)).
    + rewrite IH, <- app_assoc. done.
    + by rewrite IH.
  - cbn [Database.collect_addresses omap list_omap valid_document decode_failure].
    unfold bind, Printf. rewrite IH. done.
Qed.

Lemma GetNFTContractAddresses_run (m : Database.DopamintMongoClient) :
  Database.GetNFTContractAddresses m
  = match Database.collection_Find m (Database.status_ne "deleted") with
    | Err e => (Err ("failed to query MongoDB: " +:+ e), m, [])
    | Ok cursor =>
        (match Database.cursor_Err cursor with
         | Some e => Err ("cursor error: " +:+ e)
         | None => Ok (HexToAddress <$>
                         omap valid_document (Database.cursor_docs cursor))
         end, m,
         (fun e => Stdout ("[MongoDB] Failed to decode document: "
                           +:+ e +:+ newline))
           <$> omap decode_failure (Database.cursor_docs cursor))
    end.
Proof.
  unfold Database.GetNFTContractAddresses. rewrite bind_get.
  destruct (Database.collection_Find m (Database.status_ne "deleted"))
    as [cursor|e0]; [|done].
  unfold bind. rewrite collect_addresses_run. simpl.
  destruct (Database.cursor_Err cursor); simpl; by rewrite app_nil_r.
Qed.

Lemma GetNFTContractAddresses_valid (m : Database.DopamintMongoClient) l :
  result_of (Database.GetNFTContractAddresses m) = Ok l →
  Forall (fun a => length a = AddressLength
                   ∧ ∃ s, IsHexAddress s = true ∧ a = HexToAddress s) l.
Proof.
  rewrite GetNFTContractAddresses_run.
  destruct (Database.collection_Find m (Database.status_ne "deleted"))
    as [cursor|e0]; [|done].
  destruct (Database.cursor_Err cursor); [done|].
  unfold result_of. simpl. intros [= <-].
  apply Forall_fmap, Forall_forall. intros s Hs.
  apply list_elem_of_omap in Hs as (d & _ & Hd). simpl.
  split; [apply HexToAddress_length|]. exists s. split; [|done].
  destruct d as [doc|]; [|done]. simpl in Hd.
  destruct (IsHexAddress (Database.doc_ContractAddress doc)) eqn:E; [|done].
  by injection Hd as <-.
Qed.

(** Seen as a source of the registry, the client gives the answer of
    [GetNFTContractAddresses] and all of its trace, which holds printed
    lines only. *)
Lemma DopamintMongoClient_source (m : Database.DopamintMongoClient) :
  (GetNFTContractAddresses m).1 = result_of (Database.GetNFTContractAddresses m)
  ∧ Stdout <$> (GetNFTContractAddresses m).2
    = trace_of (Database.GetNFTContractAddresses m).
Proof.
  split; [done|]. cbn [GetNFTContractAddresses DopamintMongoClient_MongoDBClient snd].
  rewrite GetNFTContractAddresses_run.
  destruct (Database.collection_Find m (Database.status_ne "deleted"))
    as [cursor|e0]; [|done].
  unfold trace_of. cbn [snd].
  induction (omap decode_failure (Database.cursor_docs cursor)) as [|e es IH];
    [done|].
  cbn. f_equal. exact IH.
Qed.

(** X11: [GetNFTContractAddresses] of the MongoDB client.  It asks for
    the documents whose status is not "deleted".  When the query fails it
    returns the error, wrapped.  Otherwise it prints one line for every
    document that cannot be decoded and goes on; if the cursor then
    reports an error the addresses gathered are dropped and the error is
    returned, wrapped; if not, it returns, in the order of the cursor, the
    addresses of the decoded documents whose address string is forty
    hexadecimal digits with or without 0x.  Documents with an empty or
    malformed address string give no address, and every address returned
    is 20 bytes wide. *)
Theorem GetNFTContractAddresses_outcomes (m : Database.DopamintMongoClient) :
  state_of (Database.GetNFTContractAddresses m) = m
  ∧ (∀ e, Database.collection_Find m (Database.status_ne "deleted") = Err e →
          Database.GetNFTContractAddresses m
          = (Err ("failed to query MongoDB: " +:+ e), m, []))
  ∧ (∀ cursor,
       Database.collection_Find m (Database.status_ne "deleted") = Ok cursor →
       trace_of (Database.GetNFTContractAddresses m)
       = ((fun e => Stdout ("[MongoDB] Failed to decode document: "
                            +:+ e +:+ newline))
            <$> omap decode_failure (Database.cursor_docs cursor))
       ∧ (∀ e, Database.cursor_Err cursor = Some e →
               result_of (Database.GetNFTContractAddresses m)
               = Err ("cursor error: " +:+ e))
       ∧ (Database.cursor_Err cursor = None →
          result_of (Database.GetNFTContractAddresses m)
          = Ok (HexToAddress <$> omap valid_document (Database.cursor_docs cursor))))
  ∧ (∀ l, result_of (Database.GetNFTContractAddresses m) = Ok l →
          Forall (fun a => length a = AddressLength
                           ∧ ∃ s, IsHexAddress s = true ∧ a = HexToAddress s) l).
Proof.
  split; [|split; [|split; [|apply GetNFTContractAddresses_valid]]];
    rewrite GetNFTContractAddresses_run.
  - by destruct (Database.collection_Find m _).
  - by intros e ->.
  - intros cursor ->. split; [done|]. split.
    + by intros e ->.
    + by intros ->.
Qed.

(* ===================================================================== *)
(** ** Further properties of the discovery parser *)
(* ===================================================================== *)

Lemma BytesToAddress_pad (a : Address) :
  length a = AddressLength →
  BytesToAddress (Hash_Bytes (repeat x00 12 ++ a)) = a.
Proof.
  intros Hl. rewrite BytesToAddress_Hash.
  - by rewrite drop_app_length' by by rewrite repeat_length.
  - rewrite length_app, repeat_length, Hl. done.
Qed.

Lemma add_member_dom_bound (a : Address) (m : gmap Address bool) :
  dom (add_member a m) ⊆ {[a]} ∪ dom m.
Proof.
  unfold add_member. destruct (map_index m a); [set_solver|].
  rewrite dom_insert_L. set_solver.
Qed.

Lemma AddNFTContract_member a cf :
  map_index (nftContracts cf) a = true → AddNFTContract a cf = (tt, cf, []).
Proof. intros Ha. unfold AddNFTContract. by rewrite bind_get, Ha. Qed.

(** X12: a discovery.  When a log passes the three checks of
    [ProcessLog], the address cropped from its second topic is a member
    afterwards and is indexed; it is 20 bytes wide, and is the address
    itself when the topic is the address left-padded to 32 bytes.  No
    other address is inserted (the creator in the third topic is not).
    The line "Discovered new NFT contract" is printed in every case, also
    when the address was a member already and the registry does not
    change. *)
Theorem ProcessLog_discovers el log cf :
  applicable el log = true →
  let discoveredAddress := BytesToAddress (Hash_Bytes (topic log 1)) in
  let after := state_of (ProcessLog el log cf) in
  map_index (nftContracts after) discoveredAddress = true
  ∧ ShouldIndexLog discoveredAddress after = true
  ∧ length discoveredAddress = AddressLength
  ∧ (∀ a : Address, length a = AddressLength →
       topic log 1 = repeat x00 12 ++ a → discoveredAddress = a)
  ∧ dom (nftContracts after) ⊆ {[discoveredAddress]} ∪ dom (nftContracts cf)
  ∧ last (trace_of (ProcessLog el log cf))
    = Some (Stdout ("[EventListener] Discovered new NFT contract: "
                    +:+ Address_Hex discoveredAddress +:+ newline))
  ∧ (map_index (nftContracts cf) discoveredAddress = true →
     ProcessLog el log cf
     = (tt, cf, [Stdout ("[EventListener] Discovered new NFT contract: "
                         +:+ Address_Hex discoveredAddress +:+ newline)])).
Proof.
  intros Happ discoveredAddress after.
  assert (after = set_nftContracts
                    (add_member discoveredAddress (nftContracts cf)) cf) as ->.
  { unfold after. by rewrite ProcessLog_state, Happ, AddNFTContract_state. }
  assert (map_index (add_member discoveredAddress (nftContracts cf))
                    discoveredAddress = true) as Hidx by apply add_member_index.
  split; [exact Hidx|]. split; [|split; [|split; [|split; [|split]]]].
  - unfold ShouldIndexLog. simpl. rewrite Hidx.
    destruct (enabled cf); simpl; [|done]. by repeat case_bool_decide.
  - apply BytesToAddress_length.
  - intros a Hl Ht. unfold discoveredAddress. rewrite Ht.
    by apply BytesToAddress_pad.
  - apply add_member_dom_bound.
  - rewrite ProcessLog_applicable by done.
    rewrite trace_of_bind. unfold Printf at 1. unfold trace_of at 2. simpl.
    by rewrite last_snoc.
  - intros Hmem. rewrite ProcessLog_applicable by done.
    unfold bind. fold discoveredAddress.
    by rewrite (AddNFTContract_member discoveredAddress cf Hmem).
Qed.

Lemma ProcessLog_discovers_witness :
  applicable Sample.listener Sample.created = true
  ∧ length Sample.contractX = AddressLength
  ∧ topic Sample.created 1 = repeat x00 12 ++ Sample.contractX
  ∧ ShouldIndexLog Sample.contractX
      (state_of (ProcessLog Sample.listener Sample.created Sample.filter))
    = true.
Proof.
  assert (applicable Sample.listener Sample.created = true) as Happ
    by reflexivity.
  assert (length Sample.contractX = AddressLength) as Hl by reflexivity.
  assert (topic Sample.created 1 = repeat x00 12 ++ Sample.contractX) as Ht
    by reflexivity.
  repeat (split; [assumption|]).
  destruct (ProcessLog_discovers Sample.listener Sample.created Sample.filter
              Happ) as (_ & Hindexed & _ & Hpad & _).
  rewrite (Hpad Sample.contractX Hl Ht) in Hindexed. exact Hindexed.
Defined.

(** X13: the outcomes of [ParseNFTContractCreatedEvent].  The number of
    topics is tested first: with fewer than three topics the error is
    "not enough topics" whatever the first topic is; with three or more
    and another first topic it is "not an NFTContractCreated event".  It
    succeeds exactly when there are at least three topics and the first
    is the signature; the event then carries the block number,
    transaction hash and log index of the log, no collection identifier
    and empty name, symbol and base URI: the data field is not decoded.
    On a log of the factory, [ProcessLog] inserts an address exactly when
    the parser succeeds, and inserts the contract address of the parsed
    event. *)
Theorem ParseNFTContractCreatedEvent_outcomes log :
  ((length (log_Topics log) < 3)%nat →
   ParseNFTContractCreatedEvent log
   = Err "invalid NFTContractCreated event: not enough topics")
  ∧ ((3 ≤ length (log_Topics log))%nat → signature_matches log = false →
     ParseNFTContractCreatedEvent log = Err "not an NFTContractCreated event")
  ∧ (∀ event,
       ParseNFTContractCreatedEvent log = Ok event →
       (3 ≤ length (log_Topics log))%nat ∧ signature_matches log = true
       ∧ BlockNumber event = log_BlockNumber log
       ∧ TxHash event = log_TxHash log
       ∧ LogIndex event = log_Index log
       ∧ CollectionID event = None
       ∧ Name event = EmptyString ∧ Symbol event = EmptyString
       ∧ BaseURI event = EmptyString
       ∧ ∀ el cf, log_Address log = el_factoryAddress el →
                  state_of (ProcessLog el log cf)
                  = state_of (AddNFTContract (ContractAddress event) cf))
  ∧ (∀ e, ParseNFTContractCreatedEvent log = Err e →
          ∀ el cf, state_of (ProcessLog el log cf) = cf).
Proof.
  destruct (decide (length (log_Topics log) < 3)%nat) as [Hshort|Hlong].
  - assert (ParseNFTContractCreatedEvent log
            = Err "invalid NFTContractCreated event: not enough topics") as Hp.
    { unfold ParseNFTContractCreatedEvent.
      by rewrite (proj2 (Nat.ltb_lt _ _) Hshort). }
    split; [done|]. split; [intros; lia|]. rewrite Hp. split; [done|].
    intros _ _ el cf. rewrite ProcessLog_state.
    destruct (applicable el log) eqn:E; [|done].
    apply applicable_spec in E. lia.
  - assert (3 ≤ length (log_Topics log))%nat as H3 by lia.
    split; [intros; lia|]. destruct (signature_matches log) eqn:Hs.
    + rewrite (ParseNFTContractCreatedEvent_ok log H3 Hs).
      split; [done|]. split; [|done].
      intros event [= <-]. simpl. repeat (split; [done|]).
      intros el cf Ha. rewrite ProcessLog_state.
      by rewrite (proj2 (applicable_spec el log)).
    + assert (ParseNFTContractCreatedEvent log
              = Err "not an NFTContractCreated event") as Hp.
      { unfold ParseNFTContractCreatedEvent.
        rewrite (proj2 (Nat.ltb_ge _ _) H3).
        pose proof (signature_mismatch_topic log) as Hm.
        rewrite Hs in Hm. simpl in Hm. symmetry in Hm.
        apply orb_true_iff in Hm as [Hm|Hm].
        - apply Nat.eqb_eq in Hm. lia.
        - by rewrite Hm. }
      split; [done|]. rewrite Hp. split; [done|].
      intros _ _ el cf. rewrite ProcessLog_state.
      destruct (applicable el log) eqn:E; [|done].
      apply applicable_spec in E. destruct E as (_ & E & _). congruence.
Qed.

Lemma ParseNFTContractCreatedEvent_outcomes_witness :
  (length (log_Topics Sample.short) < 3)%nat
  ∧ ParseNFTContractCreatedEvent Sample.short
    = Err "invalid NFTContractCreated event: not enough topics".
Proof.
  assert (length (log_Topics Sample.short) < 3)%nat as Hn by (simpl; lia).
  split; [exact Hn|].
  destruct (ParseNFTContractCreatedEvent_outcomes Sample.short) as (H & _).
  apply H. exact Hn.
Defined.

(** *** Batches *)

Lemma ProcessLogs_loop_shift el logs n cf :
  ProcessLogs_loop el logs n cf
  = ((n + result_of (ProcessLogs_loop el logs 0%Z cf))%Z,
     state_of (ProcessLogs_loop el logs 0%Z cf),
     trace_of (ProcessLogs_loop el logs 0%Z cf)).
Proof.
  revert n cf. induction logs as [|log rest IH]; intros n cf.
  - unfold result_of, state_of, trace_of. simpl. unfold ret. f_equal. f_equal. lia.
  - rewrite !ProcessLogs_loop_cons. unfold bind, result_of, state_of, trace_of.
    destruct (ProcessLog el log cf) as [[[] s1] t1]. simpl.
    rewrite (IH (if signature_matches log then (n + 1)%Z else n)).
    rewrite (IH (if signature_matches log then (0 + 1)%Z else 0%Z)).
    unfold result_of, state_of, trace_of. simpl.
    f_equal. f_equal. destruct (signature_matches log); lia.
Qed.

Lemma ProcessLogs_loop_app el logs1 logs2 n cf :
  ProcessLogs_loop el (logs1 ++ logs2) n cf
  = (m <- ProcessLogs_loop el logs1 n ;; ProcessLogs_loop el logs2 m)%prog cf.
Proof.
  revert n cf. induction logs1 as [|log rest IH]; intros n cf.
  - simpl. unfold bind, ret.
    by destruct (ProcessLogs_loop el logs2 n cf) as [[b s2] t2].
  - cbn [app]. unfold bind. rewrite !ProcessLogs_loop_cons. unfold bind.
    destruct (ProcessLog el log cf) as [[[] s1] t1].
    rewrite IH. unfold bind.
    destruct (ProcessLogs_loop el rest _ s1) as [[m s2] t2].
    destruct (ProcessLogs_loop el logs2 m s2) as [[b s3] t3].
    by rewrite <- app_assoc.
Qed.

(** X14: batches compose.  Processing [logs1 ++ logs2] with
    [ProcessLogs] is processing [logs1] and then [logs2] on the registry
    the first batch left: the counts add up, the output is the first
    output followed by the second, and the final registry is the same.
    The empty batch counts nothing, prints nothing and changes nothing,
    and a batch of one log leaves the registry [ProcessLog] leaves. *)
Theorem ProcessLogs_app el logs1 logs2 cf :
  let first := ProcessLogs el logs1 cf in
  let second := ProcessLogs el logs2 (state_of first) in
  ProcessLogs el (logs1 ++ logs2) cf
  = ((result_of first + result_of second)%Z, state_of second,
     trace_of first ++ trace_of second)
  ∧ ProcessLogs el [] cf = (0%Z, cf, [])
  ∧ (∀ log, state_of (ProcessLogs el [log] cf) = state_of (ProcessLog el log cf)
            ∧ trace_of (ProcessLogs el [log] cf) = trace_of (ProcessLog el log cf)).
Proof.
  intros first second. split; [|split].
  - unfold ProcessLogs. rewrite ProcessLogs_loop_app. unfold bind.
    subst first second. unfold ProcessLogs.
    destruct (ProcessLogs_loop el logs1 0%Z cf) as [[m s1] t1] eqn:E1.
    rewrite (ProcessLogs_loop_shift el logs2 m s1).
    unfold result_of, state_of, trace_of. simpl.
    by destruct (ProcessLogs_loop el logs2 0%Z s1) as [[b s2] t2].
  - done.
  - intros log. unfold ProcessLogs. rewrite ProcessLogs_loop_cons.
    rewrite state_of_bind, trace_of_bind. unfold state_of, trace_of. simpl.
    by rewrite app_nil_r.
Qed.

Lemma discovered_perm el logs1 logs2 :
  logs1 ≡ₚ logs2 → discovered el logs1 ≡ₚ discovered el logs2.
Proof. intros Hp. unfold discovered. by rewrite Hp. Qed.

(** X15: deliveries may repeat and come in any order.  Processing a batch
    a second time leaves the registry as the first time left it, and two
    batches that are permutations of each other leave the same registry
    and return the same count.  The count does not depend on the
    registry. *)
Theorem ProcessLogs_redelivery el logs cf :
  state_of (ProcessLogs el logs (state_of (ProcessLogs el logs cf)))
  = state_of (ProcessLogs el logs cf)
  ∧ (∀ cf', result_of (ProcessLogs el logs cf')
            = result_of (ProcessLogs el logs cf))
  ∧ (∀ logs', logs ≡ₚ logs' →
       state_of (ProcessLogs el logs' cf) = state_of (ProcessLogs el logs cf)
       ∧ result_of (ProcessLogs el logs' cf)
         = result_of (ProcessLogs el logs cf)).
Proof.
  unfold ProcessLogs. split; [|split].
  - rewrite !ProcessLogs_loop_state. unfold set_nftContracts. simpl.
    by rewrite foldl_add_member_twice.
  - intros cf'. by rewrite !ProcessLogs_loop_result.
  - intros logs' Hp. split.
    + rewrite !ProcessLogs_loop_state.
      by rewrite (foldl_add_member_perm _ _ _ (discovered_perm el _ _ Hp)).
    + rewrite !ProcessLogs_loop_result. unfold count_logs. by rewrite Hp.
Qed.

Lemma ProcessLogs_redelivery_witness :
  [Sample.created; Sample.foreign] ≡ₚ [Sample.foreign; Sample.created]
  ∧ state_of (ProcessLogs Sample.listener [Sample.foreign; Sample.created]
                Sample.filter)
    = state_of (ProcessLogs Sample.listener [Sample.created; Sample.foreign]
                  Sample.filter).
Proof.
  assert ([Sample.created; Sample.foreign] ≡ₚ [Sample.foreign; Sample.created])
    as Hp by apply perm_swap.
  split; [exact Hp|].
  destruct (ProcessLogs_redelivery Sample.listener
              [Sample.created; Sample.foreign] Sample.filter) as (_ & _ & H).
  exact (proj1 (H _ Hp)).
Defined.

Lemma add_member_member (a : Address) (m : gmap Address bool) :
  map_index m a = true → add_member a m = m.
Proof. intros Ha. unfold add_member. by rewrite Ha. Qed.

Lemma elem_of_discovered el logs log :
  log ∈ logs → applicable el log = true →
  BytesToAddress (Hash_Bytes (topic log 1)) ∈ discovered el logs.
Proof.
  intros Hin Happ. unfold discovered. apply list_elem_of_fmap.
  exists log. split; [done|]. by apply list_elem_of_filter.
Qed.

(** X16: a backfill absorbs repeated deliveries.  [BackfillNFTContracts]
    returns the nil error for every batch.  Running it a second time on
    the same batch, or processing afterwards with [ProcessLog] any log
    of the batch again, leaves the registry as the first run left it.
    From a reachable state the dynamic members after a backfill are the
    former members and the addresses of the second topics of the
    applicable logs. *)
Theorem BackfillNFTContracts_absorbs_redelivery el logs cf :
  let after := state_of (BackfillNFTContracts el logs cf) in
  result_of (BackfillNFTContracts el logs cf) = None
  ∧ state_of (BackfillNFTContracts el logs after) = after
  ∧ (∀ log, log ∈ logs → state_of (ProcessLog el log after) = after)
  ∧ (reachable cf →
     dom (nftContracts after)
     = list_to_set (discovered el logs) ∪ dom (nftContracts cf)).
Proof.
  intros after. subst after. rewrite !BackfillNFTContracts_state.
  unfold ProcessLogs. rewrite !ProcessLogs_loop_state.
  split; [|split; [|split]].
  - unfold BackfillNFTContracts. by rewrite !result_of_bind.
  - unfold set_nftContracts. simpl. by rewrite foldl_add_member_twice.
  - intros log Hin. rewrite ProcessLog_state.
    destruct (applicable el log) eqn:Happ; [|done].
    rewrite AddNFTContract_state. unfold set_nftContracts. simpl.
    rewrite add_member_member; [done|].
    by apply foldl_add_member_index, elem_of_discovered.
  - intros Hm%reachable_all_true. simpl. by apply foldl_add_member_dom.
Qed.

Lemma BackfillNFTContracts_absorbs_redelivery_witness :
  Sample.created ∈ [Sample.foreign; Sample.created]
  ∧ reachable Sample.filter
  ∧ state_of (ProcessLog Sample.listener Sample.created
                (state_of (BackfillNFTContracts Sample.listener
                             [Sample.foreign; Sample.created] Sample.filter)))
    = state_of (BackfillNFTContracts Sample.listener
                  [Sample.foreign; Sample.created] Sample.filter).
Proof.
  assert (Sample.created ∈ [Sample.foreign; Sample.created]) as Hin
    by (apply elem_of_cons; right; apply elem_of_cons; by left).
  split; [exact Hin|]. split; [exact Sample_filter_reachable|].
  destruct (BackfillNFTContracts_absorbs_redelivery Sample.listener
              [Sample.foreign; Sample.created] Sample.filter) as (_ & _ & H & _).
  apply H. exact Hin.
Defined.

(* ===================================================================== *)
(** ** Width of the addresses, and their rendering *)
(* ===================================================================== *)

Lemma well_formed_foldl (l : list Address) cf :
  well_formed cf → Forall (fun a => length a = AddressLength) l →
  well_formed (set_nftContracts
                 (foldl (fun m a => add_member a m) (nftContracts cf) l) cf).
Proof.
  intros (HF & HP & Hm) Hl. split; [done|]. split; [done|]. simpl.
  revert Hm. generalize (nftContracts cf) as m.
  induction Hl as [|a l Ha _ IH]; intros m Hm; [done|]. simpl.
  apply IH. intros b Hb. apply add_member_dom_bound in Hb.
  apply elem_of_union in Hb as [->%elem_of_singleton|Hb]; auto.
Qed.

Lemma discovered_length el logs :
  Forall (fun a => length a = AddressLength) (discovered el logs).
Proof.
  unfold discovered. apply Forall_fmap, Forall_forall. intros log _.
  apply BytesToAddress_length.
Qed.

(** X17: addresses keep their width.  If the fixed addresses and the
    dynamic members of the registry are 20 bytes wide, as they are after
    [NewContractFilter], they still are after [ProcessLog],
    [ProcessLogs] and [BackfillNFTContracts] on any logs (topics of any
    length are cropped or padded), after inserting addresses of that
    width, and after a synchronisation with what the MongoDB client
    returned. *)
Theorem well_formed_preserved el cf :
  well_formed cf →
  (∀ log, well_formed (state_of (ProcessLog el log cf)))
  ∧ (∀ logs, well_formed (state_of (ProcessLogs el logs cf)))
  ∧ (∀ logs, well_formed (state_of (BackfillNFTContracts el logs cf)))
  ∧ (∀ a : Address, length a = AddressLength →
       well_formed (state_of (AddNFTContract a cf)))
  ∧ (∀ l : list Address, Forall (fun a => length a = AddressLength) l →
       well_formed (state_of (AddNFTContracts l cf)))
  ∧ (∀ m l, result_of (Database.GetNFTContractAddresses m) = Ok l →
       well_formed (state_of (syncFromMongoDB (Ok l : result (list Address)) cf))).
Proof.
  intros Hwf.
  assert (∀ logs, well_formed (state_of (ProcessLogs el logs cf))) as Hlogs.
  { intros logs. unfold ProcessLogs. rewrite ProcessLogs_loop_state.
    apply well_formed_foldl; [done|apply discovered_length]. }
  assert (∀ l : list Address, Forall (fun a => length a = AddressLength) l →
            well_formed (state_of (AddNFTContracts l cf))) as Hbatch.
  { intros l Hl. rewrite AddNFTContracts_state. by apply well_formed_foldl. }
  split; [|split; [done|split; [|split; [|split; [done|]]]]].
  - intros log. rewrite ProcessLog_state.
    destruct (applicable el log); [|done]. rewrite AddNFTContract_state.
    apply (well_formed_foldl [_]); [done|].
    constructor; [apply BytesToAddress_length|constructor].
  - intros logs. rewrite BackfillNFTContracts_state. apply Hlogs.
  - intros a Ha. rewrite AddNFTContract_state.
    apply (well_formed_foldl [a]); [done|]. by constructor.
  - intros m l Hl. rewrite syncFromMongoDB_state. simpl. apply Hbatch.
    eapply Forall_impl; [exact (GetNFTContractAddresses_valid m l Hl)|].
    by intros a [Ha _].
Qed.

Lemma length_hex_Encode (a : list byte) :
  String.length (hex_Encode a) = (2 * length a)%nat.
Proof. induction a as [|v a IH]; [done|]. cbn [hex_Encode String.length length]. lia. Qed.

Lemma isHex_chars_hex_Encode (a : list byte) : isHex_chars (hex_Encode a) = true.
Proof.
  induction a as [|v a IH]; [done|]. cbn [hex_Encode isHex_chars].
  fold (hi_nibble v). fold (lo_nibble v).
  by rewrite reverseHexTable_hi, reverseHexTable_lo, IH.
Qed.

Lemma ToLower_survivor s : all_chars survives_checksum s = true → ToLower s = s.
Proof.
  induction s as [|c s IH]; [done|]. cbn [all_chars ToLower].
  rewrite andb_true_iff. unfold survives_checksum at 1.
  rewrite andb_true_iff, bool_decide_eq_true. intros [[-> _] Hs].
  by rewrite IH.
Qed.

Lemma length_0x t : String.length ("0x" +:+ t) = S (S (String.length t)).
Proof. done. Qed.

Lemma well_formed_watched cf :
  well_formed cf →
  Forall (fun a => length a = AddressLength) (GetWatchedAddresses cf).
Proof.
  intros (HF & HP & Hm). rewrite GetWatchedAddresses_eq.
  do 2 (constructor; [done|]). apply Forall_forall. intros a Ha.
  by apply Hm, elem_of_map_keys.
Qed.

(** X18: the query list parses back to the snapshot it was rendered
    from.  [GetAddressFilter] returns the rendering of a snapshot.  When
    the addresses of the registry are 20 bytes wide, every entry of the
    rendering of any snapshot is "0x" followed by forty lowercase
    hexadecimal digits (42 characters, the prefix included) and is
    accepted by [IsHexAddress], and [HexToAddress] of the entries gives
    that snapshot back, entry by entry.  Compared with the snapshot of
    another call, which may have visited the map in another order, the
    parsed list has the same two fixed addresses in front and the same
    members, and is equal to it only if the two snapshots are equal. *)
Theorem GetAddressFilter_round_trip cf (l : list Address) :
  well_formed cf →
  snapshot cf l →
  address_filter cf (GetAddressFilter cf)
  ∧ address_filter cf (lowercase_hex l)
  ∧ HexToAddress <$> lowercase_hex l = l
  ∧ Forall (fun s => String.length s = 42%nat
                     ∧ has0xPrefix s = true
                     ∧ IsHexAddress s = true
                     ∧ ToLower s = s)
           (lowercase_hex l)
  ∧ (∀ l', snapshot cf l' →
       HexToAddress <$> lowercase_hex l ≡ₚ l'
       ∧ take 2 (HexToAddress <$> lowercase_hex l) = take 2 l'
       ∧ (HexToAddress <$> lowercase_hex l = l' ↔ l' = l)).
Proof.
  intros Hwf Hl.
  assert (Forall (fun a => length a = AddressLength) l) as Hwidth.
  { destruct Hwf as (HF & HP & Hm). destruct Hl as (keys & Hperm & ->).
    do 2 (constructor; [done|]). apply Forall_forall. intros a Ha.
    apply Hm, elem_of_map_keys. by rewrite <- Hperm. }
  assert (HexToAddress <$> lowercase_hex l = l
          ∧ Forall (fun s => String.length s = 42%nat
                             ∧ has0xPrefix s = true
                             ∧ IsHexAddress s = true
                             ∧ ToLower s = s)
                   (lowercase_hex l)) as [Hback Hform].
  { unfold lowercase_hex. clear Hl.
    induction Hwidth as [|a l Ha _ [IH1 IH2]]; [done|]. split.
    - cbn [map]. rewrite fmap_cons, HexToAddress_ToLower_Hex by done.
      f_equal. exact IH1.
    - cbn [map]. constructor; [|exact IH2]. rewrite ToLower_Address_Hex.
      assert (String.length (hex_Encode a) = 40%nat) as Hlen
        by (rewrite length_hex_Encode, Ha; done).
      split; [by rewrite length_0x, Hlen|].
      split; [done|]. split.
      + unfold IsHexAddress.
        change (has0xPrefix ("0x" +:+ hex_Encode a)) with true. cbv iota.
        rewrite string_drop_0x, Hlen, isHex_chars_hex_Encode. done.
      + rewrite ToLower_0x. f_equal.
        apply ToLower_survivor, hex_Encode_survives. }
  split; [|split; [|split; [exact Hback|split; [exact Hform|]]]].
  - exists (GetWatchedAddresses cf).
    split; [apply GetWatchedAddresses_snapshot|done].
  - by exists l.
  - intros l' Hl'. rewrite Hback.
    destruct Hl as (keys & Hperm & ->). destruct Hl' as (keys' & Hperm' & ->).
    split; [|split; [done|done]].
    do 2 apply perm_skip. by rewrite Hperm, Hperm'.
Qed.

Lemma GetAddressFilter_round_trip_witness :
  well_formed Preload.filter_two_members
  ∧ snapshot Preload.filter_two_members
      [Sample.factory; Sample.payment; Sample.contractX; Sample.contractY]
  ∧ snapshot Preload.filter_two_members
      [Sample.factory; Sample.payment; Sample.contractY; Sample.contractX]
  ∧ HexToAddress
      <$> lowercase_hex
            [Sample.factory; Sample.payment; Sample.contractX; Sample.contractY]
    = [Sample.factory; Sample.payment; Sample.contractX; Sample.contractY]
  ∧ HexToAddress
      <$> lowercase_hex
            [Sample.factory; Sample.payment; Sample.contractX; Sample.contractY]
    ≠ [Sample.factory; Sample.payment; Sample.contractY; Sample.contractX].
Proof.
  assert (map_keys (nftContracts Preload.filter_two_members)
          ≡ₚ [Sample.contractX; Sample.contractY]) as Hkeys.
  { first
      [ assert (map_keys (nftContracts Preload.filter_two_members)
                = [Sample.contractX; Sample.contractY]) as ->
          by (vm_compute; reflexivity); reflexivity
      | assert (map_keys (nftContracts Preload.filter_two_members)
                = [Sample.contractY; Sample.contractX]) as ->
          by (vm_compute; reflexivity); apply perm_swap ]. }
  assert (well_formed Preload.filter_two_members) as Hwf.
  { split; [reflexivity|]. split; [reflexivity|].
    intros a Ha. apply elem_of_map_keys in Ha. rewrite Hkeys in Ha.
    apply elem_of_cons in Ha as [->|Ha]; [reflexivity|].
    apply list_elem_of_singleton in Ha as ->. reflexivity. }
  assert (snapshot Preload.filter_two_members
            [Sample.factory; Sample.payment; Sample.contractX; Sample.contractY])
    as Hxy.
  { exists [Sample.contractX; Sample.contractY]. by rewrite Hkeys. }
  assert (snapshot Preload.filter_two_members
            [Sample.factory; Sample.payment; Sample.contractY; Sample.contractX])
    as Hyx.
  { exists [Sample.contractY; Sample.contractX]. rewrite Hkeys.
    split; [apply perm_swap|done]. }
  destruct (GetAddressFilter_round_trip Preload.filter_two_members _ Hwf Hxy)
    as (_ & _ & Hback & _ & Hother).
  split; [exact Hwf|]. split; [exact Hxy|]. split; [exact Hyx|].
  split; [exact Hback|].
  destruct (Hother _ Hyx) as (_ & _ & Hiff).
  intros Heq. apply Hiff in Heq. revert Heq. vm_compute. congruence.
Defined.

(** *** From the configured string to the query list *)

Lemma reverseHexTable_digit c :
  match reverseHexTable c with
  | Some n => (n <? 16) && bool_decide (hextable n = lower_char c)
  | None => true
  end = true.
Proof. destruct c as [[] [] [] [] [] [] [] []]; reflexivity. Qed.

Lemma reverseHexTable_Some c n :
  reverseHexTable c = Some n → (n < 16) ∧ hextable n = lower_char c.
Proof.
  intros Hc. pose proof (reverseHexTable_digit c) as Hd. rewrite Hc in Hd.
  apply andb_true_iff in Hd as [Hlt Heq].
  split; [by apply N.ltb_lt|by apply bool_decide_eq_true in Heq].
Qed.

Lemma nibbles_of_byte (a b : N) :
  a < 16 → b < 16 →
  hi_nibble (byte_of_N (N.lor (N.shiftl a 4) b)) = a
  ∧ lo_nibble (byte_of_N (N.lor (N.shiftl a 4) b)) = b.
Proof.
  intros Ha Hb.
  assert (∀ n, n < 16 →
            n ∈ [0; 1; 2; 3; 4; 5; 6; 7; 8; 9; 10; 11; 12; 13; 14; 15]) as Hin.
  { intros n Hn. rewrite !elem_of_cons. lia. }
  apply Hin in Ha, Hb. rewrite !elem_of_cons in Ha, Hb.
  rewrite elem_of_nil in Ha, Hb.
  destruct Ha as [->|[->|[->|[->|[->|[->|[->|[->|[->|[->|[->|[->|[->|[->|[->|[->|[]]]]]]]]]]]]]]]]];
  destruct Hb as [->|[->|[->|[->|[->|[->|[->|[->|[->|[->|[->|[->|[->|[->|[->|[->|[]]]]]]]]]]]]]]]]];
  by vm_compute.
Qed.

Lemma hex_Encode_Hex2Bytes s :
  isHex_chars s = true → Nat.even (String.length s) = true →
  hex_Encode (Hex2Bytes s) = ToLower s
  ∧ (2 * length (Hex2Bytes s))%nat = String.length s.
Proof.
  unfold Hex2Bytes.
  induction s as [|c|c1 c2 s IH] using string_pair_ind; [done|done|].
  cbn [isHex_chars String.length hex_DecodeString ToLower].
  rewrite !andb_true_iff, !bool_decide_eq_true.
  intros ([a Ha] & [b Hb] & Hs) Heven. rewrite Ha, Hb.
  destruct (IH Hs) as [IH1 IH2]; [done|].
  destruct (hex_DecodeString s) as [bs err]. simpl in IH1, IH2.
  apply reverseHexTable_Some in Ha as [Ha1 Ha2], Hb as [Hb1 Hb2].
  destruct (nibbles_of_byte a b Ha1 Hb1) as [Hhi Hlo].
  cbn [fst hex_Encode length]. unfold hi_nibble, lo_nibble in Hhi, Hlo.
  rewrite Hhi, Hlo, Ha2, Hb2, IH1. split; [done|lia].
Qed.

(** X19: from the configured string to the query list.  For a string
    that [IsHexAddress] accepts (forty hexadecimal digits of either
    case, with or without the 0x or 0X prefix), the lowercase rendering
    of [HexToAddress] of the string, as [GetAddressFilter] produces it,
    is "0x" followed by the digits of the string in lower case. *)
Theorem HexToAddress_rendering s :
  IsHexAddress s = true →
  ToLower (Address_Hex (HexToAddress s)) = "0x" +:+ ToLower (strip_0x s)
  ∧ length (FromHex s) = AddressLength.
Proof.
  unfold IsHexAddress, HexToAddress, FromHex, strip_0x.
  generalize (if has0xPrefix s then string_drop 2 s else s) as digits.
  intros digits. rewrite andb_true_iff, Nat.eqb_eq. intros [Hlen Hhex].
  rewrite Hlen. change (Nat.odd (2 * AddressLength)) with false. cbv iota.
  destruct (hex_Encode_Hex2Bytes digits Hhex) as [Henc Hsz];
    [by rewrite Hlen|].
  assert (length (Hex2Bytes digits) = AddressLength) as Hl
    by (unfold AddressLength in *; lia).
  split; [|exact Hl].
  rewrite ToLower_Address_Hex. f_equal.
  unfold BytesToAddress. rewrite Hl. simpl. by rewrite Hl.
Qed.

Lemma HexToAddress_rendering_witness :
  IsHexAddress "0XAAAAaaaaAAAAaaaaAAAAaaaaAAAAaaaaAAAAaaaa" = true
  ∧ ToLower (Address_Hex
               (HexToAddress "0XAAAAaaaaAAAAaaaaAAAAaaaaAAAAaaaaAAAAaaaa"))
    = "0xaaaaaaaaaaaaaaaaaaaaaaaaaaaaaaaaaaaaaaaa".
Proof.
  assert (IsHexAddress "0XAAAAaaaaAAAAaaaaAAAAaaaaAAAAaaaaAAAAaaaa" = true)
    as Hok by reflexivity.
  split; [exact Hok|].
  destruct (HexToAddress_rendering _ Hok) as [H _]. rewrite H. reflexivity.
Defined.

(* ===================================================================== *)
(** ** Further properties of the filtered query adapter *)
(* ===================================================================== *)

Lemma GetFilteredLogs_run d fromBlock toBlock :
  GetFilteredLogs fromBlock toBlock d
  = if negb (filterEnabled d) || (length (addressFilter d) =? 0)%nat
    then FilterLogs {| FromBlock := fromBlock; ToBlock := toBlock;
                       Addresses := [] |} d
    else
      (r <- FilterLogs {| FromBlock := fromBlock; ToBlock := toBlock;
                          Addresses := addressFilter d |} ;;
       match r with
       | Err err => ret (Err ("failed to fetch filtered logs: " +:+ err))
       | Ok logs =>
           Printf ("[DopamintRPC] Fetched " +:+ pretty (length logs)
                   +:+ " logs from " +:+ pretty (length (addressFilter d))
                   +:+ " contracts (blocks " +:+ bigInt_String fromBlock
                   +:+ "-" +:+ bigInt_String toBlock +:+ ")" +:+ newline) ;;;
           ret (Ok logs)
       end)%prog d.
Proof.
  unfold GetFilteredLogs. rewrite bind_get.
  by destruct (negb (filterEnabled d) || (length (addressFilter d) =? 0)%nat).
Qed.

(** X20: [UpdateAddressFilter] and the next fetch.  [UpdateAddressFilter]
    replaces the cached list by the list given (nothing of the old list
    is kept), keeps the connection and the switch, and sends nothing to
    the node.  The next [GetFilteredLogs] sends one query whose address
    constraint is the new list when filtering is enabled and no
    constraint otherwise; emptying the list of an enabled client
    therefore makes the next query unconstrained.  [GetFilteredLogs]
    prints its summary line only after a constrained query that
    succeeded. *)
Theorem UpdateAddressFilter_then_fetch d (addresses : list Address)
    fromBlock toBlock :
  let d' := state_of (UpdateAddressFilter addresses d) in
  let run := GetFilteredLogs fromBlock toBlock d' in
  addressFilter d' = addresses
  ∧ client d' = client d
  ∧ filterEnabled d' = filterEnabled d
  ∧ queries_of (trace_of (UpdateAddressFilter addresses d)) = []
  ∧ queries_of (trace_of run)
    = [ {| FromBlock := fromBlock; ToBlock := toBlock;
           Addresses := if filterEnabled d then addresses else [] |} ]
  ∧ (stdout_of (trace_of run) ≠ [] →
     filterEnabled d = true ∧ addresses ≠ []
     ∧ ∃ logs, result_of run = Ok logs).
Proof.
  intros d' run.
  assert (d' = {| client := client d; addressFilter := addresses;
                  filterEnabled := filterEnabled d |}) as Hd'.
  { subst d'. unfold UpdateAddressFilter. by rewrite bind_get. }
  split; [by rewrite Hd'|]. split; [by rewrite Hd'|]. split; [by rewrite Hd'|].
  split; [unfold UpdateAddressFilter; by rewrite bind_get|].
  subst run. rewrite GetFilteredLogs_run, Hd'. simpl.
  destruct (filterEnabled d), addresses as [|a l]; simpl; try done.
  unfold bind, FilterLogs. simpl.
  destruct (client d _) as [logs|e]; simpl.
  - split; [done|]. intros _. split; [done|]. split; [done|]. by exists logs.
  - split; [done|]. done.
Qed.

Lemma UpdateAddressFilter_then_fetch_witness :
  stdout_of (trace_of (GetFilteredLogs (Some 1%Z) (Some 9%Z)
                         (state_of (UpdateAddressFilter [Sample.factory]
                                      SampleNode.emptied)))) ≠ []
  ∧ ∃ logs, result_of (GetFilteredLogs (Some 1%Z) (Some 9%Z)
                         (state_of (UpdateAddressFilter [Sample.factory]
                                      SampleNode.emptied))) = Ok logs.
Proof.
  assert (stdout_of (trace_of (GetFilteredLogs (Some 1%Z) (Some 9%Z)
                                 (state_of (UpdateAddressFilter [Sample.factory]
                                              SampleNode.emptied)))) ≠ [])
    as Hout by (vm_compute; congruence).
  split; [exact Hout|].
  destruct (UpdateAddressFilter_then_fetch SampleNode.emptied [Sample.factory]
              (Some 1%Z) (Some 9%Z)) as (_ & _ & _ & _ & _ & H).
  exact (proj2 (proj2 (H Hout))).
Defined.

(* ===================================================================== *)
(** ** The further properties at the sample deployments *)
(* ===================================================================== *)

Lemma AddNFTContracts_as_single_insertions_witness :
  [Sample.contractX; Sample.contractY] ≡ₚ [Sample.contractY; Sample.contractX]
  ∧ state_of (AddNFTContracts [Sample.contractY; Sample.contractX] Sample.filter)
    = state_of (AddNFTContracts [Sample.contractX; Sample.contractY] Sample.filter).
Proof.
  assert ([Sample.contractX; Sample.contractY]
          ≡ₚ [Sample.contractY; Sample.contractX]) as Hp by apply perm_swap.
  split; [exact Hp|].
  destruct (AddNFTContracts_as_single_insertions Sample.filter
              [Sample.contractX; Sample.contractY]) as [_ H].
  apply H. exact Hp.
Defined.

Lemma NewContractFilter_preload_witness :
  Sample.readFile "contracts.json" = Ok (list_byte_of_string "{ ... }")
  ∧ Preload.unmarshal (list_byte_of_string "{ ... }") = Ok Preload.config
  ∧ ∃ cf,
      NewContractFilter Sample.readFile Preload.unmarshal "contracts.json" = Ok cf
      ∧ dom (nftContracts cf)
        = list_to_set [Sample.contractX; Sample.contractX; zero_address].
Proof.
  split; [reflexivity|]. split; [reflexivity|].
  destruct (NewContractFilter_preload Sample.readFile Preload.unmarshal
              "contracts.json" (list_byte_of_string "{ ... }") Preload.config
              eq_refl eq_refl) as (cf & Hcf & Hdom & _).
  exists cf. split; [exact Hcf|]. rewrite Hdom. reflexivity.
Defined.

Lemma syncFromMongoDB_outcomes_witness :
  (GetNFTContractAddresses Preload.unreachable_database
   = (Err "failed to query MongoDB: server selection timeout", [])
   ∧ syncFromMongoDB Preload.unreachable_database Sample.filter
     = (Some ("failed to fetch NFT contracts from MongoDB: "
              +:+ "failed to query MongoDB: server selection timeout"),
        Sample.filter, [GetNFTContractAddressesCall]))
  ∧ (GetNFTContractAddresses Preload.database
     = (Ok [Sample.contractX; Sample.contractY], [Preload.decode_failure_line])
     ∧ [Sample.contractX; Sample.contractY] ≠ []
     ∧ trace_of (syncFromMongoDB Preload.database Sample.filter)
       = [GetNFTContractAddressesCall;
          Stdout Preload.decode_failure_line;
          Stdout ("[ContractFilter] Added 2 new NFT contracts (total: 2)"
                  +:+ newline);
          Stdout ("[ContractFilter] Synced 2 NFT contracts from MongoDB"
                  +:+ newline)]
     ∧ syncFromMongoDB Preload.database
         (state_of (syncFromMongoDB Preload.database Sample.filter))
       = (None, state_of (syncFromMongoDB Preload.database Sample.filter),
          [GetNFTContractAddressesCall;
           Stdout Preload.decode_failure_line;
           Stdout ("[ContractFilter] Synced 2 NFT contracts from MongoDB"
                   +:+ newline)])).
Proof.
  assert (GetNFTContractAddresses Preload.unreachable_database
          = (Err "failed to query MongoDB: server selection timeout", []))
    as Herr by (vm_compute; reflexivity).
  assert (GetNFTContractAddresses Preload.database
          = (Ok [Sample.contractX; Sample.contractY],
             [Preload.decode_failure_line]))
    as Hok by (vm_compute; reflexivity).
  assert ([Sample.contractX; Sample.contractY] ≠ []) as Hne by congruence.
  split.
  - split; [exact Herr|].
    destruct (syncFromMongoDB_outcomes Preload.unreachable_database
                Sample.filter) as (H & _).
    exact (H _ _ Herr).
  - split; [exact Hok|]. split; [exact Hne|].
    destruct (syncFromMongoDB_outcomes Preload.database Sample.filter)
      as (_ & H & _).
    destruct (H _ _ Hok) as (_ & _ & _ & _ & Htrace & _ & Hagain).
    split.
    + rewrite (Htrace Hne). vm_compute. reflexivity.
    + exact (Hagain Hne).
Defined.

Lemma StartMongoDBSync_runs_witness :
  (mongodbSyncEnabled Preload.filter_without_sync = false
   ∧ StartMongoDBSync Preload.duration_in_ns
       (Ok [Sample.contractX] : result (list Address)) Preload.schedule
       Preload.filter_without_sync
     = (returned, Preload.filter_without_sync,
        [Stdout ("[ContractFilter] MongoDB sync is disabled" +:+ newline)]))
  ∧ (mongodbSyncEnabled Sample.filter = true
     ∧ (0 < mongodbSyncInterval Sample.filter)%Z
     ∧ result_of (StartMongoDBSync Preload.duration_in_ns
                    (Ok [Sample.contractX] : result (list Address))
                    Preload.schedule Sample.filter) = returned
     ∧ dom (nftContracts
              (state_of (StartMongoDBSync Preload.duration_in_ns
                           (Ok [Sample.contractX] : result (list Address))
                           Preload.schedule Sample.filter)))
       = {[Sample.contractX; Sample.contractY]}
     ∧ source_calls
         (trace_of (StartMongoDBSync Preload.duration_in_ns
                      (Ok [Sample.contractX] : result (list Address))
                      Preload.schedule Sample.filter)) = 3%nat
     ∧ trace_of (StartMongoDBSync Preload.duration_in_ns
                   (Ok [Sample.contractX] : result (list Address))
                   Preload.schedule Sample.filter)
       = [Stdout ("[ContractFilter] Starting MongoDB sync "
                  +:+ "(interval: 300000000000ns)" +:+ newline);
          GetNFTContractAddressesCall;
          Stdout ("[ContractFilter] Added 1 new NFT contracts (total: 1)"
                  +:+ newline);
          Stdout ("[ContractFilter] Synced 1 NFT contracts from MongoDB"
                  +:+ newline);
          GetNFTContractAddressesCall;
          Stdout ("[ContractFilter] MongoDB sync error: "
                  +:+ "failed to fetch NFT contracts from MongoDB: timeout"
                  +:+ newline);
          GetNFTContractAddressesCall;
          Stdout ("[ContractFilter] Added 1 new NFT contracts (total: 2)"
                  +:+ newline);
          Stdout ("[ContractFilter] Synced 1 NFT contracts from MongoDB"
                  +:+ newline);
          Stdout ("[ContractFilter] MongoDB sync stopped" +:+ newline)]).
Proof.
  split.
  - split; [reflexivity|].
    destruct (StartMongoDBSync_runs Preload.duration_in_ns
                (Ok [Sample.contractX] : result (list Address))
                Preload.schedule Preload.filter_without_sync) as [H _].
    exact (proj1 (H eq_refl)).
  - assert (0 < mongodbSyncInterval Sample.filter)%Z as Hpos by (simpl; lia).
    split; [reflexivity|]. split; [exact Hpos|].
    destruct (StartMongoDBSync_runs Preload.duration_in_ns
                (Ok [Sample.contractX] : result (list Address))
                Preload.schedule Sample.filter) as [_ H].
    destruct (H eq_refl Hpos) as (Hstate & Hresult & Htrace & Hcalls & _).
    split; [exact Hresult|]. split; [rewrite Hstate; reflexivity|].
    split; [exact Hcalls|]. rewrite Htrace. vm_compute. reflexivity.
Defined.

Lemma StartMongoDBSync_panics_without_interval_witness :
  (Sample.readFile "contracts.json" = Ok (list_byte_of_string "{ ... }")
   ∧ Preload.unmarshal (list_byte_of_string "{ ... }") = Ok Preload.config
   ∧ cfg_MongoDBSync_Enabled Preload.config = true
   ∧ (-9223372036 ≤ cfg_MongoDBSync_IntervalSeconds Preload.config ≤ 0)%Z
   ∧ ∃ cf,
       NewContractFilter Sample.readFile Preload.unmarshal "contracts.json"
       = Ok cf
       ∧ StartMongoDBSync Preload.duration_in_ns
           (Ok [Sample.contractX] : result (list Address)) Preload.schedule cf
         = (panicked "non-positive interval for NewTicker", cf,
            [Stdout ("[ContractFilter] Starting MongoDB sync (interval: "
                     +:+ Preload.duration_in_ns (mongodbSyncInterval cf)
                     +:+ ")" +:+ newline)]))
  ∧ (Preload.unmarshal_wrapping (list_byte_of_string "{ ... }")
     = Ok Preload.config_wrapping
     ∧ cfg_MongoDBSync_Enabled Preload.config_wrapping = true
     ∧ cfg_MongoDBSync_IntervalSeconds Preload.config_wrapping
       = (-9223372037)%Z
     ∧ ∃ cf,
         NewContractFilter Sample.readFile Preload.unmarshal_wrapping
           "contracts.json" = Ok cf
         ∧ mongodbSyncInterval cf = 9223372036709551616%Z
         ∧ result_of (StartMongoDBSync Preload.duration_in_ns
                        (Ok [Sample.contractX] : result (list Address))
                        Preload.schedule cf) = returned
         ∧ source_calls
             (trace_of (StartMongoDBSync Preload.duration_in_ns
                          (Ok [Sample.contractX] : result (list Address))
                          Preload.schedule cf)) = 3%nat).
Proof.
  assert (-9223372036 ≤ cfg_MongoDBSync_IntervalSeconds Preload.config ≤ 0)%Z
    as Hsec by (simpl; lia).
  split.
  - split; [reflexivity|]. split; [reflexivity|]. split; [reflexivity|].
    split; [exact Hsec|].
    destruct (StartMongoDBSync_panics_without_interval Preload.duration_in_ns
                Sample.readFile Preload.unmarshal "contracts.json"
                (list_byte_of_string "{ ... }") Preload.config
                (Ok [Sample.contractX] : result (list Address)) Preload.schedule
                eq_refl eq_refl eq_refl) as (cf & Hcf & _ & Hpanic & _).
    exists cf. split; [exact Hcf|]. exact (proj1 (proj2 (Hpanic Hsec))).
  - split; [reflexivity|]. split; [reflexivity|]. split; [reflexivity|].
    destruct (StartMongoDBSync_panics_without_interval Preload.duration_in_ns
                Sample.readFile Preload.unmarshal_wrapping "contracts.json"
                (list_byte_of_string "{ ... }") Preload.config_wrapping
                (Ok [Sample.contractX] : result (list Address)) Preload.schedule
                eq_refl eq_refl eq_refl) as (cf & Hcf & _ & _ & _ & Hwrap).
    destruct (Hwrap eq_refl) as (Hint & Hres & Hcalls).
    exists cf. split; [exact Hcf|]. split; [exact Hint|].
    split; [exact Hres|exact Hcalls].
Defined.

Lemma GetNFTContractAddresses_outcomes_witness :
  (Database.collection_Find Preload.unreachable_database
     (Database.status_ne "deleted") = Err "server selection timeout"
   ∧ Database.GetNFTContractAddresses Preload.unreachable_database
     = (Err "failed to query MongoDB: server selection timeout",
        Preload.unreachable_database, []))
  ∧ (Database.collection_Find Preload.database (Database.status_ne "deleted")
     = Ok Preload.cursor
     ∧ Database.cursor_Err Preload.cursor = None
     ∧ result_of (Database.GetNFTContractAddresses Preload.database)
       = Ok [Sample.contractX; Sample.contractY]).
Proof.
  split.
  - split; [reflexivity|].
    destruct (GetNFTContractAddresses_outcomes Preload.unreachable_database)
      as (_ & H & _).
    apply (H "server selection timeout"). reflexivity.
  - split; [reflexivity|]. split; [reflexivity|].
    destruct (GetNFTContractAddresses_outcomes Preload.database)
      as (_ & _ & H & _).
    destruct (H Preload.cursor eq_refl) as (_ & _ & Hok).
    rewrite (Hok eq_refl). reflexivity.
Defined.

Lemma well_formed_preserved_witness :
  well_formed Sample.filter
  ∧ well_formed
      (state_of (ProcessLogs Sample.listener [Sample.created; Sample.short]
                   Sample.filter)).
Proof.
  assert (well_formed Sample.filter) as Hwf.
  { split; [reflexivity|]. split; [reflexivity|].
    intros a Ha. by apply elem_of_dom in Ha as [? ?]. }
  split; [exact Hwf|].
  destruct (well_formed_preserved Sample.listener Sample.filter Hwf)
    as (_ & H & _).
  apply H.
Defined.
